(** * Liquid-democracy voting core: shallow embedding and verified properties

    The development follows the JavaScript sources:
    - [utils/redisKeys.js]       : key namespace and [RedisVotingOps]
    - [utils/delegationEngine.js]: [DelegationEngine]
    - [utils/finalVoteEngine.js] : [FinalVoteEngine]
    - [utils/redisBackup.js]     : [RedisBackupManager]
    - [utils/proposalScheduler.js]: [processProposal], [checkExpiredProposals]
    - [routes/votingRoutes.js]   : the vote, delegate and removal handlers
    - [routes/proposalRoutes.js] : [validateProposalData]

    Conventions of the embedding.
    - The ephemeral store is a finite map from key names to typed Redis
      values; a command applied to a key of the wrong kind throws, as the
      server answers WRONGTYPE and the client raises.  Key expiry is a
      matter of wall-clock time and is left out: [setex] stores the value.
    - [async] code is written in a state-and-exception monad over the store;
      [try/catch] is [try_catch].  A thrown command leaves the writes made
      before it in place, as the sources' multi-step sequences do.
    - JavaScript objects used as dictionaries are [gmap]s; a [for ... of
      Object.entries(o)] loop is a fold over [map_to_list o].  Every theorem
      below holds for whatever enumeration order [map_to_list] picks.  A
      [gmap] has own properties only: a read [o[name]] is a lookup for the
      names that [Object.prototype] does not define ([Js.plain]).
    - Numbers are integers ([Z]) or counters ([nat]); an integer stands
      for one JavaScript number when it is safe ([Js.safe]).  Strings are
      Rocq strings and [toLowerCase] acts on the ASCII letters.
    - The store's client hands a reply parsed as JSON when the reply is
      JSON text, and the reply itself otherwise.  The reads of the model
      return the stored strings, which is what the client returns for
      plain names; a stored vote is read by its callers with [parseInt],
      with the same result on the digits of a safe integer and on the
      number they parse to.  The theorems that read stored names or votes
      assume contents of this kind ([ordinary]). *)

From Stdlib Require Import ZArith Ascii String Lia.
From stdpp Require Import gmap strings list fin_maps pretty.

Local Open Scope string_scope.
Local Open Scope Z_scope.

(* ===================================================================== *)
(** * JavaScript built-ins used by the sources *)
(* ===================================================================== *)

Module Js.

(** [String.prototype.toLowerCase], on the ASCII range. *)
Definition lower_ascii (c : ascii) : ascii :=
  let n := nat_of_ascii c in
  if ((65 <=? n) && (n <=? 90))%nat then ascii_of_nat (n + 32) else c.

Fixpoint toLowerCase (s : string) : string :=
  match s with
  | EmptyString => EmptyString
  | String c r => String (lower_ascii c) (toLowerCase r)
  end.

(** [Array.prototype.join]. *)
Fixpoint join (sep : string) (l : list string) : string :=
  match l with
  | [] => ""
  | [x] => x
  | x :: r => x +:+ sep +:+ join sep r
  end.

(** Truthiness of a string-valued property read: [undefined] and the
    empty string are falsy. *)
Definition truthy (o : option string) : option string :=
  match o with
  | Some EmptyString => None
  | other => other
  end.

(** [parseInt(s)]: leading white space, an optional sign, an optional
    [0x] prefix, then the longest prefix of digits; [None] is [NaN]. *)
Definition is_ws (c : ascii) : bool :=
  let n := nat_of_ascii c in
  ((n =? 32) || ((9 <=? n) && (n <=? 13)))%nat.

Fixpoint skip_ws (s : string) : string :=
  match s with
  | String c r => if is_ws c then skip_ws r else s
  | EmptyString => EmptyString
  end.

Definition digit_of (radix : Z) (c : ascii) : option Z :=
  let n := Z.of_nat (nat_of_ascii c) in
  let d := if (48 <=? n) && (n <=? 57) then Some (n - 48)
           else if (97 <=? n) && (n <=? 122) then Some (n - 87)
           else if (65 <=? n) && (n <=? 90) then Some (n - 55)
           else None in
  match d with
  | Some v => if v <? radix then Some v else None
  | None => None
  end.

Fixpoint digits_prefix (radix : Z) (acc : option Z) (s : string) : option Z :=
  match s with
  | EmptyString => acc
  | String c r =>
      match digit_of radix c with
      | Some d => digits_prefix radix (Some (radix * default 0 acc + d)) r
      | None => acc
      end
  end.

Definition unsigned_int (s : string) : option Z :=
  match s with
  | String "0" (String "x" r) | String "0" (String "X" r) => digits_prefix 16 None r
  | _ => digits_prefix 10 None s
  end.

Definition parseInt (s : string) : option Z :=
  match skip_ws s with
  | String "-" r => Z.opp <$> unsigned_int r
  | String "+" r => unsigned_int r
  | r => unsigned_int r
  end.

(** [Number.isSafeInteger]: the integers a JavaScript number holds
    exactly, each of them a different number. *)
Definition safe (n : Z) : bool := Z.abs n <=? 9007199254740991.

(** [Number.prototype.toString] on an integer: the decimal digits below
    10^21, the exponent form from there on ([1e+21], [1.5e+21], [-2e+22]).
    The exponent form is written with the digits of the integer up to its
    last non-zero one; these are the digits JavaScript prints for the
    numbers of at most fifteen significant digits. *)
Fixpoint strip_zeros (fuel : nat) (m : Z) : Z :=
  match fuel with
  | O => m
  | S fuel => if (0 <? m) && (m mod 10 =? 0) then strip_zeros fuel (m / 10) else m
  end.

Definition exponent_form (m : Z) : string :=
  let exponent := Z.of_nat (String.length (pretty m)) - 1 in
  match pretty (strip_zeros (String.length (pretty m)) m) with
  | String d EmptyString => String d "e+" +:+ pretty exponent
  | String d fraction => String d ("." +:+ fraction) +:+ "e+" +:+ pretty exponent
  | EmptyString => EmptyString
  end.

Definition toString (n : Z) : string :=
  if Z.abs n <? 10 ^ 21 then pretty n
  else if n <? 0 then "-" +:+ exponent_form (Z.abs n)
  else exponent_form n.

(** The wallet names on which the model of the store's client and of
    property reads is exact: ASCII letters and digits, beginning with a
    letter or with [0x], and in no spelling one of the words below.  Such a
    string is not JSON text, so the client, which hands a reply parsed as
    JSON when it parses, returns the string itself; and it names no member
    of [Object.prototype], so [o[name]] reads an own property or
    [undefined]. *)
Definition alnum (c : ascii) : bool :=
  let n := nat_of_ascii c in
  (((48 <=? n) && (n <=? 57)) || ((65 <=? n) && (n <=? 90)) || ((97 <=? n) && (n <=? 122)))%nat.

Definition letter (c : ascii) : bool :=
  let n := nat_of_ascii c in
  (((65 <=? n) && (n <=? 90)) || ((97 <=? n) && (n <=? 122)))%nat.

Fixpoint all_alnum (s : string) : bool :=
  match s with
  | EmptyString => true
  | String c r => alnum c && all_alnum r
  end.

Definition reserved : list string :=
  [ "true"; "false"; "null"; "constructor"; "hasownproperty"; "isprototypeof";
    "propertyisenumerable"; "tolocalestring"; "tostring"; "valueof" ].

Definition prefixed (s : string) : bool :=
  match s with
  | String c (String x _) => Ascii.eqb c "0" && Ascii.eqb (lower_ascii x) "x"
  | _ => false
  end.

Definition plain (s : string) : bool :=
  all_alnum s &&
  (match s with String c _ => letter c | EmptyString => false end || prefixed s) &&
  bool_decide (toLowerCase s ∉ reserved).

(** [String.prototype.trim]: white space stripped at both ends. *)
Definition trim (s : string) : string :=
  String.rev (skip_ws (String.rev (skip_ws s))).

End Js.

(* ===================================================================== *)
(** * The ephemeral store ([@upstash/redis] client) *)
(* ===================================================================== *)

Module Redis.

Inductive rvalue : Type :=
| RString (s : string)
| RHash (h : gmap string string)
| RSet (s : gset string).

Abbreviation store := (gmap string rvalue).

Inductive result (A : Type) : Type :=
| Ok (a : A)
| Throw (msg : string).
Arguments Ok {A} a.
Arguments Throw {A} msg.

Definition WRONGTYPE : string :=
  "WRONGTYPE Operation against a key holding the wrong kind of value".

(** ** Reads

    The stored strings, as the client returns them for names that are not
    JSON text (see the conventions above). *)

Definition hget (key field : string) (st : store) : result (option string) :=
  match st !! key with
  | None => Ok None
  | Some (RHash h) => Ok (h !! field)
  | Some _ => Throw WRONGTYPE
  end.

(** [hgetall] answers [null] for a missing key. *)
Definition hgetall (key : string) (st : store) : result (option (gmap string string)) :=
  match st !! key with
  | None => Ok None
  | Some (RHash h) => Ok (Some h)
  | Some _ => Throw WRONGTYPE
  end.

Definition smembers (key : string) (st : store) : result (list string) :=
  match st !! key with
  | None => Ok []
  | Some (RSet s) => Ok (elements s)
  | Some _ => Throw WRONGTYPE
  end.

Definition scard (key : string) (st : store) : result nat :=
  match st !! key with
  | None => Ok 0%nat
  | Some (RSet s) => Ok (size s)
  | Some _ => Throw WRONGTYPE
  end.

Definition get (key : string) (st : store) : result (option string) :=
  match st !! key with
  | None => Ok None
  | Some (RString s) => Ok (Some s)
  | Some _ => Throw WRONGTYPE
  end.

(** ** Writes: the answer and the store after the command *)

(** [hset key {f1: v1, ...}]: the given fields override the old ones. *)
Definition hset (key : string) (fields : gmap string string) (st : store)
  : result nat * store :=
  if decide (fields = ∅) then (Throw "ERR wrong number of arguments for 'hset' command", st)
  else match st !! key with
       | None => (Ok (size fields), <[key := RHash fields]> st)
       | Some (RHash h) =>
           (Ok (size (filter (λ kv, h !! kv.1 = None) fields)),
            <[key := RHash (fields ∪ h)]> st)
       | Some _ => (Throw WRONGTYPE, st)
       end.

(** [hdel key field]: a hash left without fields disappears. *)
Definition hdel (key field : string) (st : store) : result nat * store :=
  match st !! key with
  | None => (Ok 0%nat, st)
  | Some (RHash h) =>
      match h !! field with
      | None => (Ok 0%nat, st)
      | Some _ =>
          let h' := delete field h in
          (Ok 1%nat, if decide (h' = ∅) then delete key st else <[key := RHash h']> st)
      end
  | Some _ => (Throw WRONGTYPE, st)
  end.

Definition sadd (key : string) (members : list string) (st : store)
  : result nat * store :=
  match members with
  | [] => (Throw "ERR wrong number of arguments for 'sadd' command", st)
  | _ =>
      match st !! key with
      | None => (Ok (size (list_to_set members : gset string)),
                 <[key := RSet (list_to_set members)]> st)
      | Some (RSet s) =>
          (Ok (size (list_to_set members ∖ s : gset string)),
           <[key := RSet (list_to_set members ∪ s)]> st)
      | Some _ => (Throw WRONGTYPE, st)
      end
  end.

Definition set (key value : string) (st : store) : result string * store :=
  (Ok "OK", <[key := RString value]> st).

(** [setex key ttl value]; the expiry itself is not modelled. *)
Definition setex (key : string) (ttl : Z) (value : string) (st : store)
  : result string * store :=
  set key value st.

Definition del1 (key : string) (st : store) : nat * store :=
  match st !! key with
  | None => (0%nat, st)
  | Some _ => (1%nat, delete key st)
  end.

Fixpoint del (keys : list string) (st : store) : result nat * store :=
  match keys with
  | [] => (Ok 0%nat, st)
  | k :: r =>
      let '(n, st1) := del1 k st in
      match del r st1 with
      | (Ok m, st2) => (Ok (n + m)%nat, st2)
      | other => other
      end
  end.

End Redis.

Import Redis.

(* ===================================================================== *)
(** * Data model *)
(* ===================================================================== *)

(** A JavaScript number that may be [NaN] (what [parseInt] returns and what
    an object key converts from). *)
Inductive jsnum : Type :=
| Num (z : Z)
| NaN.

Global Instance jsnum_eq_dec : EqDecision jsnum.
Proof. solve_decision. Defined.

Global Program Instance jsnum_countable : Countable jsnum :=
  inj_countable' (λ n, match n with Num z => Some z | NaN => None end)
                 (λ o, match o with Some z => Num z | None => NaN end) _.
Next Obligation. by intros []. Qed.

Definition jsnum_of (o : option Z) : jsnum :=
  match o with Some z => Num z | None => NaN end.

(** JSON documents kept in the durable store's [jsonb] columns. *)
#[local] Set Warnings "-register-all".
Inductive json : Type :=
| JNull
| JNum (n : Z)
| JStr (s : string)
| JArr (items : list json)
| JObj (fields : list (string * json)).

(** Property read [o.name]; [None] is [undefined]. *)
Fixpoint assoc (name : string) (fields : list (string * json)) : option json :=
  match fields with
  | [] => None
  | (k, v) :: r => if String.eqb k name then Some v else assoc name r
  end.

Definition jget (name : string) (o : json) : option json :=
  match o with
  | JObj fields => assoc name fields
  | _ => None
  end.

(** Truthiness of a (possibly undefined) JSON value. *)
Definition jtruthy (o : option json) : bool :=
  match o with
  | None | Some JNull | Some (JNum 0) | Some (JStr EmptyString) => false
  | Some _ => true
  end.

(** ** Resolution Record *)

Record chain_result : Type := ChainResult {
  finalDelegate : string;
  path : list string;
  chain_length : nat (* [length] *)
}.

Record audit_entry : Type := AuditEntry {
  audit_path : list string;
  audit_length : nat
}.

Record resolved_chains : Type := ResolvedChains {
  rc_delegationResolution : gmap string string;
  rc_auditTrail : gmap string audit_entry;
  rc_longestChainLength : nat
}.

Record resolution_metadata : Type := ResolutionMetadata {
  totalParticipants : nat;
  directVoters : nat;
  delegators : nat;
  longestChain : nat;
  res_computationTimeMs : Z
}.

Record resolution : Type := Resolution {
  res_proposalId : string;
  res_computedAt : string;
  delegationResolution : gmap string string;
  votingPowers : gmap string nat;
  metadata : resolution_metadata;
  auditTrail : gmap string audit_entry
}.

(** ** Tally Record *)

Record voter_entry : Type := VoterEntry {
  ve_votingPower : nat;
  ve_votedOption : jsnum
}.

Record weighted_results : Type := WeightedResults {
  optionTallies : gmap jsnum nat;
  voterBreakdown : gmap string voter_entry;
  totalVotingPower : nat;
  totalVotesCast : nat;
  totalUniqueVoters : nat;
  winningOption : option jsnum
}.

Record proposal_option : Type := ProposalOption {
  option_number : Z;
  option_text : string
}.

(** What [proposalDb.getById] returns: the row and its options. *)
Record proposal : Type := Proposal {
  title : string;
  options : list proposal_option;
  voting_deadline : string
}.

Record final_metadata : Type := FinalMetadata {
  fm_totalVotingPower : nat;
  fm_totalVotesCast : nat;
  fm_totalUniqueVoters : nat;
  fm_winningOption : option jsnum;
  fm_computationTimeMs : Z
}.

Record proposal_info : Type := ProposalInfo {
  pi_title : string;
  pi_totalOptions : nat;
  pi_votingDeadline : string
}.

Record final_results : Type := FinalResults {
  fr_proposalId : string;
  fr_computedAt : string;
  optionResults : gmap jsnum nat;
  fr_metadata : final_metadata;
  fr_voterBreakdown : gmap string voter_entry;
  proposalInfo : proposal_info
}.

(** ** Durable audit store (the collaborator of §6)

    The tables are reached only through the client calls in the sources;
    their schema is not part of them.  Each audit table is written by
    [upsert ... onConflict: 'proposal_id'], hence a map from proposal id to
    its one row; [redis_snapshots] is an insert-only list of rows whose
    [snapshot_id] and [snapshot_at] the database assigns. *)

Inductive audit_status : Type := completed | error.

Global Instance audit_status_eq_dec : EqDecision audit_status.
Proof. solve_decision. Defined.

Inductive resolution_data : Type :=
| ResolutionData (r : resolution)
| ResolutionError (err : string) (proposalId : string).

Record resolution_audit_row : Type := ResolutionAuditRow {
  ra_resolution_data : resolution_data;
  ra_computation_time_ms : Z;
  ra_total_participants : nat;
  ra_direct_voters : nat;
  ra_delegators : nat;
  ra_longest_chain_length : nat;
  ra_status : audit_status;
  ra_error_message : option string
}.

Inductive vote_results : Type :=
| VoteResults (r : final_results)
| VoteError (err : string) (proposalId : string).

Record final_audit_row : Type := FinalAuditRow {
  fa_vote_results : vote_results;
  fa_computation_time_ms : Z;
  fa_total_voting_power : nat;
  fa_total_votes_cast : nat;
  fa_winning_option : option jsnum;
  fa_status : audit_status;
  fa_error_message : option string
}.

Record snapshot_row : Type := SnapshotRow {
  snapshot_id : string;
  sn_proposal_id : string;
  redis_data : json;
  snapshot_type : string;
  snapshot_at : Z
}.

Record vote_audit_row : Type := VoteAuditRow {
  va_proposal_id : string;
  va_user_wallet : string;
  va_organization_id : string;
  va_action_type : string;
  va_target : option string;
  va_target_wallet : option string
}.

Record database : Type := Database {
  delegation_resolution_audit : gmap string resolution_audit_row;
  final_vote_results_audit : gmap string final_audit_row;
  redis_snapshots : list snapshot_row;
  vote_audit : list vote_audit_row;
  proposals : gmap string proposal
}.

(** [upsert(row, { onConflict: 'proposal_id' })] and [insert(row)]. *)
Definition upsert_resolution_audit (proposal_id : string) (row : resolution_audit_row)
           (db : database) : database :=
  {| delegation_resolution_audit := <[ proposal_id := row ]> (delegation_resolution_audit db);
     final_vote_results_audit := final_vote_results_audit db;
     redis_snapshots := redis_snapshots db;
     vote_audit := vote_audit db;
     proposals := proposals db |}.

Definition upsert_final_audit (proposal_id : string) (row : final_audit_row)
           (db : database) : database :=
  {| delegation_resolution_audit := delegation_resolution_audit db;
     final_vote_results_audit := <[ proposal_id := row ]> (final_vote_results_audit db);
     redis_snapshots := redis_snapshots db;
     vote_audit := vote_audit db;
     proposals := proposals db |}.

Definition insert_snapshot (row : snapshot_row) (db : database) : database :=
  {| delegation_resolution_audit := delegation_resolution_audit db;
     final_vote_results_audit := final_vote_results_audit db;
     redis_snapshots := redis_snapshots db ++ [row];
     vote_audit := vote_audit db;
     proposals := proposals db |}.

Definition insert_vote_audit (row : vote_audit_row) (db : database) : database :=
  {| delegation_resolution_audit := delegation_resolution_audit db;
     final_vote_results_audit := final_vote_results_audit db;
     redis_snapshots := redis_snapshots db;
     vote_audit := vote_audit db ++ [row];
     proposals := proposals db |}.

(** ** The state [async] code runs against *)

Record world : Type := World {
  redis : store;
  supabase : database
}.

(** Values the environment supplies to one call: the clock readings
    ([new Date().toISOString()], [Date.now() - startTime]) and the
    identifiers the database assigns to an inserted snapshot row. *)
Record env : Type := Env {
  isoNow : string;
  elapsedMs : Z;
  new_snapshot_id : string;
  new_snapshot_at : Z
}.

Module Async.

Definition M (A : Type) : Type := world → result A * world.

Definition ret {A} (a : A) : M A := λ w, (Ok a, w).
Definition throw {A} (msg : string) : M A := λ w, (Throw msg, w).
Definition bind {A B} (m : M A) (k : A → M B) : M B :=
  λ w, match m w with
       | (Ok a, w') => k a w'
       | (Throw e, w') => (Throw e, w')
       end.
(** [try { m } catch (error) { handler(error.message) }] *)
Definition try_catch {A} (m : M A) (handler : string → M A) : M A :=
  λ w, match m w with
       | (Ok a, w') => (Ok a, w')
       | (Throw e, w') => handler e w'
       end.

(** A Redis read, a Redis write, a database read, a database write. *)
Definition rd {A} (r : store → result A) : M A := λ w, (r (redis w), w).
Definition wr {A} (c : store → result A * store) : M A :=
  λ w, let '(a, st) := c (redis w) in (a, World st (supabase w)).
Definition db_rd {A} (r : database → A) : M A := λ w, (Ok (r (supabase w)), w).
Definition db_wr (c : database → database) : M unit :=
  λ w, (Ok tt, World (redis w) (c (supabase w))).

End Async.

Import Async.

Notation "'await' x <- m 'in' k" := (Async.bind m (λ x, k))
  (at level 10, x binder, m at level 100, k at level 200).
Notation "'await_' m 'in' k" := (Async.bind m (λ _, k))
  (at level 10, m at level 100, k at level 200).

(* ===================================================================== *)
(** * [utils/redisKeys.js] *)
(* ===================================================================== *)

Module REDIS_KEYS.

Definition votes (proposalId : string) : string :=
  "proposal:" +:+ proposalId +:+ ":votes".
Definition delegations (proposalId : string) : string :=
  "proposal:" +:+ proposalId +:+ ":delegations".
Definition vote_weights (proposalId : string) : string :=
  "proposal:" +:+ proposalId +:+ ":vote_weights".
Definition delegation_chains (proposalId : string) : string :=
  "proposal:" +:+ proposalId +:+ ":chains".
Definition status (proposalId : string) : string :=
  "proposal:" +:+ proposalId +:+ ":status".
Definition lock (proposalId : string) : string :=
  "proposal:" +:+ proposalId +:+ ":lock".
Definition deadline (proposalId : string) : string :=
  "proposal:" +:+ proposalId +:+ ":deadline".
Definition participants (proposalId : string) : string :=
  "proposal:" +:+ proposalId +:+ ":participants".
Definition cooldown (userWallet proposalId : string) : string :=
  "cooldown:" +:+ userWallet +:+ ":" +:+ proposalId.

Definition allForProposal (proposalId : string) : list string :=
  [ "proposal:" +:+ proposalId +:+ ":votes";
    "proposal:" +:+ proposalId +:+ ":delegations";
    "proposal:" +:+ proposalId +:+ ":vote_weights";
    "proposal:" +:+ proposalId +:+ ":delegation_chains";
    "proposal:" +:+ proposalId +:+ ":status";
    "proposal:" +:+ proposalId +:+ ":lock";
    "proposal:" +:+ proposalId +:+ ":deadline";
    "proposal:" +:+ proposalId +:+ ":participants" ].

End REDIS_KEYS.

Module REDIS_TTL.
Definition COMPLETED_PROPOSAL : Z := 7 * 24 * 60 * 60.
Definition PROCESSING_LOCK : Z := 60 * 60.
Definition RATE_LIMIT : Z := 60.
Definition ERROR_STATUS : Z := 24 * 60 * 60.
End REDIS_TTL.

(** What [detectCyclesDFS] answers. *)
Inductive cycle_reason : Type :=
| SelfDelegation                       (* 'Cannot delegate to yourself' *)
| CircularDelegation (cyclePath : list string)
| ChainTooLong                         (* 'Delegation chain too long ...' *)
| DetectionFailed (message : string).

(** The separator the source joins the cycle path with (the arrow is stored
    mis-encoded in the source file and is kept as it stands there). *)
Definition ARROW_SEP : string := " â†’ ".

Definition reason_text (r : cycle_reason) : string :=
  match r with
  | SelfDelegation => "Cannot delegate to yourself"
  | CircularDelegation cyclePath =>
      "Circular delegation detected: " +:+ Js.join ARROW_SEP cyclePath
  | ChainTooLong => "Delegation chain too long (possible infinite loop)"
  | DetectionFailed message => "Cycle detection failed due to error: " +:+ message
  end.

Record cycle_check : Type := CycleCheck {
  hasCycle : bool;
  cyclePath : option (list string);
  reason : option cycle_reason
}.

Record user_status : Type := UserStatus {
  has_voted : bool;
  voted_option : option Z;
  has_delegated : bool;
  delegate_wallet : option string
}.

Module RedisVotingOps.

(** [castVote(proposalId, userWallet, optionNumber)] *)
Definition castVote (proposalId userWallet : string) (optionNumber : Z) : M bool :=
  let walletKey := Js.toLowerCase userWallet in
  let optionValue := Js.toString optionNumber in
  let votesKey := REDIS_KEYS.votes proposalId in
  let delegationsKey := REDIS_KEYS.delegations proposalId in
  let participantsKey := REDIS_KEYS.participants proposalId in
  try_catch
    (await_ wr (hset votesKey {[ walletKey := optionValue ]}) in
     await_ wr (sadd participantsKey [walletKey]) in
     await_ wr (hdel delegationsKey walletKey) in
     ret true)
    (λ e, throw e).

(** [setDelegation(proposalId, delegatorWallet, delegateWallet)] *)
Definition setDelegation (proposalId delegatorWallet delegateWallet : string) : M bool :=
  let delegatorKey := Js.toLowerCase delegatorWallet in
  let delegateKey := Js.toLowerCase delegateWallet in
  let votesKey := REDIS_KEYS.votes proposalId in
  let delegationsKey := REDIS_KEYS.delegations proposalId in
  let participantsKey := REDIS_KEYS.participants proposalId in
  try_catch
    (await_ wr (hset delegationsKey {[ delegatorKey := delegateKey ]}) in
     await_ wr (sadd participantsKey [delegatorKey]) in
     await_ wr (hdel votesKey delegatorKey) in
     ret true)
    (λ e, throw e).

Definition removeVote (proposalId userWallet : string) : M nat :=
  let walletKey := Js.toLowerCase userWallet in
  wr (hdel (REDIS_KEYS.votes proposalId) walletKey).

Definition removeDelegation (proposalId userWallet : string) : M nat :=
  let walletKey := Js.toLowerCase userWallet in
  wr (hdel (REDIS_KEYS.delegations proposalId) walletKey).

(** [getUserVote]: [null] for a missing or empty field, for a value that
    does not parse, and when the read throws. *)
Definition getUserVote (proposalId userWallet : string) : M (option Z) :=
  try_catch
    (await vote <- rd (hget (REDIS_KEYS.votes proposalId) (Js.toLowerCase userWallet)) in
     match vote with
     | None | Some EmptyString => ret None
     | Some v => ret (Js.parseInt v)
     end)
    (λ _, ret None).

Definition getUserDelegation (proposalId userWallet : string) : M (option string) :=
  try_catch
    (await delegation <- rd (hget (REDIS_KEYS.delegations proposalId)
                                  (Js.toLowerCase userWallet)) in
     match delegation with
     | None | Some EmptyString => ret None
     | Some d => ret (Some d)
     end)
    (λ _, ret None).

Definition getUserStatus (proposalId userWallet : string) : M user_status :=
  await vote <- getUserVote proposalId userWallet in
  await delegation <- getUserDelegation proposalId userWallet in
  ret {| has_voted := bool_decide (vote ≠ None);
         voted_option := vote;
         has_delegated := bool_decide (delegation ≠ None);
         delegate_wallet := delegation |}.

Definition checkCooldown (userWallet proposalId : string) : M bool :=
  await lastAction <- rd (get (REDIS_KEYS.cooldown (Js.toLowerCase userWallet) proposalId)) in
  ret (bool_decide (lastAction ≠ None)).

(** [setCooldown]; [stamp] is [Date.now().toString()]. *)
Definition setCooldown (userWallet proposalId : string) (stamp : string) : M string :=
  wr (setex (REDIS_KEYS.cooldown (Js.toLowerCase userWallet) proposalId)
            REDIS_TTL.RATE_LIMIT stamp).

(** [getAllVotes]: keys lower-cased, values through [parseInt]. *)
Definition convertVotes (votes : gmap string string) : gmap string jsnum :=
  foldl (λ convertedVotes '(wallet, option),
           <[ Js.toLowerCase wallet := jsnum_of (Js.parseInt option) ]> convertedVotes)
        ∅ (map_to_list votes).

Definition getAllVotes (proposalId : string) : M (gmap string jsnum) :=
  await votes <- rd (hgetall (REDIS_KEYS.votes proposalId)) in
  ret (convertVotes (default ∅ votes)).

(** [getAllDelegations]: both ends lower-cased. *)
Definition normalizeDelegations (delegations : gmap string string) : gmap string string :=
  foldl (λ normalizedDelegations '(delegator, delegate),
           <[ Js.toLowerCase delegator := Js.toLowerCase delegate ]> normalizedDelegations)
        ∅ (map_to_list delegations).

Definition getAllDelegations (proposalId : string) : M (gmap string string) :=
  await delegations <- rd (hgetall (REDIS_KEYS.delegations proposalId)) in
  ret (normalizeDelegations (default ∅ delegations)).

Definition getAllParticipants (proposalId : string) : M (list string) :=
  rd (smembers (REDIS_KEYS.participants proposalId)).

Definition deleteProposalData (proposalId : string) : M nat :=
  wr (del (REDIS_KEYS.allForProposal proposalId)).

(** The [while (maxHops-- > 0)] loop of [detectCyclesDFS].  [n] is the
    value of [maxHops] when the loop test is evaluated; the test
    decrements it, so the body runs with [maxHops = n - 1], and a failed
    test leaves [maxHops = -1]. *)
Inductive walk_exit : Type :=
| CycleFound (cyclePath : list string)
| LoopLeft (maxHops : Z).

Fixpoint walk (simulatedDelegations : gmap string string) (delegator : string)
         (n : nat) (visited : gset string) (path : list string) (current : string)
  : walk_exit :=
  match n with
  | O => LoopLeft (-1)
  | S n' =>
      if decide (current ∈ visited) then LoopLeft (Z.of_nat n')
      else
        let visited := {[ current ]} ∪ visited in
        match Js.truthy (simulatedDelegations !! current) with
        | None => LoopLeft (Z.of_nat n')
        | Some nextWallet =>
            if decide (nextWallet = delegator) then CycleFound (path ++ [nextWallet])
            else walk simulatedDelegations delegator n' visited (path ++ [nextWallet]) nextWallet
        end
  end.

Definition MAX_HOPS : nat := 100.

Definition detectCyclesDFS (proposalId delegatorWallet targetWallet : string)
  : M cycle_check :=
  try_catch
    (let delegator := Js.toLowerCase delegatorWallet in
     let target := Js.toLowerCase targetWallet in
     if decide (delegator = target) then
       ret {| hasCycle := true; cyclePath := Some [delegator];
              reason := Some SelfDelegation |}
     else
       await allDelegations <- getAllDelegations proposalId in
       let simulatedDelegations := <[ delegator := target ]> allDelegations in
       match walk simulatedDelegations delegator MAX_HOPS ∅ [target] target with
       | CycleFound cyclePath =>
           ret {| hasCycle := true; cyclePath := Some cyclePath;
                  reason := Some (CircularDelegation cyclePath) |}
       | LoopLeft maxHops =>
           if decide (maxHops <= 0) then
             ret {| hasCycle := true; cyclePath := None; reason := Some ChainTooLong |}
           else
             ret {| hasCycle := false; cyclePath := None; reason := None |}
       end)
    (λ message,
       ret {| hasCycle := true; cyclePath := None;
              reason := Some (DetectionFailed message) |}).

(** [setProposalStatus(proposalId, status, ttl = null)]: [setex] when
    [ttl] is truthy, [set] otherwise. *)
Definition setProposalStatus (proposalId status : string) (ttl : option Z) : M string :=
  match ttl with
  | None | Some 0 => wr (set (REDIS_KEYS.status proposalId) status)
  | Some ttl => wr (setex (REDIS_KEYS.status proposalId) ttl status)
  end.


End RedisVotingOps.

(* ===================================================================== *)
(** * [utils/delegationEngine.js] *)
(* ===================================================================== *)

Inductive bulk_result : Type :=
| BulkSuccess (resolution : resolution)
| BulkFailure (err : string) (computationTimeMs : Z).

Module DelegationEngine.

Record delegation_graph : Type := DelegationGraph {
  delegations : gmap string string;
  incomingEdges : gmap string (list string);
  size : nat
}.

(** [buildDelegationGraph]: the lower-cased edges and, for each delegate,
    the list of its delegators ([incomingEdges[d]] is created on the first
    edge to [d]; the names are plain, so no inherited member is found
    there). *)
Definition buildDelegationGraph (delegationMap : gmap string string) : delegation_graph :=
  let '(graph, incomingEdges) :=
    foldl (λ '((graph, incomingEdges) : gmap string string * gmap string (list string))
               '(delegator, delegate),
             let normalizedDelegator := Js.toLowerCase delegator in
             let normalizedDelegate := Js.toLowerCase delegate in
             (<[ normalizedDelegator := normalizedDelegate ]> graph,
              <[ normalizedDelegate :=
                   (default [] (incomingEdges !! normalizedDelegate)
                      ++ [normalizedDelegator])%list ]>
                incomingEdges))
          (∅, ∅) (map_to_list delegationMap) in
  {| delegations := graph; incomingEdges := incomingEdges;
     size := List.length (map_to_list graph) |}.

Definition MAX_CHAIN_LENGTH : nat := 100.

(** The [while (steps < MAX_CHAIN_LENGTH)] loop of [resolveChainForUser];
    [n] is [MAX_CHAIN_LENGTH - steps].  It returns [current] and [path].
    [delegations[current]] is the edge of [current], a plain name. *)
Fixpoint follow (delegations : gmap string string) (n : nat)
         (visited : gset string) (path : list string) (current : string)
  : string * list string :=
  match n with
  | O => (current, path)
  | S n' =>
      match Js.truthy (delegations !! current) with
      | None => (current, path)
      | Some nextDelegate =>
          if decide (nextDelegate ∈ visited) then (current, path)
          else follow delegations n' ({[ nextDelegate ]} ∪ visited)
                      (path ++ [nextDelegate]) nextDelegate
      end
  end.

Definition resolveChainForUser (startWallet : string) (delegations : gmap string string)
  : chain_result :=
  let '(current, path) :=
    follow delegations MAX_CHAIN_LENGTH {[ startWallet ]} [startWallet] startWallet in
  {| finalDelegate := current; path := path; chain_length := List.length path |}.

Definition resolveAllChains (delegationGraph : delegation_graph) : resolved_chains :=
  let delegations := delegations delegationGraph in
  foldl (λ acc delegator,
           let chainResult := resolveChainForUser delegator delegations in
           {| rc_delegationResolution :=
                <[ delegator := finalDelegate chainResult ]> (rc_delegationResolution acc);
              rc_auditTrail :=
                <[ delegator := {| audit_path := path chainResult;
                                   audit_length := chain_length chainResult |} ]>
                  (rc_auditTrail acc);
              rc_longestChainLength :=
                Nat.max (rc_longestChainLength acc) (chain_length chainResult) |})
        {| rc_delegationResolution := ∅; rc_auditTrail := ∅; rc_longestChainLength := 1 |}
        (map_to_list delegations).*1.

(** [votingPowers[w] = (votingPowers[w] || 0) + 1], for a plain name [w]. *)
Definition credit (votingPowers : gmap string nat) (w : string) : gmap string nat :=
  <[ w := (default 0 (votingPowers !! w) + 1)%nat ]> votingPowers.

Definition calculateVotingPowers {V} (delegationResolution : gmap string string)
           (votesMap : gmap string V) : gmap string nat :=
  (* Step 1: each delegator contributes 1 to their final delegate *)
  let step1 := foldl (λ votingPowers '(delegator, finalDelegate),
                        credit votingPowers finalDelegate)
                     ∅ (map_to_list delegationResolution) in
  (* Step 2: each direct voter contributes 1 to themselves *)
  let step2 := foldl (λ votingPowers directVoter, credit votingPowers directVoter)
                     step1 (map_to_list votesMap).*1 in
  (* Step 3: remove any wallets with 0 power *)
  filter (λ '(wallet, power), power ≠ 0%nat) step2.

Definition saveResolutionAudit (resolution : resolution) : M unit :=
  db_wr (upsert_resolution_audit (res_proposalId resolution)
              {| ra_resolution_data := ResolutionData resolution;
                 ra_computation_time_ms := res_computationTimeMs (metadata resolution);
                 ra_total_participants := totalParticipants (metadata resolution);
                 ra_direct_voters := directVoters (metadata resolution);
                 ra_delegators := delegators (metadata resolution);
                 ra_longest_chain_length := longestChain (metadata resolution);
                 ra_status := completed;
                 ra_error_message := None |}).

Definition saveErrorAudit (proposalId errorMessage : string) (computationTime : Z) : M unit :=
  db_wr (upsert_resolution_audit proposalId
              {| ra_resolution_data := ResolutionError errorMessage proposalId;
                 ra_computation_time_ms := computationTime;
                 ra_total_participants := 0;
                 ra_direct_voters := 0;
                 ra_delegators := 0;
                 ra_longest_chain_length := 0;
                 ra_status := error;
                 ra_error_message := Some errorMessage |}).

Definition resolveBulkDelegations (e : env) (proposalId : string) : M bulk_result :=
  try_catch
    ((* Step 1: load all data from Redis *)
     await delegationMap <- RedisVotingOps.getAllDelegations proposalId in
     await votesMap <- RedisVotingOps.getAllVotes proposalId in
     await participants <- RedisVotingOps.getAllParticipants proposalId in
     (* Step 2: participants who are not delegators *)
     let directVoters :=
       filter (λ wallet, Js.truthy (delegationMap !! Js.toLowerCase wallet) = None)
              participants in
     (* Step 3: build the graph and resolve the chains *)
     let delegationGraph := buildDelegationGraph delegationMap in
     let resolvedChains := resolveAllChains delegationGraph in
     (* Step 4: voting powers *)
     let votingPowers :=
       calculateVotingPowers (rc_delegationResolution resolvedChains) votesMap in
     (* Step 5: the resolution object *)
     let resolution :=
       {| res_proposalId := proposalId;
          res_computedAt := isoNow e;
          delegationResolution := rc_delegationResolution resolvedChains;
          votingPowers := votingPowers;
          metadata :=
            {| totalParticipants := List.length participants;
               directVoters := List.length directVoters;
               delegators := List.length (map_to_list delegationMap);
               longestChain := rc_longestChainLength resolvedChains;
               res_computationTimeMs := elapsedMs e |};
          auditTrail := rc_auditTrail resolvedChains |} in
     (* Step 6: audit *)
     await_ saveResolutionAudit resolution in
     ret (BulkSuccess resolution))
    (λ message,
       await_ saveErrorAudit proposalId message (elapsedMs e) in
       ret (BulkFailure message (elapsedMs e))).

(** [getSavedResolution]: the [resolution_data] of the proposal's
    'completed' row, [null] without one or when the query throws. *)
Definition getSavedResolution (proposalId : string) : M (option resolution_data) :=
  try_catch
    (await data <- db_rd (λ db,
         match delegation_resolution_audit db !! proposalId with
         | Some row => if decide (ra_status row = completed) then Some row else None
         | None => None
         end) in
     match data with
     | None => ret None
     | Some row => ret (Some (ra_resolution_data row))
     end)
    (λ _, ret None).

End DelegationEngine.

(* ===================================================================== *)
(** * [utils/finalVoteEngine.js] *)
(* ===================================================================== *)

Inductive final_result : Type :=
| FinalSuccess (results : final_results)
| FinalFailure (err : string) (computationTimeMs : Z).

(** [proposalDb.getById]: throws when [.single()] finds no row. *)
Definition NO_ROWS : string := "JSON object requested, multiple (or no) rows returned".

Module proposalDb.
Definition getById (proposalId : string) : M proposal :=
  await row <- db_rd (λ db, proposals db !! proposalId) in
  match row with
  | Some proposal => ret proposal
  | None => throw NO_ROWS
  end.
End proposalDb.

Module FinalVoteEngine.

(** [loadVotingPowers]: the row of the proposal with status 'completed',
    then [resolution_data?.votingPowers]. *)
Definition loadVotingPowers (proposalId : string) : M (option (gmap string nat)) :=
  try_catch
    (await data <- db_rd (λ db,
         match delegation_resolution_audit db !! proposalId with
         | Some row => if decide (ra_status row = completed) then Some row else None
         | None => None
         end) in
     match data with
     | None => ret None
     | Some row =>
         match ra_resolution_data row with
         | ResolutionData r => ret (Some (votingPowers r))
         | ResolutionError _ _ => ret None
         end
     end)
    (λ e, throw e).

(** State of the vote loop of [calculateWeightedResults]. *)
Record tally_state : Type := TallyState {
  ts_optionTallies : gmap jsnum nat;
  ts_voterBreakdown : gmap string voter_entry;
  ts_totalVotesCast : nat;
  ts_totalUniqueVoters : nat
}.

Definition initTallies (proposalOptions : option (list proposal_option)) : gmap jsnum nat :=
  match proposalOptions with
  | Some (o :: os) =>
      foldl (λ optionTallies option, <[ Num (option_number option) := 0%nat ]> optionTallies)
            ∅ (o :: os)
  | _ => ∅
  end.

(** [votingPowers[normalizedWallet] || 1], for a wallet with a plain
    name: the entry of the wallet, 1 when it is absent or zero. *)
Definition powerOf (votingPowers : gmap string nat) (normalizedWallet : string) : nat :=
  match votingPowers !! normalizedWallet with
  | Some (S p) => S p
  | _ => 1%nat
  end.

Definition countVote (votingPowers : gmap string nat) (s : tally_state)
           (entry : string * jsnum) : tally_state :=
  let '(voterWallet, votedOption) := entry in
  let normalizedWallet := Js.toLowerCase voterWallet in
  let votingPower := powerOf votingPowers normalizedWallet in
  {| ts_optionTallies :=
       <[ votedOption := (default 0 (ts_optionTallies s !! votedOption) + votingPower)%nat ]>
         (ts_optionTallies s);
     ts_voterBreakdown :=
       <[ normalizedWallet := {| ve_votingPower := votingPower;
                                 ve_votedOption := votedOption |} ]> (ts_voterBreakdown s);
     ts_totalVotesCast := (ts_totalVotesCast s + votingPower)%nat;
     ts_totalUniqueVoters := S (ts_totalUniqueVoters s) |}.

(** The tallies object is keyed by the property names the option numbers
    convert to, [String(votedOption)]; different numbers have different
    names, so the map is keyed by the numbers.  [Object.entries] hands the
    names, which the winner loop reads with [parseInt]. *)
Definition keyOf (option : jsnum) : string :=
  match option with
  | Num z => Js.toString z
  | NaN => "NaN"
  end.

(** The "highest vote count" loop: [(winningOption, maxVotes)]. *)
Definition leader (acc : option jsnum * nat) (entry : jsnum * nat) : option jsnum * nat :=
  let '(option, votes) := entry in
  if (acc.2 <? votes)%nat then (Some (jsnum_of (Js.parseInt (keyOf option))), votes) else acc.

Definition pickWinner (optionTallies : gmap jsnum nat) : option jsnum :=
  let entries := map_to_list optionTallies in
  let '(winningOption, maxVotes) := foldl leader (None, 0%nat) entries in
  let maxVoteOptions :=
    (filter (λ '(_, votes), votes = maxVotes ∧ (0 < votes)%nat) entries).*1 in
  if decide (1 < List.length maxVoteOptions)%nat then None
  else if decide (maxVotes = 0%nat) then None
  else winningOption.

(** "Calculate total voting power (sum of all participants)" *)
Definition sumPowers (votingPowers : gmap string nat) : nat :=
  foldl (λ total '(wallet, power), (total + power)%nat) 0%nat (map_to_list votingPowers).

Definition calculateWeightedResults (votingPowers : gmap string nat)
           (votes : gmap string jsnum) (proposalOptions : option (list proposal_option))
  : weighted_results :=
  let totalVotingPower := sumPowers votingPowers in
  let s := foldl (countVote votingPowers)
                 {| ts_optionTallies := initTallies proposalOptions;
                    ts_voterBreakdown := ∅;
                    ts_totalVotesCast := 0;
                    ts_totalUniqueVoters := 0 |}
                 (map_to_list votes) in
  {| optionTallies := ts_optionTallies s;
     voterBreakdown := ts_voterBreakdown s;
     totalVotingPower := totalVotingPower;
     totalVotesCast := ts_totalVotesCast s;
     totalUniqueVoters := ts_totalUniqueVoters s;
     winningOption := pickWinner (ts_optionTallies s) |}.

Definition saveResultsAudit (results : final_results) : M unit :=
  db_wr (upsert_final_audit (fr_proposalId results)
              {| fa_vote_results := VoteResults results;
                 fa_computation_time_ms := fm_computationTimeMs (fr_metadata results);
                 fa_total_voting_power := fm_totalVotingPower (fr_metadata results);
                 fa_total_votes_cast := fm_totalVotesCast (fr_metadata results);
                 fa_winning_option := fm_winningOption (fr_metadata results);
                 fa_status := completed;
                 fa_error_message := None |}).

Definition saveErrorAudit (proposalId errorMessage : string) (computationTime : Z) : M unit :=
  db_wr (upsert_final_audit proposalId
              {| fa_vote_results := VoteError errorMessage proposalId;
                 fa_computation_time_ms := computationTime;
                 fa_total_voting_power := 0;
                 fa_total_votes_cast := 0;
                 fa_winning_option := None;
                 fa_status := error;
                 fa_error_message := Some errorMessage |}).

Definition NO_RESOLUTION : string :=
  "No delegation resolution found - cannot proceed with vote counting".

Definition calculateFinalResults (e : env) (proposalId : string) : M final_result :=
  try_catch
    ((* Step 1: voting powers from the resolution audit *)
     await votingPowers <- loadVotingPowers proposalId in
     match votingPowers with
     | None => throw NO_RESOLUTION
     | Some votingPowers =>
         (* Step 2: votes from Redis *)
         await votes <- RedisVotingOps.getAllVotes proposalId in
         (* Step 3: the proposal and its options *)
         await proposal <- proposalDb.getById proposalId in
         (* Step 4: weighted results *)
         let results := calculateWeightedResults votingPowers votes (Some (options proposal)) in
         (* Step 5: the complete result object *)
         let finalResults :=
           {| fr_proposalId := proposalId;
              fr_computedAt := isoNow e;
              optionResults := optionTallies results;
              fr_metadata :=
                {| fm_totalVotingPower := totalVotingPower results;
                   fm_totalVotesCast := totalVotesCast results;
                   fm_totalUniqueVoters := totalUniqueVoters results;
                   fm_winningOption := winningOption results;
                   fm_computationTimeMs := elapsedMs e |};
              fr_voterBreakdown := voterBreakdown results;
              proposalInfo :=
                {| pi_title := title proposal;
                   pi_totalOptions := List.length (options proposal);
                   pi_votingDeadline := voting_deadline proposal |} |} in
         (* Step 6: audit *)
         await_ saveResultsAudit finalResults in
         ret (FinalSuccess finalResults)
     end)
    (λ message,
       await_ saveErrorAudit proposalId message (elapsedMs e) in
       ret (FinalFailure message (elapsedMs e))).

(** [getSavedResults]: the [vote_results] of the proposal's 'completed'
    row, [null] without one or when the query throws. *)
Definition getSavedResults (proposalId : string) : M (option vote_results) :=
  try_catch
    (await data <- db_rd (λ db,
         match final_vote_results_audit db !! proposalId with
         | Some row => if decide (fa_status row = completed) then Some row else None
         | None => None
         end) in
     match data with
     | None => ret None
     | Some row => ret (Some (fa_vote_results row))
     end)
    (λ _, ret None).

End FinalVoteEngine.

(* ===================================================================== *)
(** * [utils/redisBackup.js] *)
(* ===================================================================== *)

Inductive snapshot_result : Type :=
| SnapshotCreated (snapshot_id : string) (data : json)
| SnapshotFailed (err : string).

Inductive restore_result : Type :=
| Restored (snapshot_id snapshot_type : string) (restored_data : option json)
| RestoreFailed (err : string).

Module RedisBackupManager.

(** A hash, a member list and a nullable string as JSON values. *)
Definition json_of_hash (h : gmap string string) : json :=
  JObj ((λ '(k, v), (k, JStr v)) <$> map_to_list h).
Definition json_of_members (l : list string) : json := JArr (JStr <$> l).
Definition json_of_nullable (o : option string) : json :=
  match o with Some s => JStr s | None => JNull end.

Definition snapshotDataOf (timestamp : string) (votesData delegationsData : gmap string string)
           (participantsData : list string) (status deadline : option string) : json :=
  JObj [ ("timestamp", JStr timestamp);
         ("votes", json_of_hash votesData);
         ("delegations", json_of_hash delegationsData);
         ("participants", json_of_members participantsData);
         ("status", json_of_nullable status);
         ("deadline", json_of_nullable deadline);
         ("vote_count", JNum (Z.of_nat (List.length (map_to_list votesData))));
         ("delegation_count", JNum (Z.of_nat (List.length (map_to_list delegationsData))));
         ("participant_count", JNum (Z.of_nat (List.length participantsData))) ].

(** [createSnapshot(proposalId, snapshotType = 'hourly')] *)
Definition createSnapshot (e : env) (proposalId snapshotType : string) : M snapshot_result :=
  try_catch
    ((* gather all voting data from Redis *)
     await votes <- rd (hgetall (REDIS_KEYS.votes proposalId)) in
     await delegations <- rd (hgetall (REDIS_KEYS.delegations proposalId)) in
     await participants <- rd (smembers (REDIS_KEYS.participants proposalId)) in
     await status <- rd (get (REDIS_KEYS.status proposalId)) in
     await deadline <- rd (get (REDIS_KEYS.deadline proposalId)) in
     let votesData := default ∅ votes in
     let delegationsData := default ∅ delegations in
     let participantsData := participants in
     let snapshotData :=
       snapshotDataOf (isoNow e) votesData delegationsData participantsData status deadline in
     (* store the snapshot row; the database assigns its id and time *)
     await_ db_wr (insert_snapshot
                     {| snapshot_id := new_snapshot_id e;
                        sn_proposal_id := proposalId;
                        redis_data := snapshotData;
                        snapshot_type := snapshotType;
                        snapshot_at := new_snapshot_at e |}) in
     ret (SnapshotCreated (new_snapshot_id e) snapshotData))
    (λ message, ret (SnapshotFailed message)).

(** [.order('snapshot_at', { ascending: false }).limit(1)] *)
Definition latest (rows : list snapshot_row) : option snapshot_row :=
  foldl (λ best row,
           match best with
           | None => Some row
           | Some b => if snapshot_at b <? snapshot_at row then Some row else Some b
           end) None rows.

(** The query of [restoreFromSnapshot] followed by [.single()]: the one
    row it yields, or [None] for the client's error. *)
Definition selectSnapshot (proposalId : string) (snapshotId : option string)
           (db : database) : option snapshot_row :=
  let rows := filter (λ row, sn_proposal_id row = proposalId) (redis_snapshots db) in
  match Js.truthy snapshotId with
  | Some id =>
      match filter (λ row, snapshot_id row = id) rows with
      | [row] => Some row
      | _ => None
      end
  | None => latest rows
  end.

(** ** The pipeline: queued commands, run in order by [exec], which
    throws after the batch when a command failed. *)
Definition command : Type := store → option string * store.

Definition cmd {A} (c : store → result A * store) : command :=
  λ st, match c st with
        | (Ok _, st') => (None, st')
        | (Throw msg, st') => (Some msg, st')
        end.

Definition exec (pipeline : list command) : M unit :=
  λ w,
    let '(failure, st) :=
      foldl (λ '(failure, st) (c : command),
               let '(f, st') := c st in
               (match failure with Some m => Some m | None => f end, st'))
            (None, redis w) pipeline in
    (match failure with Some m => Throw m | None => Ok tt end, World st (supabase w)).

(** Arguments the client sends for a JSON value. *)
Definition redis_arg (j : json) : option string :=
  match j with
  | JStr s => Some s
  | JNum n => Some (pretty n)
  | _ => None
  end.

Fixpoint redis_fields (fields : list (string * json)) : option (gmap string string) :=
  match fields with
  | [] => Some ∅
  | (k, v) :: r =>
      match redis_arg v, redis_fields r with
      | Some a, Some m => Some (<[ k := a ]> m)
      | _, _ => None
      end
  end.

Fixpoint redis_members (items : list json) : option (list string) :=
  match items with
  | [] => Some []
  | j :: r =>
      match redis_arg j, redis_members r with
      | Some a, Some l => Some (a :: l)
      | _, _ => None
      end
  end.

Definition BAD_SHAPE : string := "TypeError: snapshot payload has an unexpected shape".

(** The queued [hset] of a restored hash: skipped when the property is
    falsy or has no keys. *)
Definition restoreHash (key : string) (value : option json) : result (list command) :=
  match value with
  | None | Some JNull | Some (JNum 0) | Some (JStr EmptyString) => Ok []
  | Some (JObj []) => Ok []
  | Some (JObj fields) =>
      match redis_fields fields with
      | Some m => Ok [cmd (hset key m)]
      | None => Throw BAD_SHAPE
      end
  | Some _ => Throw BAD_SHAPE
  end.

Definition restoreSet (key : string) (value : option json) : result (list command) :=
  match value with
  | None | Some JNull | Some (JNum 0) | Some (JStr EmptyString) => Ok []
  | Some (JArr []) => Ok []
  | Some (JArr items) =>
      match redis_members items with
      | Some l => Ok [cmd (sadd key l)]
      | None => Throw BAD_SHAPE
      end
  | Some _ => Throw BAD_SHAPE
  end.

Definition restoreString (key : string) (value : option json) : result (list command) :=
  match value with
  | None | Some JNull | Some (JNum 0) | Some (JStr EmptyString) => Ok []
  | Some j =>
      match redis_arg j with
      | Some s => Ok [cmd (set key s)]
      | None => Throw BAD_SHAPE
      end
  end.

Definition queue (parts : list (result (list command))) : M (list command) :=
  foldr (λ part rest,
           match part with
           | Ok cs => await tail <- rest in ret (cs ++ tail)%list
           | Throw msg => throw msg
           end) (ret []) parts.

(** [restoreFromSnapshot(proposalId, snapshotId = null)] *)
Definition restoreFromSnapshot (proposalId : string) (snapshotId : option string)
  : M restore_result :=
  try_catch
    (await snapshot <- db_rd (selectSnapshot proposalId snapshotId) in
     match snapshot with
     | None => throw ("No snapshot found for proposal " +:+ proposalId)
     | Some snapshot =>
         let snapshotData := redis_data snapshot in
         match snapshotData with
         | JNull => throw "TypeError: Cannot read properties of null (reading 'data')"
         | _ =>
             let data := jget "data" snapshotData in
             if negb (jtruthy data) then throw "Invalid snapshot data structure"
             else
               let prop name := data ≫= jget name in
               (* clear existing data first, then restore each key *)
               await pipeline <-
                 queue [ Ok ((λ key, cmd (del [key])) <$> REDIS_KEYS.allForProposal proposalId);
                         restoreHash (REDIS_KEYS.votes proposalId) (prop "votes");
                         restoreHash (REDIS_KEYS.delegations proposalId) (prop "delegations");
                         restoreSet (REDIS_KEYS.participants proposalId) (prop "participants");
                         restoreString (REDIS_KEYS.status proposalId) (prop "status");
                         restoreString (REDIS_KEYS.deadline proposalId) (prop "deadline") ] in
               await_ exec pipeline in
               ret (Restored (snapshot_id snapshot) (snapshot_type snapshot) (prop "metadata"))
         end
     end)
    (λ message, ret (RestoreFailed message)).

(** ** Batch snapshots *)

(** One entry of the list [createBatchSnapshots] returns:
    [{ proposalId, ...result }]. *)
Record batch_entry : Type := BatchEntry {
  be_proposalId : string;
  be_result : snapshot_result
}.

(** [createBatchSnapshots(proposalIds, snapshotType = 'hourly')]; [e i] holds
    the clock reading and the row identifiers of the [i]-th call. *)
Fixpoint createBatchSnapshots (e : nat → env) (proposalIds : list string)
         (snapshotType : string) : M (list batch_entry) :=
  match proposalIds with
  | [] => ret []
  | proposalId :: rest =>
      await result <- try_catch (createSnapshot (e O) proposalId snapshotType)
                                (λ message, ret (SnapshotFailed message)) in
      await results <- createBatchSnapshots (λ i, e (S i)) rest snapshotType in
      ret (BatchEntry proposalId result :: results)
  end.

Definition succeeded (entry : batch_entry) : bool :=
  match be_result entry with
  | SnapshotCreated _ _ => true
  | SnapshotFailed _ => false
  end.

(** What [createHourlySnapshots] answers. *)
Inductive hourly_result : Type :=
| HourlyNothing                                   (* [{ success: true, processed: 0 }] *)
| HourlyDone (processed successes failures : nat) (results : list batch_entry)
| HourlyFailed (err : string).

(** The loop that keeps the proposals with a participant. *)
Fixpoint proposalsWithData (activeProposals : list string) : M (list string) :=
  match activeProposals with
  | [] => ret []
  | proposal_id :: rest =>
      await participantCount <- rd (scard (REDIS_KEYS.participants proposal_id)) in
      await others <- proposalsWithData rest in
      ret (if (0 <? participantCount)%nat then proposal_id :: others else others)
  end.

(** [createHourlySnapshots()]; [after deadline now] is the database's
    answer to [voting_deadline > now] on its timestamps. *)
Definition createHourlySnapshots (after : string → string → bool) (now : string)
           (e : nat → env) : M hourly_result :=
  try_catch
    (await activeProposals <-
       db_rd (λ db, (filter (λ row : string * proposal, after (voting_deadline row.2) now = true)
                            (map_to_list (proposals db))).*1) in
     match activeProposals with
     | [] => ret HourlyNothing
     | _ =>
         await proposalsWithData <- proposalsWithData activeProposals in
         match proposalsWithData with
         | [] => ret HourlyNothing
         | _ =>
             await results <- createBatchSnapshots e proposalsWithData "hourly" in
             let successCount := List.length (filter (λ r, succeeded r = true) results) in
             let failureCount := List.length (filter (λ r, succeeded r = false) results) in
             ret (HourlyDone (List.length results) successCount failureCount results)
         end
     end)
    (λ message, ret (HourlyFailed message)).

(** ** Data integrity verification *)

Record verification : Type := Verification {
  valid : bool;
  issues : list string;
  stats : option (nat * nat)        (* [{ vote_count, delegation_count }] or [null] *)
}.

(** What [Object.keys(null)], [Object.entries(null)] and a property read on
    [null] throw. *)
Definition NULL_TO_OBJECT : string := "Cannot convert undefined or null to object".
Definition NULL_READ (property : string) : string :=
  "Cannot read properties of null (reading '" +:+ property +:+ "')".

(** Users with both vote and delegation. *)
Definition bothIssues (votes delegations : gmap string string) : list string :=
  (λ wallet, "User " +:+ wallet +:+ " has both vote and delegation")
    <$> filter (λ wallet, Js.truthy (delegations !! wallet) ≠ None) (map_to_list votes).*1.

(** Self-delegations. *)
Definition selfIssues (delegations : gmap string string) : list string :=
  (λ entry : string * string, "User " +:+ entry.1 +:+ " delegates to themselves")
    <$> filter (λ entry : string * string, entry.1 = entry.2) (map_to_list delegations).

(** [verifyProposalData(proposalId)].  Each [hgetall] is a promise, so the
    [|| {}] next to it never applies and a missing hash arrives as [null]. *)
Definition verifyProposalData (proposalId : string) : M verification :=
  try_catch
    (await votes <- rd (hgetall (REDIS_KEYS.votes proposalId)) in
     await delegations <- rd (hgetall (REDIS_KEYS.delegations proposalId)) in
     match votes, delegations with
     | None, _ => throw NULL_TO_OBJECT                 (* [Object.keys(votes)] *)
     | Some votes, None =>
         match (map_to_list votes).*1 with
         | wallet :: _ => throw (NULL_READ wallet)      (* [delegations[wallet]] *)
         | [] => throw NULL_TO_OBJECT                   (* [Object.entries(delegations)] *)
         end
     | Some votes, Some delegations =>
         let issues := (bothIssues votes delegations ++ selfIssues delegations)%list in
         ret {| valid := bool_decide (issues = []);
                issues := issues;
                stats := Some (size votes, size delegations) |}
     end)
    (λ message,
       ret {| valid := false;
              issues := ["Verification failed: " +:+ message];
              stats := None |}).

End RedisBackupManager.

(* ===================================================================== *)
(** * [utils/proposalScheduler.js] *)
(* ===================================================================== *)

Module ProposalScheduler.

(** [processProposal(proposalId, redis)]: delegation resolution, then the
    final count when the resolution succeeded.  [e1] and [e2] hold the clock
    readings of the two engine calls. *)
Definition processProposal (e1 e2 : env) (proposalId : string) : M unit :=
  try_catch
    (await delegationResult <- DelegationEngine.resolveBulkDelegations e1 proposalId in
     match delegationResult with
     | BulkSuccess _ =>
         await voteResult <- FinalVoteEngine.calculateFinalResults e2 proposalId in
         ret tt
     | BulkFailure _ _ => ret tt
     end)
    (λ _, ret tt).

(** [.from(table).select('proposal_id').eq('status', 'completed')] *)
Definition completedIds {R} (status : R → audit_status) (table : gmap string R) : list string :=
  (filter (λ row : string * R, status row.2 = completed) (map_to_list table)).*1.

(** Proposals with both the resolution and the count completed. *)
Definition fullyCompletedIds (db : database) : list string :=
  let completedDelegationIds := completedIds ra_status (delegation_resolution_audit db) in
  let completedVoteIds := completedIds fa_status (final_vote_results_audit db) in
  filter (λ id, id ∈ completedVoteIds) completedDelegationIds.

(** The query of [checkExpiredProposals]; [before deadline now] is the
    database's answer to [voting_deadline < now] on its timestamps. *)
Definition expiredProposals (before : string → string → bool) (now : string)
           (db : database) : list string :=
  let fullyCompletedIds := fullyCompletedIds db in
  let expired := filter (λ row : string * proposal, before (voting_deadline row.2) now = true)
                        (map_to_list (proposals db)) in
  (match fullyCompletedIds with
   | [] => expired
   | _ => filter (λ row : string * proposal, row.1 ∉ fullyCompletedIds) expired
   end).*1.

(** The loop over the expired proposals. *)
Fixpoint processAll (e1 e2 : string → env) (expiredProposals : list string) : M unit :=
  match expiredProposals with
  | [] => ret tt
  | proposal_id :: rest =>
      await_ processProposal (e1 proposal_id) (e2 proposal_id) proposal_id in
      processAll e1 e2 rest
  end.

(** [checkExpiredProposals(redis)] *)
Definition checkExpiredProposals (before : string → string → bool) (now : string)
           (e1 e2 : string → env) : M unit :=
  try_catch
    (await expiredProposals <- db_rd (expiredProposals before now) in
     match expiredProposals with
     | [] => ret tt
     | _ => processAll e1 e2 expiredProposals
     end)
    (λ _, ret tt).

End ProposalScheduler.

(* ===================================================================== *)
(** * [routes/votingRoutes.js]: [POST /api/proposals/:id/delegate] *)
(* ===================================================================== *)

(** What [validateProposalAccess] answers. *)
Inductive access : Type :=
| AccessValid (organization_id : string)
| AccessDenied (status : nat) (err : string).

(** The request and what the collaborators outside the core (proposal and
    user lookups in the relational store, the clock) answer for it. *)
Record delegate_request : Type := DelegateRequest {
  req_proposalId : string;          (* [req.params.id] *)
  req_target_user : option string;  (* [req.body.target_user] *)
  req_walletAddress : string;       (* [req.walletAddress] *)
  req_access : access;              (* [validateProposalAccess(...)] *)
  req_targetWallet : option string; (* [targetUser.wallet_address], if found *)
  req_stamp : string                (* [Date.now().toString()] *)
}.

Inductive response : Type :=
| Rejected (status : nat) (err : string)
| DelegationSet (previous_action : string).

Module VotingRoutes.

Definition is_hex (c : ascii) : bool :=
  match Js.digit_of 16 c with Some _ => true | None => false end.

Definition one_of (cs : string) (c : ascii) : bool :=
  bool_decide (Js.lower_ascii c ∈ list_ascii_of_string cs).

(** [/^[0-9a-f]{8}-[0-9a-f]{4}-[1-5][0-9a-f]{3}-[89ab][0-9a-f]{3}-[0-9a-f]{12}$/i] *)
Definition uuidPattern : list (ascii → bool) :=
  (replicate 8 is_hex ++ [one_of "-"] ++ replicate 4 is_hex ++ [one_of "-"] ++
   [one_of "12345"] ++ replicate 3 is_hex ++ [one_of "-"] ++
   [one_of "89ab"] ++ replicate 3 is_hex ++ [one_of "-"] ++ replicate 12 is_hex)%list.

Fixpoint matches (pattern : list (ascii → bool)) (s : string) : bool :=
  match pattern, s with
  | [], EmptyString => true
  | p :: ps, String c r => p c && matches ps r
  | _, _ => false
  end.

(** [!target_user || typeof target_user !== 'string' || !target_user.trim()] *)
Definition blank (target_user : option string) : bool :=
  match target_user with
  | Some s => bool_decide (Js.skip_ws s = EmptyString)
  | None => true
  end.

Definition createAuditEntry (proposalId userWallet organizationId actionType : string)
           (target targetWallet : option string) : M unit :=
  db_wr (insert_vote_audit
           {| va_proposal_id := proposalId;
              va_user_wallet := Js.toLowerCase userWallet;
              va_organization_id := organizationId;
              va_action_type := actionType;
              va_target := target;
              va_target_wallet := Js.toLowerCase <$> targetWallet |}).

Definition checkRateLimit (userWallet proposalId : string) : M bool :=
  RedisVotingOps.checkCooldown userWallet proposalId.

Definition delegate (req : delegate_request) : M response :=
  try_catch
    (let proposalId := req_proposalId req in
     let userWallet := req_walletAddress req in
     if negb (matches uuidPattern proposalId) then
       ret (Rejected 400 "Invalid proposal ID format")
     else if blank (req_target_user req) then
       ret (Rejected 400 "Target user unique_id is required")
     else
       await rateLimited <- checkRateLimit userWallet proposalId in
       if rateLimited : bool then
         ret (Rejected 429 "Rate limit exceeded - please wait before making another action")
       else
         match req_access req with
         | AccessDenied status err => ret (Rejected status err)
         | AccessValid organization_id =>
             match req_targetWallet req with
             | None => ret (Rejected 404 "Target user not found in your organization")
             | Some targetWallet =>
                 (* check for delegation cycles *)
                 await cycleCheck <-
                   RedisVotingOps.detectCyclesDFS proposalId userWallet targetWallet in
                 if hasCycle cycleCheck then
                   ret (Rejected 400 ("Delegation not allowed: " +:+
                                      from_option reason_text "undefined" (reason cycleCheck)))
                 else
                   await currentStatus <- RedisVotingOps.getUserStatus proposalId userWallet in
                   await_ RedisVotingOps.setDelegation proposalId userWallet targetWallet in
                   await_ RedisVotingOps.setCooldown userWallet proposalId (req_stamp req) in
                   await_ createAuditEntry proposalId userWallet organization_id "delegate"
                            (Js.toLowerCase <$> req_target_user req) (Some targetWallet) in
                   await_ (if has_voted currentStatus
                           then createAuditEntry proposalId userWallet organization_id
                                                 "remove_vote" None None
                           else ret tt) in
                   ret (DelegationSet
                          (if has_voted currentStatus then "vote_removed"
                           else if has_delegated currentStatus then "delegation_updated"
                           else "none"))
             end
         end)
    (λ _, ret (Rejected 500 "Failed to set delegation")).

(** ** [validateProposalAccess] and the vote and removal handlers *)

(** What [validateProposalAccess] returns in full: the proposal comes with
    a valid answer. *)
Inductive validation : Type :=
| Valid (proposal : proposal) (organization_id : string)
| Invalid (status : nat) (err : string).

(** What the relational store and the clock answer about the caller, in
    the columns kept outside [database]. *)
Record membership : Type := Membership {
  user_organization : option (option string);
      (* [userDb.getByWallet(userWallet)]: no row ([.single()] fails and the
         call throws), or the row's [organization_id] *)
  proposal_organization : string;    (* [proposal.organization_id] *)
  ended : bool                       (* [now >= deadline] *)
}.

Definition validateProposalAccess (proposalId : string) (m : membership) : M validation :=
  try_catch
    (await proposal <- proposalDb.getById proposalId in
     match user_organization m with
     | None => throw NO_ROWS
     | Some organization_id =>
         match Js.truthy organization_id with
         | None => ret (Invalid 403 "User not found or not in organization")
         | Some organization_id =>
             if negb (bool_decide (organization_id = proposal_organization m)) then
               ret (Invalid 403 "Access denied - different organization")
             else if ended m then
               ret (Invalid 410 "Voting period has ended")
             else
               ret (Valid proposal organization_id)
         end
     end)
    (λ _, ret (Invalid 500 "Validation failed")).

Record vote_request : Type := VoteRequest {
  vreq_proposalId : string;          (* [req.params.id] *)
  vreq_option_number : option Z;     (* [req.body.option_number], if [Number.isInteger] *)
  vreq_walletAddress : string;       (* [req.walletAddress] *)
  vreq_membership : membership;
  vreq_stamp : string                (* [Date.now().toString()] *)
}.

Record removal_request : Type := RemovalRequest {
  rreq_proposalId : string;
  rreq_walletAddress : string;
  rreq_membership : membership;
  rreq_stamp : string
}.

Inductive vote_response : Type :=
| Refused (status : nat) (err : string)
| VoteCast (option_number : Z) (previous_action : string)
| VoteRemoved (option_number : Z)
| DelegationRemoved.

Definition RATE_LIMITED : string :=
  "Rate limit exceeded - please wait before making another action".

(** [POST /api/proposals/:id/vote] *)
Definition vote (req : vote_request) : M vote_response :=
  try_catch
    (let proposalId := vreq_proposalId req in
     let userWallet := vreq_walletAddress req in
     if negb (matches uuidPattern proposalId) then
       ret (Refused 400 "Invalid proposal ID format")
     else
       match vreq_option_number req with
       | None => ret (Refused 400 "Invalid option number")
       | Some optionNumber =>
           if optionNumber <? 1 then ret (Refused 400 "Invalid option number")
           else
             await rateLimited <- checkRateLimit userWallet proposalId in
             if rateLimited : bool then ret (Refused 429 RATE_LIMITED)
             else
               await validation <- validateProposalAccess proposalId (vreq_membership req) in
               match validation with
               | Invalid status err => ret (Refused status err)
               | Valid proposal organization_id =>
                   let optionExists :=
                     existsb (λ opt, option_number opt =? optionNumber) (options proposal) in
                   if negb optionExists then
                     ret (Refused 400 ("Option " +:+ Js.toString optionNumber +:+
                                       " does not exist"))
                   else
                     await currentStatus <-
                       RedisVotingOps.getUserStatus proposalId userWallet in
                     await_ RedisVotingOps.castVote proposalId userWallet optionNumber in
                     await_ RedisVotingOps.setCooldown userWallet proposalId (vreq_stamp req) in
                     await_ createAuditEntry proposalId userWallet organization_id "vote"
                              (Some (Js.toString optionNumber)) None in
                     await_ (if has_delegated currentStatus
                             then createAuditEntry proposalId userWallet organization_id
                                                   "remove_delegation" None None
                             else ret tt) in
                     ret (VoteCast optionNumber
                            (if has_delegated currentStatus then "delegation_removed"
                             else if has_voted currentStatus then "vote_updated"
                             else "none"))
               end
       end)
    (λ _, ret (Refused 500 "Failed to cast vote")).

(** [DELETE /api/proposals/:id/vote] *)
Definition deleteVote (req : removal_request) : M vote_response :=
  try_catch
    (let proposalId := rreq_proposalId req in
     let userWallet := rreq_walletAddress req in
     if negb (matches uuidPattern proposalId) then
       ret (Refused 400 "Invalid proposal ID format")
     else
       await rateLimited <- checkRateLimit userWallet proposalId in
       if rateLimited : bool then ret (Refused 429 RATE_LIMITED)
       else
         await validation <- validateProposalAccess proposalId (rreq_membership req) in
         match validation with
         | Invalid status err => ret (Refused status err)
         | Valid _ organization_id =>
             await currentVote <- RedisVotingOps.getUserVote proposalId userWallet in
             match currentVote with
             | None => ret (Refused 404 "No vote found to remove")
             | Some currentVote =>
                 await_ RedisVotingOps.removeVote proposalId userWallet in
                 await_ RedisVotingOps.setCooldown userWallet proposalId (rreq_stamp req) in
                 await_ createAuditEntry proposalId userWallet organization_id
                          "remove_vote" None None in
                 ret (VoteRemoved currentVote)
             end
         end)
    (λ _, ret (Refused 500 "Failed to remove vote")).

(** [DELETE /api/proposals/:id/delegate] *)
Definition deleteDelegate (req : removal_request) : M vote_response :=
  try_catch
    (let proposalId := rreq_proposalId req in
     let userWallet := rreq_walletAddress req in
     if negb (matches uuidPattern proposalId) then
       ret (Refused 400 "Invalid proposal ID format")
     else
       await rateLimited <- checkRateLimit userWallet proposalId in
       if rateLimited : bool then ret (Refused 429 RATE_LIMITED)
       else
         await validation <- validateProposalAccess proposalId (rreq_membership req) in
         match validation with
         | Invalid status err => ret (Refused status err)
         | Valid _ organization_id =>
             await currentDelegation <-
               RedisVotingOps.getUserDelegation proposalId userWallet in
             match currentDelegation with
             | None => ret (Refused 404 "No delegation found to remove")
             | Some _ =>
                 await_ RedisVotingOps.removeDelegation proposalId userWallet in
                 await_ RedisVotingOps.setCooldown userWallet proposalId (rreq_stamp req) in
                 await_ createAuditEntry proposalId userWallet organization_id
                          "remove_delegation" None None in
                 ret DelegationRemoved
             end
         end)
    (λ _, ret (Refused 500 "Failed to remove delegation")).

End VotingRoutes.

(* ===================================================================== *)
(** * [routes/proposalRoutes.js]: validation of a new proposal *)
(* ===================================================================== *)

Module ProposalRoutes.

(** The request body as the checks look at it.  Lengths are those of
    ASCII text, one character a code unit. *)
Record proposal_data : Type := ProposalData {
  pd_title : option string;                 (* [None]: absent or not a string *)
  pd_description : option string;
  pd_voting_deadline : option (option Z);
      (* [None]: falsy; [Some None]: an invalid date; [Some (Some t)]:
         [new Date(voting_deadline).getTime()] *)
  pd_options : option (list (option string))
      (* [None]: absent or not an array; an entry [None]: not a string *)
}.

(** [option && typeof option === 'string' && option.trim().length >= 3] *)
Definition validOption (entry : option string) : option string :=
  match Js.truthy entry with
  | Some s => if (3 <=? String.length (Js.trim s))%nat then Some s else None
  | None => None
  end.

(** The per-option length check of the [forEach]. *)
Definition optionLengthErrors (index : nat) (entry : option string) : list string :=
  match Js.truthy entry with
  | Some s =>
      let trimmed := Js.trim s in
      if ((0 <? String.length trimmed) && (String.length trimmed <? 3))%nat then
        ["Option " +:+ pretty (index + 1)%nat +:+ " must be at least 3 characters"]
      else if (200 <? String.length trimmed)%nat then
        ["Option " +:+ pretty (index + 1)%nat +:+ " must be less than 200 characters"]
      else []
  | None => []
  end.

(** [validateProposalData(data)]; [now] is [new Date().getTime()]. *)
Definition validateProposalData (now : Z) (data : proposal_data) : list string :=
  (* Title validation *)
  let title :=
    match Js.truthy (pd_title data) with
    | None => ["Title is required"]
    | Some title =>
        let trimmedTitle := Js.trim title in
        if (String.length trimmedTitle <? 10)%nat then
          ["Title must be at least 10 characters"]
        else if (100 <? String.length trimmedTitle)%nat then
          ["Title must be less than 100 characters"]
        else []
    end in
  (* Description validation *)
  let description :=
    match Js.truthy (pd_description data) with
    | None => ["Description is required"]
    | Some description =>
        let trimmedDescription := Js.trim description in
        if (String.length trimmedDescription <? 50)%nat then
          ["Description must be at least 50 characters"]
        else if (1000 <? String.length trimmedDescription)%nat then
          ["Description must be less than 1000 characters"]
        else []
    end in
  (* Voting deadline validation *)
  let voting_deadline :=
    match pd_voting_deadline data with
    | None => ["Voting deadline is required"]
    | Some None => ["Invalid voting deadline format"]
    | Some (Some deadline) =>
        let oneHourFromNow := now + 60 * 60 * 1000 in
        if deadline <=? oneHourFromNow then
          ["Voting deadline must be at least 1 hour from now"]
        else []
    end in
  (* Options validation *)
  let options :=
    match pd_options data with
    | None => ["Voting options are required"]
    | Some options =>
        let validOptions := omap validOption options in
        let count :=
          if (List.length validOptions <? 2)%nat then
            ["At least 2 voting options are required"]
          else if (10 <? List.length validOptions)%nat then
            ["Maximum 10 voting options allowed"]
          else [] in
        let lengths := mjoin (imap optionLengthErrors options) in
        let uniqueOptions : gset string :=
          list_to_set ((λ opt, Js.toLowerCase (Js.trim opt)) <$> validOptions) in
        let unique :=
          if negb (size uniqueOptions =? List.length validOptions)%nat then
            ["Voting options must be unique"]
          else [] in
        (count ++ lengths ++ unique)%list
    end in
  (title ++ description ++ voting_deadline ++ options)%list.

(** The options the create handler hands to [proposalDb.create]. *)
Definition cleanOptions (options : list (option string)) : list string :=
  Js.trim <$> omap validOption options.

(** The rows [proposalDb.create] inserts for them. *)
Definition optionsData (options : list string) : list proposal_option :=
  imap (λ index option, ProposalOption (Z.of_nat index + 1) (Js.trim option)) options.

End ProposalRoutes.

(* ===================================================================== *)
(** * Statements: vocabulary and concrete inputs *)
(* ===================================================================== *)

Local Open Scope list_scope.
Local Open Scope nat_scope.

(** ** Vocabulary of the statements *)

(** [after] differs from [before] at most by the field [field] of the hash
    at [key], which [after] does not hold. *)
Definition deletes_only (key field : string) (before after : world) : Prop :=
  supabase after = supabase before ∧
  (∀ k, k ≠ key → redis after !! k = redis before !! k) ∧
  (∀ f, f ≠ field → hget key f (redis after) = hget key f (redis before)) ∧
  (∀ v, hget key field (redis after) ≠ Ok (Some v)).

(** The three keys of a proposal hold values of their declared kinds. *)
Definition hash_or_absent (v : option rvalue) : Prop :=
  match v with None | Some (RHash _) => True | Some _ => False end.

Definition set_or_absent (v : option rvalue) : Prop :=
  match v with None | Some (RSet _) => True | Some _ => False end.

Definition well_typed (p : string) (st : store) : Prop :=
  hash_or_absent (st !! REDIS_KEYS.votes p) ∧
  hash_or_absent (st !! REDIS_KEYS.delegations p) ∧
  set_or_absent (st !! REDIS_KEYS.participants p).

(** The wallet [n] hops down the chain from [x], if the chain is that long. *)
Fixpoint hop (d : gmap string string) (n : nat) (x : string) : option string :=
  match n with
  | O => Some x
  | S n' => match Js.truthy (d !! x) with
            | Some y => hop d n' y
            | None => None
            end
  end.

(** [l] lists the wallets met hop by hop after [x]. *)
Fixpoint chain_from (d : gmap string string) (x : string) (l : list string) : Prop :=
  match l with
  | [] => True
  | y :: l' => Js.truthy (d !! x) = Some y ∧ chain_from d y l'
  end.

(** A wallet with no outgoing delegation. *)
Definition sink (d : gmap string string) (x : string) : Prop := Js.truthy (d !! x) = None.

(** No wallet reaches itself by following one or more edges. *)
Definition acyclic (d : gmap string string) : Prop :=
  ∀ x n, 0 < n → hop d n x ≠ Some x.

(** Keys and values already in lower case. *)
Definition normalized (m : gmap string string) : Prop :=
  ∀ k v, m !! k = Some v → Js.toLowerCase k = k ∧ Js.toLowerCase v = v.

Definition lowerEntry (acc : gmap string string) (kv : string * string) : gmap string string :=
  <[ Js.toLowerCase kv.1 := Js.toLowerCase kv.2 ]> acc.

(** The participants are exactly the voters and the delegators, and no
    wallet is both. *)
Definition partitioned {V} (participants : list string) (votesMap : gmap string V)
           (delegationMap : gmap string string) : Prop :=
  NoDup participants ∧
  (∀ x, x ∈ participants ↔ x ∈ dom votesMap ∨ x ∈ dom delegationMap) ∧
  dom votesMap ## dom delegationMap.


(** Power a vote entry carries: the entry of the voter's lower-cased name
    in the power map, 1 when there is none or it is zero; and the part of
    it that goes to option [o]. *)
Definition power (votingPowers : gmap string nat) (entry : string * jsnum) : nat :=
  match votingPowers !! Js.toLowerCase entry.1 with
  | Some (S p) => S p
  | _ => 1
  end.



(** Wallet names and option numbers on which the embedding is exact: see
    [Js.plain] and [Js.safe].  A vote may be [NaN]. *)
Definition plain_keys {V} (m : gmap string V) : Prop :=
  map_Forall (λ wallet _, Js.plain wallet) m.

Definition plain_names (delegations : gmap string string) : Prop :=
  map_Forall (λ delegator delegate, Js.plain delegator ∧ Js.plain delegate) delegations.




(** A tally entry after [g] more units: created by the first unit. *)
Definition bump (t : option nat) (g : nat) : option nat :=
  match t, g with
  | None, O => None
  | _, _ => Some (default 0 t + g)
  end.

(** The answers of [detectCyclesDFS] for a self-delegation and for a cycle. *)
Definition SELF_CYCLE (delegator : string) : cycle_check :=
  {| hasCycle := true; cyclePath := Some [delegator]; reason := Some SelfDelegation |}.

Definition CYCLE (cyclePath : list string) : cycle_check :=
  {| hasCycle := true; cyclePath := Some cyclePath;
     reason := Some (CircularDelegation cyclePath) |}.

(** The row [saveErrorAudit] writes when the tally finds no resolution. *)
Definition errorAuditRow (e : env) (p : string) : final_audit_row :=
  {| fa_vote_results := VoteError FinalVoteEngine.NO_RESOLUTION p;
     fa_computation_time_ms := elapsedMs e;
     fa_total_voting_power := 0;
     fa_total_votes_cast := 0;
     fa_winning_option := None;
     fa_status := error;
     fa_error_message := Some FinalVoteEngine.NO_RESOLUTION |}.

(** A snapshot row as [createSnapshot] writes it. *)
Definition written_by_createSnapshot (row : snapshot_row) : Prop :=
  ∃ timestamp votesData delegationsData participantsData status deadline,
    redis_data row = RedisBackupManager.snapshotDataOf
                       timestamp votesData delegationsData participantsData status deadline.

Definition INVALID_STRUCTURE : string := "Invalid snapshot data structure".

(** The hash and the set a key holds, empty when the key is absent. *)
Definition hashAt (key : string) (st : store) : gmap string string :=
  match st !! key with Some (RHash h) => h | _ => ∅ end.

Definition setAt (key : string) (st : store) : gset string :=
  match st !! key with Some (RSet s) => s | _ => ∅ end.

(** The votes, the delegations and the participants of a proposal. *)
Definition votesOf (p : string) (w : world) : gmap string string :=
  hashAt (REDIS_KEYS.votes p) (redis w).
Definition delegationsOf (p : string) (w : world) : gmap string string :=
  hashAt (REDIS_KEYS.delegations p) (redis w).
Definition participantsOf (p : string) (w : world) : gset string :=
  setAt (REDIS_KEYS.participants p) (redis w).

(** A stored vote: the digits of a safe integer. *)
Definition vote_text (v : string) : bool :=
  match Js.parseInt v with
  | Some n => Js.safe n && bool_decide (Js.toString n = v)
  | None => false
  end.

(** What the handlers keep under a proposal's keys: votes of plain wallets
    for safe option numbers, delegations between plain wallets, plain
    participants.  On such contents the replies of the store's client are
    the stored strings (votes apart, which are read with [parseInt]) and
    the objects built from them have own properties only. *)
Definition ordinary (p : string) (w : world) : Prop :=
  map_Forall (λ wallet vote, Js.plain wallet ∧ vote_text vote) (votesOf p w) ∧
  plain_names (delegationsOf p w) ∧
  set_Forall (λ wallet, Js.plain wallet) (participantsOf p w).

(** The operations a wallet can apply to a proposal. *)
Inductive action : Type :=
| CastVote (wallet : string) (optionNumber : Z)
| SetDelegation (delegator delegate : string)
| RemoveVote (wallet : string)
| RemoveDelegation (wallet : string).

Definition perform (p : string) (a : action) : M unit :=
  match a with
  | CastVote wallet optionNumber =>
      await_ RedisVotingOps.castVote p wallet optionNumber in ret tt
  | SetDelegation delegator delegate =>
      await_ RedisVotingOps.setDelegation p delegator delegate in ret tt
  | RemoveVote wallet => await_ RedisVotingOps.removeVote p wallet in ret tt
  | RemoveDelegation wallet => await_ RedisVotingOps.removeDelegation p wallet in ret tt
  end.

Fixpoint performAll (p : string) (l : list action) : M unit :=
  match l with
  | [] => ret tt
  | a :: l => await_ perform p a in performAll p l
  end.

(** The actions of plain wallets for safe option numbers. *)
Definition proper (a : action) : Prop :=
  match a with
  | CastVote wallet optionNumber => Js.plain wallet ∧ Js.safe optionNumber
  | SetDelegation delegator delegate => Js.plain delegator ∧ Js.plain delegate
  | RemoveVote _ | RemoveDelegation _ => True
  end.

(** The wallet an action is about, under its normalized key. *)
Definition actor (a : action) : string :=
  match a with
  | CastVote wallet _ | RemoveVote wallet | RemoveDelegation wallet => Js.toLowerCase wallet
  | SetDelegation delegator _ => Js.toLowerCase delegator
  end.

(** [after] differs from [before] at most in the keys [K]. *)
Definition within (K : string → Prop) (before after : world) : Prop :=
  supabase after = supabase before ∧
  ∀ k, ¬ K k → redis after !! k = redis before !! k.

(** The three keys of proposal [p]. *)
Definition keysOf (p : string) (k : string) : Prop :=
  k = REDIS_KEYS.votes p ∨ k = REDIS_KEYS.delegations p ∨ k = REDIS_KEYS.participants p.

(** What holds of a proposal's keys however its wallets voted, delegated
    and withdrew: no wallet holds a vote and a delegation at once, voters
    and delegators are participants, keys and delegates are in lower case,
    names are plain and every stored vote is the decimal form of a safe
    integer. *)
Definition consistent (p : string) (w : world) : Prop :=
  well_typed p (redis w) ∧
  dom (votesOf p w) ## dom (delegationsOf p w) ∧
  dom (votesOf p w) ∪ dom (delegationsOf p w) ⊆ participantsOf p w ∧
  normalized (delegationsOf p w) ∧
  (∀ k v, votesOf p w !! k = Some v → Js.toLowerCase k = k) ∧
  ordinary p w.

(** The delegators whose resolved final delegate is [w]. *)
Definition delegatedTo (delegationResolution : gmap string string) (w : string) : nat :=
  List.length (filter (λ entry : string * string, entry.2 = w)
                      (map_to_list delegationResolution)).

(** The tallies of all options together. *)
Definition tallied (optionTallies : gmap jsnum nat) : nat :=
  sum_list_with snd (map_to_list optionTallies).

(** A string that does not begin with white space. *)
Definition trimmed_start (s : string) : Prop :=
  match s with String c _ => Js.is_ws c = false | EmptyString => True end.

(** The five keys [createSnapshot] reads hold the declared kinds. *)
Definition string_or_absent (v : option rvalue) : Prop :=
  match v with None | Some (RString _) => True | Some _ => False end.

Definition snapshot_ready (p : string) (st : store) : Prop :=
  well_typed p st ∧
  string_or_absent (st !! REDIS_KEYS.status p) ∧
  string_or_absent (st !! REDIS_KEYS.deadline p).

(** The rows [rows] inserted one after the other. *)
Definition insert_snapshots (rows : list snapshot_row) (db : database) : database :=
  foldl (λ db row, insert_snapshot row db) db rows.

(** The store after the queued commands, when none of them fails. *)
Fixpoint steps (pipeline : list RedisBackupManager.command) (st : store) : option store :=
  match pipeline with
  | [] => Some st
  | c :: rest =>
      match c st with
      | (None, st') => steps rest st'
      | (Some _, _) => None
      end
  end.

(** ** Concrete inputs *)

Definition emptyDb : database := Database ∅ ∅ [] [] ∅.
Definition emptyWorld : world := World ∅ emptyDb.
Definition env0 : env := Env "2025-01-01T00:00:00.000Z" 7 "snapshot-1" 1735689600.

(** Scenario 1 of the specification: A delegates to B, B to C, C votes
    option 1, D votes option 2. *)
Definition scenario1 : world :=
  (Async.bind (RedisVotingOps.setDelegation "p" "A" "B") (λ _,
   Async.bind (RedisVotingOps.setDelegation "p" "B" "C") (λ _,
   Async.bind (RedisVotingOps.castVote "p" "C" 1) (λ _,
               RedisVotingOps.castVote "p" "D" 2))) emptyWorld).2.

Definition scenario1_delegations : gmap string string := {[ "a" := "b"; "b" := "c" ]}.

Definition rank3 (s : string) : nat :=
  if decide (s = "a") then 0 else if decide (s = "b") then 1 else 2.

(** One wallet voted, then removed its vote. *)
Definition after_removal : world :=
  (RedisVotingOps.removeVote "p" "a" (RedisVotingOps.castVote "p" "a" 1 emptyWorld).2).2.


(** A chain of [n] delegations w -> ww -> www -> ... *)
Fixpoint wallet (n : nat) : string :=
  match n with
  | O => "w"
  | S n' => String "w" (wallet n')
  end.

Definition longChain (n : nat) : gmap string string :=
  list_to_map ((λ i, (wallet i, wallet (S i))) <$> seq 0 n).

Definition UUID : string := "123e4567-e89b-12d3-a456-426614174000".

Definition selfRequest : delegate_request :=
  {| req_proposalId := UUID; req_target_user := Some "alice";
     req_walletAddress := "0xABCDEF"; req_access := AccessValid "org-1";
     req_targetWallet := Some "0xabcdef"; req_stamp := "1735689600000" |}.

(** The resolution of scenario 1 failed and left an 'error' record. *)
Definition failed_resolution : world :=
  (DelegationEngine.saveErrorAudit "p" "store unreachable" 12 scenario1).2.

Definition twoOptions : option (list proposal_option) :=
  Some [ProposalOption 1 "yes"; ProposalOption 2 "no"].

Definition tieVotes : gmap string jsnum := {[ "c" := Num 1; "d" := Num 2 ]}.

(** Scenario 1 once its deadline has passed: the proposal row exists and
    nothing has been resolved or counted yet. *)
Definition scenario1_proposal : proposal :=
  Proposal "Budget" [ProposalOption 1 "yes"; ProposalOption 2 "no"] "2025-01-01T00:00:00.000Z".

Definition scenario1_expired : world :=
  World (redis scenario1) (Database ∅ ∅ [] [] {[ "p" := scenario1_proposal ]}).

(** [voting_deadline < now] on ISO timestamps of equal length. *)
Definition isoBefore (deadline now : string) : bool :=
  bool_decide (String.ltb deadline now = true).

(** An open proposal nobody has voted on yet, and a member's ballot. *)
Definition openRow : proposal :=
  Proposal "Budget" [ProposalOption 1 "yes"; ProposalOption 2 "no"] "2099-01-01T00:00:00.000Z".

Definition openProposal : world :=
  World ∅ (Database ∅ ∅ [] [] {[ UUID := openRow ]}).

Definition ballot : VotingRoutes.vote_request :=
  VotingRoutes.VoteRequest UUID (Some 1%Z) "0xABCDEF"
    (VotingRoutes.Membership (Some (Some "org-1")) "org-1" false) "1735689600000".

(** The body of a create request: one option is blank, one is not a
    string. *)
Definition draft : ProposalRoutes.proposal_data :=
  ProposalRoutes.ProposalData
    (Some "  Budget for 2026  ")
    (Some "Shall the association adopt the budget the board proposed for 2026?")
    (Some (Some 1735700000000%Z))
    (Some [Some "  Yes "; None; Some "no, not this year"; Some "   "]).

(** A snapshot of scenario 1 laid out as [restoreFromSnapshot] reads it,
    and a store that has lost the proposal since. *)
Definition nestedRow : snapshot_row :=
  {| snapshot_id := "snapshot-7"; sn_proposal_id := "p";
     redis_data :=
       JObj [("data",
              RedisBackupManager.snapshotDataOf
                "2025-01-01T00:00:00.000Z" {[ "c" := "1"; "d" := "2" ]}
                {[ "a" := "b"; "b" := "c" ]} ["a"; "b"; "c"; "d"] (Some "active") None)];
     snapshot_type := "manual"; snapshot_at := 1735689600 |}.

Definition archived : world := World ∅ (Database ∅ ∅ [nestedRow] [] ∅).

(** The ballot's vote in the store, its cooldown over, and the request to
    withdraw it. *)
Definition afterBallot : world :=
  (RedisVotingOps.castVote UUID "0xABCDEF" 1 openProposal).2.

Definition withdrawal : VotingRoutes.removal_request :=
  VotingRoutes.RemovalRequest UUID "0xABCDEF"
    (VotingRoutes.Membership (Some (Some "org-1")) "org-1" false) "1735689700000".

(* ===================================================================== *)
(** * Verified properties *)
(* ===================================================================== *)

(** ** The [async] monad *)

Section monad_laws.
Context {A B : Type}.
Implicit Types (m : M A) (k : A → M B) (w : world).

Lemma bind_ok m k w b w' :
  Async.bind m k w = (Ok b, w') → ∃ a w1, m w = (Ok a, w1) ∧ k a w1 = (Ok b, w').
Proof.
  unfold Async.bind. destruct (m w) as [[a|e] w1]; [eauto | done].
Qed.

Lemma bind_eq m k w a w1 : m w = (Ok a, w1) → Async.bind m k w = k a w1.
Proof. unfold Async.bind. by intros ->. Qed.

Lemma try_rethrow m w : Async.try_catch m (λ e, Async.throw e) w = m w.
Proof. unfold Async.try_catch, Async.throw. by destruct (m w) as [[a|e] w1]. Qed.

Lemma wr_inv (c : store → result A * store) w r w' :
  Async.wr c w = (r, w') → ∃ st, c (redis w) = (r, st) ∧ w' = World st (supabase w).
Proof.
  unfold Async.wr. destruct (c (redis w)) as [r0 st]. intros; simplify_eq. eauto.
Qed.

Lemma wr_eq (c : store → result A * store) w r st :
  c (redis w) = (r, st) → Async.wr c w = (r, World st (supabase w)).
Proof. unfold Async.wr. by intros ->. Qed.

Lemma rd_eq (f : store → result A) w : Async.rd f w = (f (redis w), w).
Proof. done. Qed.
End monad_laws.

(** ** Key names *)

Section keys.
Implicit Types p : string.

Lemma votes_ne_participants p : REDIS_KEYS.votes p ≠ REDIS_KEYS.participants p.
Proof.
  unfold REDIS_KEYS.votes, REDIS_KEYS.participants. intros H.
  apply String.app_inj, String.app_inj in H. discriminate.
Qed.

Lemma delegations_ne_participants p :
  REDIS_KEYS.delegations p ≠ REDIS_KEYS.participants p.
Proof.
  unfold REDIS_KEYS.delegations, REDIS_KEYS.participants. intros H.
  apply String.app_inj, String.app_inj in H. discriminate.
Qed.

Lemma votes_ne_delegations p : REDIS_KEYS.votes p ≠ REDIS_KEYS.delegations p.
Proof.
  unfold REDIS_KEYS.delegations, REDIS_KEYS.votes. intros H.
  apply String.app_inj, String.app_inj in H. discriminate.
Qed.
End keys.

(** ** Store commands *)

Section store_lemmas.
Implicit Types (st : store) (key field : string).

Lemma hdel_hget key field st n st' :
  hdel key field st = (Ok n, st') → hget key field st' = Ok None.
Proof.
  unfold hdel, hget. intros H.
  destruct (st !! key) as [[s|h|s]|] eqn:Hk; simplify_eq.
  - destruct (h !! field) eqn:Hf; simplify_eq.
    + case_decide.
      * by rewrite lookup_delete_eq.
      * by rewrite lookup_insert_eq, lookup_delete_eq.
    + by rewrite Hk, Hf.
  - by rewrite Hk.
Qed.

Lemma hdel_frame key field st r st' :
  hdel key field st = (r, st') → ∀ k, k ≠ key → st' !! k = st !! k.
Proof.
  unfold hdel. intros H k Hne.
  destruct (st !! key) as [[s|h|s]|] eqn:Hk; simplify_eq; try done.
  destruct (h !! field) eqn:Hf; simplify_eq; try done.
  case_decide.
  - by rewrite lookup_delete_ne.
  - by rewrite lookup_insert_ne.
Qed.

Lemma hdel_other_field key field st r st' :
  hdel key field st = (r, st') →
  ∀ f, f ≠ field → hget key f st' = hget key f st.
Proof.
  unfold hdel, hget. intros H f Hne.
  destruct (st !! key) as [[s|h|s]|] eqn:Hk; simplify_eq; rewrite ?Hk; try done.
  destruct (h !! field) eqn:Hf; simplify_eq; rewrite ?Hk; try done.
  case_decide as He.
  - rewrite lookup_delete_eq.
    f_equal. rewrite <- (lookup_delete_ne h field f) by done.
    by rewrite He, lookup_empty.
  - by rewrite lookup_insert_eq, lookup_delete_ne.
Qed.

Lemma hdel_never_present key field st r st' v :
  hdel key field st = (r, st') → hget key field st' ≠ Ok (Some v).
Proof.
  intros H. destruct r as [n|msg].
  - by rewrite (hdel_hget _ _ _ _ _ H).
  - unfold hdel in H. unfold hget.
    destruct (st !! key) as [[s|h|s]|] eqn:Hk; simplify_eq; rewrite ?Hk; try done.
    destruct (h !! field); simplify_eq.
Qed.

Lemma hdel_deletes_only key field world :
  deletes_only key field world (Async.wr (hdel key field) world).2.
Proof.
  unfold Async.wr. destruct (hdel key field (redis world)) as [r st] eqn:H. simpl.
  repeat split.
  - by eapply hdel_frame.
  - by eapply hdel_other_field.
  - intros v. by eapply hdel_never_present.
Qed.

Lemma hset_ok key field value st :
  hash_or_absent (st !! key) →
  ∃ n h, hset key {[ field := value ]} st = (Ok n, <[key := RHash h]> st).
Proof.
  unfold hset. rewrite decide_False by apply insert_non_empty.
  destruct (st !! key) as [[s|h|s]|]; simpl; try done; eauto.
Qed.

Lemma sadd_ok key member st :
  set_or_absent (st !! key) →
  ∃ n s, sadd key [member] st = (Ok n, <[key := RSet s]> st).
Proof.
  unfold sadd. destruct (st !! key) as [[s|h|s]|]; simpl; try done; eauto.
Qed.

Lemma hdel_ok key field st :
  hash_or_absent (st !! key) →
  ∃ n st', hdel key field st = (Ok n, st') ∧ hash_or_absent (st' !! key) ∧
           ∀ k, k ≠ key → st' !! k = st !! k.
Proof.
  intros H. destruct (hdel key field st) as [r st'] eqn:E.
  pose proof (hdel_frame _ _ _ _ _ E) as Hf.
  unfold hdel in E. destruct (st !! key) as [[s|h|s]|] eqn:Hk; simpl in H; try done.
  - destruct (h !! field); simplify_eq.
    + eexists _, _. split_and!; [done| |done]. case_decide.
      * by rewrite lookup_delete_eq.
      * by rewrite lookup_insert_eq.
    + eexists _, _. split_and!; [done| |done]. by rewrite Hk.
  - simplify_eq. eexists _, _. split_and!; [done| |done]. by rewrite Hk.
Qed.
End store_lemmas.

(** ** Per-wallet reads *)

Section reads.
Implicit Types (p w : string) (world : world).

Lemma getUserVote_absent p w world :
  (∀ v, hget (REDIS_KEYS.votes p) (Js.toLowerCase w) (redis world) ≠ Ok (Some v)) →
  RedisVotingOps.getUserVote p w world = (Ok None, world).
Proof.
  intros H. unfold RedisVotingOps.getUserVote, Async.try_catch, Async.bind. rewrite rd_eq.
  destruct (hget _ _ _) as [[v|]|e]; [by destruct (H v) | done | done].
Qed.

Lemma getUserDelegation_absent p w world :
  (∀ v, hget (REDIS_KEYS.delegations p) (Js.toLowerCase w) (redis world) ≠ Ok (Some v)) →
  RedisVotingOps.getUserDelegation p w world = (Ok None, world).
Proof.
  intros H. unfold RedisVotingOps.getUserDelegation, Async.try_catch, Async.bind.
  rewrite rd_eq.
  destruct (hget _ _ _) as [[v|]|e]; [by destruct (H v) | done | done].
Qed.

Lemma getUserVote_key p w world1 world2 :
  redis world1 !! REDIS_KEYS.votes p = redis world2 !! REDIS_KEYS.votes p →
  (RedisVotingOps.getUserVote p w world1).1 = (RedisVotingOps.getUserVote p w world2).1.
Proof.
  intros H. unfold RedisVotingOps.getUserVote, Async.try_catch, Async.bind.
  rewrite !rd_eq. unfold hget. rewrite H.
  by destruct (redis world2 !! _) as [[s|h|s]|]; simpl; [|destruct (h !! _) as [[|]|]|..].
Qed.

Lemma getUserDelegation_key p w world1 world2 :
  redis world1 !! REDIS_KEYS.delegations p = redis world2 !! REDIS_KEYS.delegations p →
  (RedisVotingOps.getUserDelegation p w world1).1
  = (RedisVotingOps.getUserDelegation p w world2).1.
Proof.
  intros H. unfold RedisVotingOps.getUserDelegation, Async.try_catch, Async.bind.
  rewrite !rd_eq. unfold hget. rewrite H.
  by destruct (redis world2 !! _) as [[s|h|s]|]; simpl; [|destruct (h !! _) as [[|]|]|..].
Qed.

Lemma getAllParticipants_key p world1 world2 :
  redis world1 !! REDIS_KEYS.participants p = redis world2 !! REDIS_KEYS.participants p →
  (RedisVotingOps.getAllParticipants p world1).1
  = (RedisVotingOps.getAllParticipants p world2).1.
Proof.
  intros H. unfold RedisVotingOps.getAllParticipants. rewrite !rd_eq. simpl.
  unfold smembers. by rewrite H.
Qed.

Lemma checkCooldown_pure u p world :
  (RedisVotingOps.checkCooldown u p world).2 = world.
Proof.
  unfold RedisVotingOps.checkCooldown, Async.bind. rewrite rd_eq.
  by destruct (get _ _) as [o|e].
Qed.
End reads.

(** ** Casting a vote, setting a delegation *)

Section vote_and_delegate.
Implicit Types (p w d : string) (o : Z) (world : world).

Lemma castVote_inv p w o world world' b :
  RedisVotingOps.castVote p w o world = (Ok b, world') →
  ∃ n st, hdel (REDIS_KEYS.delegations p) (Js.toLowerCase w) st = (Ok n, redis world').
Proof.
  unfold RedisVotingOps.castVote. rewrite try_rethrow. intros H.
  apply bind_ok in H as (n1 & w1 & _ & H).
  apply bind_ok in H as (n2 & w2 & _ & H).
  apply bind_ok in H as (n3 & w3 & H3 & H).
  unfold Async.ret in H. simplify_eq.
  apply wr_inv in H3 as (st & H3 & ->). simpl. eauto.
Qed.

Lemma setDelegation_inv p w d world world' b :
  RedisVotingOps.setDelegation p w d world = (Ok b, world') →
  ∃ n st, hdel (REDIS_KEYS.votes p) (Js.toLowerCase w) st = (Ok n, redis world').
Proof.
  unfold RedisVotingOps.setDelegation. rewrite try_rethrow. intros H.
  apply bind_ok in H as (n1 & w1 & _ & H).
  apply bind_ok in H as (n2 & w2 & _ & H).
  apply bind_ok in H as (n3 & w3 & H3 & H).
  unfold Async.ret in H. simplify_eq.
  apply wr_inv in H3 as (st & H3 & ->). simpl. eauto.
Qed.

(** On a store whose keys hold the declared kinds both operations complete. *)
Lemma castVote_completes p w o world :
  well_typed p (redis world) →
  ∃ world', RedisVotingOps.castVote p w o world = (Ok true, world') ∧
            well_typed p (redis world') ∧ supabase world' = supabase world.
Proof.
  intros (Hv & Hd & Hp).
  unfold RedisVotingOps.castVote. rewrite try_rethrow.
  destruct (hset_ok (REDIS_KEYS.votes p) (Js.toLowerCase w) (Js.toString o) _ Hv)
    as (n1 & h1 & E1).
  set (st1 := <[REDIS_KEYS.votes p := RHash h1]> (redis world)) in *.
  destruct (sadd_ok (REDIS_KEYS.participants p) (Js.toLowerCase w) st1) as (n2 & s2 & E2).
  { unfold st1. by rewrite lookup_insert_ne by apply votes_ne_participants. }
  set (st2 := <[REDIS_KEYS.participants p := RSet s2]> st1) in *.
  destruct (hdel_ok (REDIS_KEYS.delegations p) (Js.toLowerCase w) st2)
    as (n3 & st3 & E3 & Hd3 & Hf3).
  { unfold st2, st1. rewrite lookup_insert_ne by apply not_eq_sym, delegations_ne_participants.
    by rewrite lookup_insert_ne by apply votes_ne_delegations. }
  exists (World st3 (supabase world)).
  split; [|split; [|done]].
  - rewrite (bind_eq _ _ _ _ _ (wr_eq _ _ _ _ E1)).
    rewrite (bind_eq _ _ _ _ _ (wr_eq _ (World st1 _) _ _ E2)).
    by rewrite (bind_eq _ _ _ _ _ (wr_eq _ (World st2 _) _ _ E3)).
  - simpl. split_and!; [|done|].
    + rewrite Hf3 by apply votes_ne_delegations. unfold st2, st1.
      rewrite lookup_insert_ne by apply not_eq_sym, votes_ne_participants.
      by rewrite lookup_insert_eq.
    + rewrite Hf3 by apply not_eq_sym, delegations_ne_participants. unfold st2.
      by rewrite lookup_insert_eq.
Qed.

Lemma setDelegation_completes p w d world :
  well_typed p (redis world) →
  ∃ world', RedisVotingOps.setDelegation p w d world = (Ok true, world') ∧
            well_typed p (redis world') ∧ supabase world' = supabase world.
Proof.
  intros (Hv & Hd & Hp).
  unfold RedisVotingOps.setDelegation. rewrite try_rethrow.
  destruct (hset_ok (REDIS_KEYS.delegations p) (Js.toLowerCase w) (Js.toLowerCase d) _ Hd)
    as (n1 & h1 & E1).
  set (st1 := <[REDIS_KEYS.delegations p := RHash h1]> (redis world)) in *.
  destruct (sadd_ok (REDIS_KEYS.participants p) (Js.toLowerCase w) st1) as (n2 & s2 & E2).
  { unfold st1. by rewrite lookup_insert_ne by apply delegations_ne_participants. }
  set (st2 := <[REDIS_KEYS.participants p := RSet s2]> st1) in *.
  destruct (hdel_ok (REDIS_KEYS.votes p) (Js.toLowerCase w) st2)
    as (n3 & st3 & E3 & Hd3 & Hf3).
  { unfold st2, st1. rewrite lookup_insert_ne by apply not_eq_sym, votes_ne_participants.
    by rewrite lookup_insert_ne by apply not_eq_sym, votes_ne_delegations. }
  exists (World st3 (supabase world)).
  split; [|split; [|done]].
  - rewrite (bind_eq _ _ _ _ _ (wr_eq _ _ _ _ E1)).
    rewrite (bind_eq _ _ _ _ _ (wr_eq _ (World st1 _) _ _ E2)).
    by rewrite (bind_eq _ _ _ _ _ (wr_eq _ (World st2 _) _ _ E3)).
  - simpl. split_and!; [done| |].
    + rewrite Hf3 by apply not_eq_sym, votes_ne_delegations. unfold st2, st1.
      rewrite lookup_insert_ne by apply not_eq_sym, delegations_ne_participants.
      by rewrite lookup_insert_eq.
    + rewrite Hf3 by apply not_eq_sym, votes_ne_participants. unfold st2.
      by rewrite lookup_insert_eq.
Qed.
End vote_and_delegate.

(** C7.  For every wallet [w], proposal [p] and prior state: once
    [castVote(p, w, o)] has completed, reading [w]'s delegation returns
    none; once [setDelegation(p, w, d)] has completed, reading [w]'s vote
    returns none. *)
Theorem vote_delegation_mutually_exclusive (p w : string) (world : world) :
  (∀ o world', RedisVotingOps.castVote p w o world = (Ok true, world') →
               RedisVotingOps.getUserDelegation p w world' = (Ok None, world')) ∧
  (∀ d world', RedisVotingOps.setDelegation p w d world = (Ok true, world') →
               RedisVotingOps.getUserVote p w world' = (Ok None, world')).
Proof.
  split.
  - intros o world' H. apply castVote_inv in H as (n & st & H).
    apply getUserDelegation_absent. intros v. by rewrite (hdel_hget _ _ _ _ _ H).
  - intros d world' H. apply setDelegation_inv in H as (n & st & H).
    apply getUserVote_absent. intros v. by rewrite (hdel_hget _ _ _ _ _ H).
Qed.

Lemma vote_delegation_mutually_exclusive_witness :
  RedisVotingOps.getUserDelegation "p" "A"
    (RedisVotingOps.castVote "p" "A" 2 scenario1).2
  = (Ok None, (RedisVotingOps.castVote "p" "A" 2 scenario1).2) ∧
  RedisVotingOps.getUserVote "p" "C"
    (RedisVotingOps.setDelegation "p" "C" "D" scenario1).2
  = (Ok None, (RedisVotingOps.setDelegation "p" "C" "D" scenario1).2).
Proof.
  split.
  - apply (proj1 (vote_delegation_mutually_exclusive "p" "A" scenario1) 2%Z). by vm_compute.
  - apply (proj2 (vote_delegation_mutually_exclusive "p" "C" scenario1) "D"). by vm_compute.
Defined.

(** C10.  [removeVote] deletes only the wallet's field of the votes hash and
    [removeDelegation] only its field of the delegations hash: every other
    key, the participant set among them, and the durable store are
    unchanged.  Hence a participant that held only a vote (only a
    delegation) and removed it is still a participant and holds neither. *)
Theorem removal_keeps_participant (p w : string) (world : world) :
  let afterVote := (RedisVotingOps.removeVote p w world).2 in
  let afterDelegation := (RedisVotingOps.removeDelegation p w world).2 in
  deletes_only (REDIS_KEYS.votes p) (Js.toLowerCase w) world afterVote ∧
  deletes_only (REDIS_KEYS.delegations p) (Js.toLowerCase w) world afterDelegation ∧
  (RedisVotingOps.getAllParticipants p afterVote).1
    = (RedisVotingOps.getAllParticipants p world).1 ∧
  (RedisVotingOps.getAllParticipants p afterDelegation).1
    = (RedisVotingOps.getAllParticipants p world).1 ∧
  (∀ members,
     (RedisVotingOps.getAllParticipants p world).1 = Ok members →
     Js.toLowerCase w ∈ members →
     ((RedisVotingOps.getUserDelegation p w world).1 = Ok None →
      (RedisVotingOps.getAllParticipants p afterVote).1 = Ok members ∧
      (RedisVotingOps.getUserVote p w afterVote).1 = Ok None ∧
      (RedisVotingOps.getUserDelegation p w afterVote).1 = Ok None) ∧
     ((RedisVotingOps.getUserVote p w world).1 = Ok None →
      (RedisVotingOps.getAllParticipants p afterDelegation).1 = Ok members ∧
      (RedisVotingOps.getUserVote p w afterDelegation).1 = Ok None ∧
      (RedisVotingOps.getUserDelegation p w afterDelegation).1 = Ok None)).
Proof.
  intros afterVote afterDelegation.
  pose proof (hdel_deletes_only (REDIS_KEYS.votes p) (Js.toLowerCase w) world) as HV.
  pose proof (hdel_deletes_only (REDIS_KEYS.delegations p) (Js.toLowerCase w) world) as HD.
  fold (RedisVotingOps.removeVote p w) in HV. fold afterVote in HV.
  fold (RedisVotingOps.removeDelegation p w) in HD. fold afterDelegation in HD.
  assert (HPV : (RedisVotingOps.getAllParticipants p afterVote).1
                = (RedisVotingOps.getAllParticipants p world).1).
  { apply getAllParticipants_key, HV. apply not_eq_sym, votes_ne_participants. }
  assert (HPD : (RedisVotingOps.getAllParticipants p afterDelegation).1
                = (RedisVotingOps.getAllParticipants p world).1).
  { apply getAllParticipants_key, HD. apply not_eq_sym, delegations_ne_participants. }
  split_and!; try done.
  intros members Hm Hin. split; intros Hnone.
  - split_and!.
    + by rewrite HPV.
    + rewrite getUserVote_absent; [done | apply HV].
    + rewrite <- Hnone. apply getUserDelegation_key, HV.
      apply not_eq_sym, votes_ne_delegations.
  - split_and!.
    + by rewrite HPD.
    + rewrite <- Hnone. apply getUserVote_key, HD. apply votes_ne_delegations.
    + rewrite getUserDelegation_absent; [done | apply HD].
Qed.

Lemma removal_keeps_participant_witness :
  (RedisVotingOps.getAllParticipants "p" (RedisVotingOps.removeVote "p" "D" scenario1).2).1
  = (RedisVotingOps.getAllParticipants "p" scenario1).1 ∧
  (RedisVotingOps.getUserVote "p" "D" (RedisVotingOps.removeVote "p" "D" scenario1).2).1
  = Ok None ∧
  (RedisVotingOps.getUserDelegation "p" "D" (RedisVotingOps.removeVote "p" "D" scenario1).2).1
  = Ok None.
Proof.
  destruct (removal_keeps_participant "p" "D" scenario1) as (_ & _ & _ & _ & H).
  destruct (H (elements ({[ "a"; "b"; "c"; "d" ]} : gset string))) as [HV _].
  - by vm_compute.
  - apply elem_of_elements. by vm_compute.
  - apply HV. by vm_compute.
Defined.

(** ** Self-delegation *)

Lemma detect_self p A A' world :
  Js.toLowerCase A = Js.toLowerCase A' →
  RedisVotingOps.detectCyclesDFS p A A' world = (Ok (SELF_CYCLE (Js.toLowerCase A)), world).
Proof.
  intros H. unfold RedisVotingOps.detectCyclesDFS, Async.try_catch.
  rewrite decide_True by done. done.
Qed.

(** C6.  For every wallet [A] and every prior state,
    [detectCyclesDFS(p, A, A)] answers [hasCycle] with the path holding [A]
    alone (under its normalized, lower-case key) and reads nothing.  The
    attempt itself is the delegate route, the caller of [setDelegation]:
    whenever the target resolves to the caller's own wallet the route
    rejects the request and leaves the ephemeral and the durable store as
    they were; once the request has passed the checks that precede the
    cycle check, the rejection is the cycle one. *)
Theorem self_delegation_rejected (p A : string) (world : world) :
  RedisVotingOps.detectCyclesDFS p A A world = (Ok (SELF_CYCLE (Js.toLowerCase A)), world) ∧
  ∀ req A',
    req_proposalId req = p → req_walletAddress req = A →
    req_targetWallet req = Some A' → Js.toLowerCase A' = Js.toLowerCase A →
    (∃ status err, VotingRoutes.delegate req world = (Ok (Rejected status err), world)) ∧
    (VotingRoutes.matches VotingRoutes.uuidPattern p = true →
     VotingRoutes.blank (req_target_user req) = false →
     (RedisVotingOps.checkCooldown A p world).1 = Ok false →
     (∃ org, req_access req = AccessValid org) →
     VotingRoutes.delegate req world
     = (Ok (Rejected 400 ("Delegation not allowed: " +:+ reason_text SelfDelegation)), world)).
Proof.
  split; [by apply detect_self|].
  intros req A' <- <- HT HA'.
  assert (HD := detect_self (req_proposalId req) (req_walletAddress req) A' world
                   (eq_sym HA')).
  unfold VotingRoutes.delegate, Async.try_catch, VotingRoutes.checkRateLimit.
  split.
  - destruct (VotingRoutes.matches _ _); simpl; [|by eauto].
    destruct (VotingRoutes.blank _); simpl; [by eauto|].
    unfold Async.bind at 1.
    pose proof (checkCooldown_pure (req_walletAddress req) (req_proposalId req) world) as HP.
    destruct (RedisVotingOps.checkCooldown _ _ world) as [[[|]|e] w1]; simpl in HP; subst w1;
      [by eauto | | by eauto].
    destruct (req_access req) as [org|st er]; [|by eauto].
    rewrite HT. unfold Async.bind. rewrite HD. simpl. by eauto.
  - intros -> -> HC [org ->]. simpl.
    unfold Async.bind at 1.
    pose proof (checkCooldown_pure (req_walletAddress req) (req_proposalId req) world) as HP.
    destruct (RedisVotingOps.checkCooldown _ _ world) as [r w1]; simpl in *; subst.
    rewrite HT. unfold Async.bind. by rewrite HD.
Qed.

Lemma self_delegation_rejected_witness :
  VotingRoutes.delegate selfRequest scenario1
  = (Ok (Rejected 400 "Delegation not allowed: Cannot delegate to yourself"), scenario1).
Proof.
  destruct (proj2 (self_delegation_rejected UUID "0xABCDEF" scenario1) selfRequest "0xabcdef")
    as [_ H]; [done | done | done | by vm_compute |].
  apply H; [by vm_compute | by vm_compute | by vm_compute | by exists "org-1"].
Defined.

(** The store operation itself carries no cycle check: called directly it
    writes the self-edge.  The guard is the route's. *)
Example setDelegation_unguarded :
  RedisVotingOps.getUserDelegation "p" "e"
    (RedisVotingOps.setDelegation "p" "e" "e" scenario1).2
  = (Ok (Some "e"), (RedisVotingOps.setDelegation "p" "e" "e" scenario1).2).
Proof. by vm_compute. Qed.

(** ** Tally without a resolution *)

Lemma loadVotingPowers_none p world :
  (∀ row, delegation_resolution_audit (supabase world) !! p = Some row →
          ra_status row ≠ completed) →
  FinalVoteEngine.loadVotingPowers p world = (Ok None, world).
Proof.
  intros H. unfold FinalVoteEngine.loadVotingPowers. rewrite try_rethrow.
  unfold Async.bind, Async.db_rd.
  destruct (delegation_resolution_audit (supabase world) !! p) as [row|] eqn:Hrow; [|done].
  by rewrite decide_False by by apply H.
Qed.

(** C8.  For every proposal with no Resolution Record of status
    'completed' (none at all, or one of status 'error'),
    [calculateFinalResults] returns the unsuccessful result without reading
    a vote or computing a tally, and the tally audit record of the proposal
    becomes the 'error' record with total voting power 0, total votes cast 0
    and no winning option; no 'completed' tally record is written, other
    proposals' records and the resolution audit are untouched. *)
Theorem tally_aborts_without_resolution (e : env) (p : string) (world : world) :
  (∀ row, delegation_resolution_audit (supabase world) !! p = Some row →
          ra_status row ≠ completed) →
  ∃ world',
    FinalVoteEngine.calculateFinalResults e p world
    = (Ok (FinalFailure FinalVoteEngine.NO_RESOLUTION (elapsedMs e)), world') ∧
    redis world' = redis world ∧
    final_vote_results_audit (supabase world') !! p = Some (errorAuditRow e p) ∧
    (∀ row, final_vote_results_audit (supabase world') !! p = Some row →
            fa_status row ≠ completed) ∧
    (∀ q, q ≠ p → final_vote_results_audit (supabase world') !! q
                  = final_vote_results_audit (supabase world) !! q) ∧
    delegation_resolution_audit (supabase world') = delegation_resolution_audit (supabase world).
Proof.
  intros H. eexists. split.
  - unfold FinalVoteEngine.calculateFinalResults, Async.try_catch.
    rewrite (bind_eq _ _ _ _ _ (loadVotingPowers_none p world H)).
    unfold Async.throw, Async.bind, FinalVoteEngine.saveErrorAudit, Async.db_wr, Async.ret.
    reflexivity.
  - simpl. split_and!; try done.
    + by rewrite lookup_insert_eq.
    + intros row. rewrite lookup_insert_eq. by intros [= <-].
    + intros q Hq. by rewrite lookup_insert_ne.
Qed.

Lemma tally_aborts_without_resolution_witness :
  ∃ world',
    FinalVoteEngine.calculateFinalResults env0 "p" failed_resolution
    = (Ok (FinalFailure FinalVoteEngine.NO_RESOLUTION (elapsedMs env0)), world') ∧
    redis world' = redis failed_resolution ∧
    final_vote_results_audit (supabase world') !! "p" = Some (errorAuditRow env0 "p") ∧
    (∀ row, final_vote_results_audit (supabase world') !! "p" = Some row →
            fa_status row ≠ completed) ∧
    (∀ q, q ≠ "p" → final_vote_results_audit (supabase world') !! q
                    = final_vote_results_audit (supabase failed_resolution) !! q) ∧
    delegation_resolution_audit (supabase world')
    = delegation_resolution_audit (supabase failed_resolution).
Proof.
  apply (tally_aborts_without_resolution env0 "p" failed_resolution).
  intros row Hrow. vm_compute in Hrow. by injection Hrow as <-.
Defined.

(** With a completed resolution the same call goes through (scenario 1:
    option 1 holds power 3, option 2 power 1, option 1 wins). *)
Example tally_after_resolution :
  let resolved := (DelegationEngine.resolveBulkDelegations env0 "p" scenario1).2 in
  let ready := World (redis resolved)
                     (Database (delegation_resolution_audit (supabase resolved)) ∅ [] []
                               {[ "p" := Proposal "title" (default [] twoOptions) "deadline" ]}) in
  match (FinalVoteEngine.calculateFinalResults env0 "p" ready).1 with
  | Ok (FinalSuccess r) =>
      optionResults r !! Num 1 = Some 3 ∧ optionResults r !! Num 2 = Some 1 ∧
      fm_totalVotingPower (fr_metadata r) = 4 ∧ fm_totalVotesCast (fr_metadata r) = 4 ∧
      fm_winningOption (fr_metadata r) = Some (Num 1)
  | _ => False
  end.
Proof. by vm_compute. Qed.

(** ** Snapshot and restore *)

Section snapshots.
Implicit Types (p : string) (world : world) (row : snapshot_row).

Lemma snapshotData_has_no_data ts v d ps st dl :
  jget "data" (RedisBackupManager.snapshotDataOf ts v d ps st dl) = None.
Proof. reflexivity. Qed.

Lemma createSnapshot_inv e p ty world id data world1 :
  RedisBackupManager.createSnapshot e p ty world = (Ok (SnapshotCreated id data), world1) →
  redis world1 = redis world ∧
  ∃ row, written_by_createSnapshot row ∧ sn_proposal_id row = p ∧ snapshot_id row = id ∧
         redis_data row = data ∧
         redis_snapshots (supabase world1) = redis_snapshots (supabase world) ++ [row].
Proof.
  unfold RedisBackupManager.createSnapshot, Async.try_catch. intros H.
  destruct (Async.bind _ _ world) as [[r|msg] w'] eqn:Hb; simplify_eq.
  apply bind_ok in Hb as (votes & w2 & Hv & Hb). rewrite rd_eq in Hv.
  apply bind_ok in Hb as (dels & w3 & Hd & Hb). rewrite rd_eq in Hd.
  apply bind_ok in Hb as (parts & w4 & Hp & Hb). rewrite rd_eq in Hp.
  apply bind_ok in Hb as (status & w5 & Hs & Hb). rewrite rd_eq in Hs.
  apply bind_ok in Hb as (deadline & w6 & Hl & Hb). rewrite rd_eq in Hl.
  apply bind_ok in Hb as (u & w7 & Hw & Hb).
  unfold Async.ret, Async.db_wr in *. simplify_eq. simpl.
  split; [done|]. eexists. split_and!.
  5: reflexivity. all: try reflexivity.
  unfold written_by_createSnapshot. simpl. by repeat eexists.
Qed.

Lemma latest_from b rows :
  ∃ row, foldl (λ best row,
             match best with
             | None => Some row
             | Some b => if (snapshot_at b <? snapshot_at row)%Z then Some row else Some b
             end) (Some b) rows = Some row ∧ (row = b ∨ row ∈ rows).
Proof.
  revert b. induction rows as [|r rows IH]; intros b; simpl; [by eauto|].
  destruct (snapshot_at b <? snapshot_at r)%Z.
  - destruct (IH r) as (row & -> & [->|Hin]); eexists; split; eauto; right; set_solver.
  - destruct (IH b) as (row & -> & [->|Hin]); eexists; split; eauto; right; set_solver.
Qed.

Lemma latest_elem rows :
  rows ≠ [] → ∃ row, RedisBackupManager.latest rows = Some row ∧ row ∈ rows.
Proof.
  destruct rows as [|r rows]; [done|]. intros _.
  unfold RedisBackupManager.latest. simpl.
  destruct (latest_from r rows) as (row & -> & [->|Hin]); eexists; split; eauto; set_solver.
Qed.

Lemma selectSnapshot_elem p sid db row :
  RedisBackupManager.selectSnapshot p sid db = Some row →
  row ∈ redis_snapshots db ∧ sn_proposal_id row = p.
Proof.
  unfold RedisBackupManager.selectSnapshot.
  set (rows := filter _ (redis_snapshots db)).
  assert (Hsub : ∀ r, r ∈ rows → r ∈ redis_snapshots db ∧ sn_proposal_id r = p).
  { intros r Hr. apply list_elem_of_filter in Hr. tauto. }
  clearbody rows.
  destruct (Js.truthy sid) as [id|].
  - destruct (filter _ rows) as [|r [|]] eqn:Hf; try done. intros Hr.
    injection Hr as Hr. subst r.
    apply Hsub. assert (Hin : row ∈ filter (λ row, snapshot_id row = id) rows)
      by (rewrite Hf; by left).
    apply list_elem_of_filter in Hin. tauto.
  - intros Hl. destruct rows as [|r rows'] eqn:Hr; [done|].
    destruct (latest_elem (r :: rows')) as (row' & Hl' & Hin); [done|].
    rewrite Hl in Hl'. simplify_eq. by apply Hsub.
Qed.

Lemma restore_row_fails p sid world row :
  RedisBackupManager.selectSnapshot p sid (supabase world) = Some row →
  written_by_createSnapshot row →
  RedisBackupManager.restoreFromSnapshot p sid world
  = (Ok (RestoreFailed INVALID_STRUCTURE), world).
Proof.
  intros Hsel (ts & v & d & ps & st & dl & Hrow).
  unfold RedisBackupManager.restoreFromSnapshot, Async.try_catch, Async.bind, Async.db_rd.
  rewrite Hsel, Hrow. reflexivity.
Qed.

Lemma restore_no_row p sid world :
  RedisBackupManager.selectSnapshot p sid (supabase world) = None →
  RedisBackupManager.restoreFromSnapshot p sid world
  = (Ok (RestoreFailed ("No snapshot found for proposal " +:+ p)), world).
Proof.
  intros Hsel.
  unfold RedisBackupManager.restoreFromSnapshot, Async.try_catch, Async.bind, Async.db_rd.
  rewrite Hsel. reflexivity.
Qed.
End snapshots.

(** C1 (the code departs from the claim).  Whatever the proposal state,
    the snapshot [createSnapshot] has just written cannot be restored: as
    long as the proposal's earlier snapshots were written by
    [createSnapshot] too, [restoreFromSnapshot] of the latest snapshot
    answers 'Invalid snapshot data structure', and for any snapshot id it
    fails, the store left as it was.  The writer puts the captured fields at
    the top of [redis_data]; the reader looks for them under
    [redis_data.data]. *)
Theorem restore_after_snapshot_fails (e : env) (p ty : string) (world world1 : world)
        (id : string) (data : json) :
  RedisBackupManager.createSnapshot e p ty world = (Ok (SnapshotCreated id data), world1) →
  (∀ row, row ∈ redis_snapshots (supabase world) → sn_proposal_id row = p →
          written_by_createSnapshot row) →
  RedisBackupManager.restoreFromSnapshot p None world1
  = (Ok (RestoreFailed INVALID_STRUCTURE), world1) ∧
  ∀ sid, ∃ msg, RedisBackupManager.restoreFromSnapshot p sid world1
                = (Ok (RestoreFailed msg), world1).
Proof.
  intros Hc Hinv.
  apply createSnapshot_inv in Hc as (Hredis & new & Hnew & Hp & Hid & Hdata & Hrows).
  assert (Hall : ∀ row, row ∈ redis_snapshots (supabase world1) → sn_proposal_id row = p →
                        written_by_createSnapshot row).
  { intros row. rewrite Hrows, elem_of_app, list_elem_of_singleton.
    intros [Hin| ->] Hrp; [by apply Hinv | done]. }
  assert (Hany : ∀ sid, ∃ msg, RedisBackupManager.restoreFromSnapshot p sid world1
                = (Ok (RestoreFailed msg), world1)).
  { intros sid.
    destruct (RedisBackupManager.selectSnapshot p sid (supabase world1)) as [row|] eqn:Hsel.
    - apply selectSnapshot_elem in Hsel as Hel. destruct Hel as [Hin Hrp].
      eexists. eapply restore_row_fails; eauto.
    - eexists. by apply restore_no_row. }
  split; [|done].
  destruct (RedisBackupManager.selectSnapshot p None (supabase world1)) as [row|] eqn:Hsel.
  - apply selectSnapshot_elem in Hsel as Hel. destruct Hel as [Hin Hrp].
    eapply restore_row_fails; eauto.
  - exfalso. unfold RedisBackupManager.selectSnapshot in Hsel. simpl in Hsel.
    rewrite Hrows, filter_app in Hsel.
    rewrite (filter_cons_True _ new) in Hsel by done.
    destruct (latest_elem (filter (λ row, sn_proposal_id row = p)
                                  (redis_snapshots (supabase world))
                           ++ new :: filter (λ row, sn_proposal_id row = p) []))
      as (r & Hr & _).
    { by destruct (filter _ (redis_snapshots (supabase world))). }
    rewrite Hr in Hsel. done.
Qed.

Lemma restore_after_snapshot_fails_witness :
  ∃ id data world1,
    RedisBackupManager.createSnapshot env0 "p" "manual" scenario1
    = (Ok (SnapshotCreated id data), world1) ∧
    RedisBackupManager.restoreFromSnapshot "p" None world1
    = (Ok (RestoreFailed INVALID_STRUCTURE), world1) ∧
    ∀ sid, ∃ msg, RedisBackupManager.restoreFromSnapshot "p" sid world1
                  = (Ok (RestoreFailed msg), world1).
Proof.
  let t := eval vm_compute in (RedisBackupManager.createSnapshot env0 "p" "manual" scenario1) in
  match t with
  | (Ok (SnapshotCreated ?id ?data), ?w) => pose (id0 := id); pose (data0 := data); pose (w0 := w)
  end.
  exists id0, data0, w0.
  assert (H : RedisBackupManager.createSnapshot env0 "p" "manual" scenario1
              = (Ok (SnapshotCreated id0 data0), w0)) by (vm_compute; reflexivity).
  assert (Hnone : redis_snapshots (supabase scenario1) = []) by (vm_compute; reflexivity).
  refine (conj H (restore_after_snapshot_fails env0 "p" "manual" scenario1 w0 id0 data0 H _)).
  intros row Hrow. rewrite Hnone in Hrow. exact (False_ind _ (proj1 (elem_of_nil row) Hrow)).
Defined.

(** ** Numbers as text *)

Section decimal.
Local Open Scope Z_scope.

Lemma pretty_N_char_digit (d : N) :
  (d < 10)%N → Js.digit_of 10 (pretty_N_char d) = Some (Z.of_N d).
Proof.
  intros H. rewrite <- (N2Nat.id d). assert (Hn : (N.to_nat d < 10)%nat) by lia.
  revert Hn. generalize (N.to_nat d). intros n Hn.
  do 10 (destruct n as [|n]; [reflexivity|]). lia.
Qed.

(** A digit other than 0 is one of the nine characters. *)
Lemma pretty_N_char_leading (d : N) :
  (0 < d < 10)%N → pretty_N_char d ∈ list_ascii_of_string "123456789".
Proof.
  intros H. rewrite <- (N2Nat.id d). assert (Hn : (0 < N.to_nat d < 10)%nat) by lia.
  revert Hn. generalize (N.to_nat d). intros n Hn.
  destruct n as [|n]; [lia|].
  do 9 (destruct n as [|n]; [simpl; rewrite !elem_of_cons; auto 12|]). lia.
Qed.

(** Reading back the digits [pretty] writes. *)
Lemma digits_prefix_pretty_go (x : N) : ∀ s,
  (0 < x)%N →
  Js.digits_prefix 10 None (pretty_N_go x s) = Js.digits_prefix 10 (Some (Z.of_N x)) s.
Proof.
  induction (N.lt_wf_0 x) as [x _ IH]. intros s Hx.
  rewrite pretty_N_go_step by done.
  assert (Hd : (x `mod` 10 < 10)%N) by (apply N.mod_lt; lia).
  destruct (decide (x `div` 10 = 0)%N) as [Hz|Hnz].
  - rewrite Hz, pretty_N_go_0. cbn [Js.digits_prefix].
    rewrite pretty_N_char_digit by done. simpl default.
    f_equal. f_equal. apply N.div_small_iff in Hz; [|done]. rewrite N.mod_small by done. lia.
  - rewrite IH; [|by apply N.div_lt|by apply N.neq_0_lt_0].
    cbn [Js.digits_prefix]. rewrite pretty_N_char_digit by done. simpl default.
    f_equal. f_equal. pose proof (N.div_mod x 10). lia.
Qed.

(** The first character [pretty] writes for a positive number is a digit
    other than 0. *)
Lemma pretty_go_head (x : N) : ∀ s,
  (0 < x)%N → ∃ c r, pretty_N_go x s = String c r ∧ c ∈ list_ascii_of_string "123456789".
Proof.
  induction (N.lt_wf_0 x) as [x _ IH]. intros s Hx.
  rewrite pretty_N_go_step by done.
  destruct (decide (x `div` 10 = 0)%N) as [Hz|Hnz].
  - rewrite Hz, pretty_N_go_0. eexists _, _. split; [done|].
    apply N.div_small_iff in Hz; [|done]. rewrite N.mod_small by done.
    apply pretty_N_char_leading. lia.
  - apply IH; [by apply N.div_lt | by apply N.neq_0_lt_0].
Qed.

Lemma parseInt_pretty_pos (x : positive) :
  Js.parseInt (pretty (N.pos x)) = Some (Z.pos x) ∧
  Js.unsigned_int (pretty (N.pos x)) = Some (Z.pos x).
Proof.
  unfold pretty, pretty_N. rewrite decide_False by done.
  destruct (pretty_go_head (N.pos x) "") as (c & r & Hcr & Hc); [done|].
  assert (Hd : Js.digits_prefix 10 None (pretty_N_go (N.pos x) "") = Some (Z.pos x))
    by exact (digits_prefix_pretty_go (N.pos x) "" eq_refl).
  rewrite Hcr in *. simpl in Hc.
  assert (Hu : Js.unsigned_int (String c r) = Some (Z.pos x)).
  { rewrite <- Hd. repeat (apply elem_of_cons in Hc as [->|Hc]; [reflexivity|]).
    by apply elem_of_nil in Hc. }
  split; [|done]. rewrite <- Hu.
  repeat (apply elem_of_cons in Hc as [->|Hc]; [reflexivity|]).
  by apply elem_of_nil in Hc.
Qed.

Lemma parseInt_pretty (n : Z) : Js.parseInt (pretty n) = Some n.
Proof.
  destruct n as [|x|x].
  - reflexivity.
  - apply parseInt_pretty_pos.
  - change (Js.parseInt (pretty (Z.neg x)))
      with (Z.opp <$> Js.unsigned_int (pretty (N.pos x))).
    by rewrite (proj2 (parseInt_pretty_pos x)).
Qed.

(** A safe integer is written with its decimal digits. *)
Lemma toString_safe (n : Z) : Js.safe n → Js.toString n = pretty n.
Proof.
  unfold Js.safe, Js.toString. intros H%Is_true_true%Z.leb_le.
  destruct (Z.ltb_spec (Z.abs n) (10 ^ 21)) as [_|Hge]; [done|].
  assert (9007199254740991 < 10 ^ 21) by reflexivity. lia.
Qed.

(** [parseInt(n.toString())] is [n]. *)
Lemma parseInt_toString (n : Z) : Js.safe n → Js.parseInt (Js.toString n) = Some n.
Proof. intros H. rewrite toString_safe by done. apply parseInt_pretty. Qed.

Example toString_forms :
  Js.toString 42 = "42" ∧ Js.toString (-7) = "-7" ∧
  Js.toString (10 ^ 21) = "1e+21" ∧ Js.toString (15 * 10 ^ 20) = "1.5e+21" ∧
  Js.toString (- (2 * 10 ^ 22)) = "-2e+22" ∧
  Js.parseInt "1e+21" = Some 1 ∧ Js.parseInt "1.5e+21" = Some 1 ∧ Js.parseInt "NaN" = None.
Proof. by vm_compute. Qed.

End decimal.

(** ** The tally *)

Section leader_loop.
Implicit Types (l : list (jsnum * nat)) (acc : option jsnum * nat).


End leader_loop.





Lemma powerOf_pos vp w : 0 < FinalVoteEngine.powerOf vp w.
Proof. unfold FinalVoteEngine.powerOf. destruct (vp !! w) as [[|n]|]; lia. Qed.

Lemma power_powerOf vp entry :
  power vp entry = FinalVoteEngine.powerOf vp (Js.toLowerCase entry.1).
Proof. reflexivity. Qed.

Lemma power_pos vp entry : 0 < power vp entry.
Proof. rewrite power_powerOf. apply powerOf_pos. Qed.

Section vote_loop.
Variable vp : gmap string nat.
Implicit Types (l : list (string * jsnum)) (s : FinalVoteEngine.tally_state).


Lemma countVote_cast l s :
  FinalVoteEngine.ts_totalVotesCast (foldl (FinalVoteEngine.countVote vp) s l)
  = FinalVoteEngine.ts_totalVotesCast s + sum_list_with (power vp) l.
Proof.
  revert s. induction l as [|[w o1] l IH]; intros s; cbn [foldl].
  - simpl. lia.
  - rewrite IH. cbn [sum_list_with]. rewrite power_powerOf. simpl. lia.
Qed.
End vote_loop.

Lemma initTallies_lookup opts o :
  FinalVoteEngine.initTallies opts !! o = None ∨
  FinalVoteEngine.initTallies opts !! o = Some 0.
Proof.
  unfold FinalVoteEngine.initTallies. destruct opts as [[|a l]|]; try (by left).
  assert (G : ∀ l (m : gmap jsnum nat), (m !! o = None ∨ m !! o = Some 0) →
              let m' := foldl (λ optionTallies option,
                          <[ Num (option_number option) := 0 ]> optionTallies) m l in
              m' !! o = None ∨ m' !! o = Some 0).
  { clear. induction l as [|b l IH]; intros m Hm; simpl; [done|].
    apply IH. destruct (decide (Num (option_number b) = o)) as [->|].
    - right. by rewrite lookup_insert_eq.
    - by rewrite lookup_insert_ne. }
  apply G. by left.
Qed.



Lemma cast_closed_form vp votes opts :
  totalVotesCast (FinalVoteEngine.calculateWeightedResults vp votes opts)
  = sum_list_with (power vp) (map_to_list votes).
Proof.
  unfold FinalVoteEngine.calculateWeightedResults. simpl. by rewrite countVote_cast.
Qed.









(** Scenario 1 (option 1 wins with 3 against 1), a tie at the positive
    maximum, and no vote at all. *)
Example winner_scenario1 :
  winningOption (FinalVoteEngine.calculateWeightedResults
                   {[ "c" := 3; "d" := 1 ]} tieVotes twoOptions) = Some (Num 1).
Proof. by vm_compute. Qed.

Example winner_tie :
  winningOption (FinalVoteEngine.calculateWeightedResults
                   {[ "c" := 2; "d" := 2 ]} tieVotes twoOptions) = None.
Proof. by vm_compute. Qed.

Example winner_no_votes :
  winningOption (FinalVoteEngine.calculateWeightedResults {[ "c" := 2 ]} ∅ twoOptions) = None.
Proof. by vm_compute. Qed.

(** Scenario 3: the sink y never votes, so its power stays out of every
    tally (total voting power above total power cast). *)
Example unvoted_sink_power :
  let r := FinalVoteEngine.calculateWeightedResults
             {[ "y" := 2; "d" := 1 ]} {[ "d" := Num 2 ]} twoOptions in
  totalVotingPower r = 3 ∧ totalVotesCast r = 1 ∧
  optionTallies r !! Num 1 = Some 0 ∧ optionTallies r !! Num 2 = Some 1.
Proof. by vm_compute. Qed.




(** The undeclared option 7 carries power 3 against 1 and wins. *)
Example undeclared_option_wins :
  let r := FinalVoteEngine.calculateWeightedResults
             {[ "a" := 3; "b" := 1 ]} {[ "a" := Num 7; "b" := Num 1 ]} twoOptions in
  optionTallies r !! Num 7 = Some 3 ∧ totalVotesCast r = 4 ∧ winningOption r = Some (Num 7).
Proof. by vm_compute. Qed.

(** ** Voting powers *)

Lemma lower_ascii_idemp c : Js.lower_ascii (Js.lower_ascii c) = Js.lower_ascii c.
Proof. by destruct c as [[] [] [] [] [] [] [] []]. Qed.

Lemma toLowerCase_idemp s : Js.toLowerCase (Js.toLowerCase s) = Js.toLowerCase s.
Proof. induction s as [|c s IH]; simpl; [done|]. by rewrite lower_ascii_idemp, IH. Qed.

(** ** Plain names *)

Section plain_names.
Implicit Types (s : string) (c : ascii).

Lemma alnum_lower c : Js.alnum (Js.lower_ascii c) = Js.alnum c.
Proof. by destruct c as [[] [] [] [] [] [] [] []]. Qed.

Lemma letter_lower c : Js.letter (Js.lower_ascii c) = Js.letter c.
Proof. by destruct c as [[] [] [] [] [] [] [] []]. Qed.

Lemma zero_lower c : Ascii.eqb (Js.lower_ascii c) "0" = Ascii.eqb c "0".
Proof. by destruct c as [[] [] [] [] [] [] [] []]. Qed.

Lemma all_alnum_lower s : Js.all_alnum (Js.toLowerCase s) = Js.all_alnum s.
Proof. induction s as [|c s IH]; simpl; [done|]. by rewrite alnum_lower, IH. Qed.

Lemma prefixed_lower s : Js.prefixed (Js.toLowerCase s) = Js.prefixed s.
Proof.
  destruct s as [|c [|x s]]; simpl; try done.
  by rewrite zero_lower, lower_ascii_idemp.
Qed.

(** The lower-cased form of a plain name is plain. *)
Lemma plain_toLowerCase s : Js.plain s → Js.plain (Js.toLowerCase s).
Proof.
  unfold Js.plain. rewrite all_alnum_lower, prefixed_lower, toLowerCase_idemp.
  destruct s as [|c s]; simpl; [done|]. by rewrite letter_lower.
Qed.

Example plain_examples :
  Js.plain "0xAbC123" ∧ Js.plain "alice" ∧ Js.plain "W3" ∧
  ¬ Js.plain "" ∧ ¬ Js.plain "123" ∧ ¬ Js.plain "1e5" ∧ ¬ Js.plain "null" ∧ ¬ Js.plain "True" ∧
  ¬ Js.plain "constructor" ∧ ¬ Js.plain "__proto__" ∧ ¬ Js.plain "toString" ∧
  ¬ Js.plain "a b".
Proof. by vm_compute. Qed.

Lemma plain_nonempty s : Js.plain s → s ≠ "".
Proof. by intros H ->. Qed.

Lemma plain_truthy s : Js.plain s → Js.truthy (Some s) = Some s.
Proof. by destruct s. Qed.

(** The text [castVote] stores for a safe option number. *)
Lemma vote_text_toString (n : Z) : Js.safe n → vote_text (Js.toString n).
Proof.
  intros H. unfold vote_text. rewrite parseInt_toString by done.
  apply andb_True. split; [done|]. by apply bool_decide_pack.
Qed.

Lemma truthy_toString (n : Z) :
  Js.safe n → Js.truthy (Some (Js.toString n)) = Some (Js.toString n).
Proof.
  intros H. destruct (Js.toString n) eqn:Es; [|done].
  pose proof (parseInt_toString n H) as Hp. rewrite Es in Hp. discriminate.
Qed.
End plain_names.

Section sum_powers.
Implicit Types (vp : gmap string nat).

Lemma sumPowers_sum vp :
  FinalVoteEngine.sumPowers vp = sum_list_with snd (map_to_list vp).
Proof.
  unfold FinalVoteEngine.sumPowers.
  assert (G : ∀ (l : list (string * nat)) n,
             foldl (λ total '(_, power), total + power) n l = n + sum_list_with snd l).
  { induction l as [|[w p] l IH]; intros n; simpl; [lia|]. rewrite IH. lia. }
  by rewrite G.
Qed.

Lemma sumPowers_empty : FinalVoteEngine.sumPowers ∅ = 0.
Proof. by rewrite sumPowers_sum, map_to_list_empty. Qed.

Lemma sumPowers_insert vp w n :
  vp !! w = None → FinalVoteEngine.sumPowers (<[w := n]> vp) = n + FinalVoteEngine.sumPowers vp.
Proof. intros H. by rewrite !sumPowers_sum, map_to_list_insert. Qed.

(** One more unit for [w] is one more unit in the sum. *)
Lemma sumPowers_credit vp w :
  FinalVoteEngine.sumPowers (DelegationEngine.credit vp w) = S (FinalVoteEngine.sumPowers vp).
Proof.
  unfold DelegationEngine.credit. destruct (vp !! w) as [n|] eqn:Hw; simpl.
  - rewrite <- insert_delete_eq, sumPowers_insert by apply lookup_delete_eq.
    rewrite <- (insert_delete_id vp w n Hw) at 2.
    rewrite sumPowers_insert by apply lookup_delete_eq. lia.
  - rewrite sumPowers_insert by done. lia.
Qed.

Lemma sumPowers_filter_nonzero vp :
  FinalVoteEngine.sumPowers (filter (λ '(wallet, power), power ≠ 0) vp)
  = FinalVoteEngine.sumPowers vp.
Proof.
  induction vp as [|w n vp Hw _ IH] using map_first_key_ind.
  - by rewrite map_filter_empty.
  - rewrite sumPowers_insert by done. destruct (decide (n = 0)) as [->|Hn].
    + rewrite map_filter_insert_False by (simpl; lia).
      rewrite delete_id by done. by rewrite IH.
    + rewrite map_filter_insert_True by done.
      rewrite sumPowers_insert; [by rewrite IH|]. by rewrite map_lookup_filter, Hw.
Qed.

Lemma sumPowers_credits {A} (f : A → string) (l : list A) vp :
  FinalVoteEngine.sumPowers (foldl (λ acc x, DelegationEngine.credit acc (f x)) vp l)
  = FinalVoteEngine.sumPowers vp + List.length l.
Proof.
  revert vp. induction l as [|x l IH]; intros vp; simpl; [lia|].
  rewrite IH, sumPowers_credit. lia.
Qed.
End sum_powers.

(** [calculateVotingPowers] hands out one unit per delegator and one per
    entry of the votes map. *)
Lemma calculateVotingPowers_sum {V} (delegationResolution : gmap string string)
      (votesMap : gmap string V) :
  FinalVoteEngine.sumPowers (DelegationEngine.calculateVotingPowers delegationResolution votesMap)
  = size delegationResolution + size votesMap.
Proof.
  unfold DelegationEngine.calculateVotingPowers.
  rewrite sumPowers_filter_nonzero.
  rewrite (sumPowers_credits id), length_fmap, length_map_to_list.
  assert (E : ∀ l vp, foldl (λ votingPowers '(_, finalDelegate),
                         DelegationEngine.credit votingPowers finalDelegate) vp l
              = foldl (λ acc (x : string * string), DelegationEngine.credit acc (snd x)) vp l).
  { induction l as [|[a b] l IH]; intros vp; simpl; [done|]. by rewrite IH. }
  rewrite E, (sumPowers_credits snd), sumPowers_empty, length_map_to_list. lia.
Qed.

Section normalization.
Implicit Types (l : list (string * string)) (acc h : gmap string string).

Lemma foldl_ext_all {A B} (f g : A → B → A) (l : list B) (a : A) :
  (∀ a x, f a x = g a x) → foldl f a l = foldl g a l.
Proof.
  intros H. revert a. induction l as [|x l IH]; intros a; simpl; [done|].
  by rewrite H, IH.
Qed.

Lemma normalizeDelegations_fold h :
  RedisVotingOps.normalizeDelegations h = foldl lowerEntry ∅ (map_to_list h).
Proof.
  unfold RedisVotingOps.normalizeDelegations. apply foldl_ext_all. by intros a [k v].
Qed.

Lemma lowerEntry_normalized l acc :
  normalized acc → normalized (foldl lowerEntry acc l).
Proof.
  revert acc. induction l as [|[k v] l IH]; intros acc Hacc; simpl; [done|].
  apply IH. intros k' v'. unfold lowerEntry. simpl.
  destruct (decide (Js.toLowerCase k = k')) as [<-|Hne].
  - rewrite lookup_insert_eq. intros [= <-]. by rewrite !toLowerCase_idemp.
  - rewrite lookup_insert_ne by done. apply Hacc.
Qed.

Lemma normalizeDelegations_normalized h : normalized (RedisVotingOps.normalizeDelegations h).
Proof. rewrite normalizeDelegations_fold. by apply lowerEntry_normalized. Qed.

Lemma lowerEntry_fixed l acc :
  NoDup l.*1 →
  (∀ k v, (k, v) ∈ l → Js.toLowerCase k = k ∧ Js.toLowerCase v = v) →
  foldl lowerEntry acc l = list_to_map l ∪ acc.
Proof.
  revert acc. induction l as [|[k v] l IH]; intros acc Hnd Hfix.
  - simpl. by rewrite (left_id_L ∅ (∪)).
  - rewrite fmap_cons in Hnd. apply NoDup_cons in Hnd as [Hk Hnd].
    assert (Js.toLowerCase k = k ∧ Js.toLowerCase v = v) as [Ek Ev].
    { apply Hfix. by left. }
    cbn [foldl list_to_map foldr]. rewrite IH; [|done|].
    + unfold lowerEntry. cbn [fst snd]. rewrite Ek, Ev.
      rewrite <- insert_union_l. symmetry. apply insert_union_r.
      by apply not_elem_of_list_to_map_1.
    + intros k' v' Hin. apply Hfix. by right.
Qed.

Lemma buildDelegationGraph_fst delegationMap :
  DelegationEngine.delegations (DelegationEngine.buildDelegationGraph delegationMap)
  = foldl lowerEntry ∅ (map_to_list delegationMap).
Proof.
  unfold DelegationEngine.buildDelegationGraph.
  set (step := λ '(graph, incomingEdges) '(delegator, delegate), _).
  assert (G : ∀ l both, (foldl step both l).1 = foldl lowerEntry both.1 l).
  { induction l as [|[k v] l IH]; intros [g ie]; simpl; [done|]. by rewrite IH. }
  specialize (G (map_to_list delegationMap) (∅, ∅)).
  destruct (foldl step (∅, ∅) (map_to_list delegationMap)) as [g ie]. done.
Qed.

(** On a map that is already normalized the graph is the map itself. *)
Lemma buildDelegationGraph_normalized delegationMap :
  normalized delegationMap →
  DelegationEngine.delegations (DelegationEngine.buildDelegationGraph delegationMap)
  = delegationMap.
Proof.
  intros H. rewrite buildDelegationGraph_fst, lowerEntry_fixed.
  - by rewrite list_to_map_to_list, (right_id_L ∅ (∪)).
  - apply NoDup_fst_map_to_list.
  - intros k v Hin. apply elem_of_map_to_list in Hin. by apply H.
Qed.
End normalization.

(** Every delegator of the graph gets exactly one resolution entry. *)
Lemma resolveAllChains_dom g :
  dom (rc_delegationResolution (DelegationEngine.resolveAllChains g))
  = dom (DelegationEngine.delegations g).
Proof.
  unfold DelegationEngine.resolveAllChains.
  set (step := λ acc delegator, _).
  assert (G : ∀ (l : list string) acc,
             dom (rc_delegationResolution (foldl step acc l))
             = list_to_set l ∪ dom (rc_delegationResolution acc)).
  { induction l as [|k l IH]; intros acc; cbn [foldl list_to_set foldr].
    - by rewrite (left_id_L ∅ (∪)).
    - rewrite IH. replace (dom (rc_delegationResolution (step acc k)))
        with ({[ k ]} ∪ dom (rc_delegationResolution acc)).
      + by rewrite (assoc_L (∪)), (comm_L (∪) _ {[ k ]}).
      + unfold step. cbn [rc_delegationResolution]. by rewrite dom_insert_L. }
  rewrite G. clear G. clearbody step. simpl.
  rewrite dom_empty_L, (right_id_L ∅ (∪)). apply leibniz_equiv.
  by rewrite (dom_alt (DelegationEngine.delegations g)).
Qed.

Lemma resolveAllChains_size g :
  size (rc_delegationResolution (DelegationEngine.resolveAllChains g))
  = size (DelegationEngine.delegations g).
Proof. by rewrite <- !size_dom, resolveAllChains_dom. Qed.

Lemma partitioned_length {V} participants (votesMap : gmap string V) delegationMap :
  partitioned participants votesMap delegationMap →
  List.length participants = size delegationMap + size votesMap.
Proof.
  intros (Hnd & Hin & Hdisj).
  rewrite <- (size_list_to_set (C := gset string)) by done.
  replace (list_to_set participants : gset string) with (dom votesMap ∪ dom delegationMap).
  - rewrite size_union by done. rewrite !size_dom. lia.
  - apply set_eq. intros x. rewrite elem_of_union, elem_of_list_to_set. by rewrite Hin.
Qed.

(** C2 (as the code has it).  For every proposal whose resolution
    completes, the sum of the computed voting powers is the number of
    delegators plus the number of entries of the votes map: each delegator
    gives one unit to its resolved final delegate, each voter one unit to
    itself, and the participant set is not consulted.  The sum is the size
    of the participant set when the participants are exactly the voters and
    the delegators and no wallet is both.  The keys of the proposal hold
    ordinary contents. *)
Theorem voting_power_sum (e : env) (p : string) (world world' : world) (r : resolution) :
  ordinary p world →
  DelegationEngine.resolveBulkDelegations e p world = (Ok (BulkSuccess r), world') →
  ∃ delegationMap votesMap participants,
    RedisVotingOps.getAllDelegations p world = (Ok delegationMap, world) ∧
    RedisVotingOps.getAllVotes p world = (Ok votesMap, world) ∧
    RedisVotingOps.getAllParticipants p world = (Ok participants, world) ∧
    delegators (metadata r) = size delegationMap ∧
    totalParticipants (metadata r) = List.length participants ∧
    FinalVoteEngine.sumPowers (votingPowers r) = size delegationMap + size votesMap ∧
    (partitioned participants votesMap delegationMap →
     FinalVoteEngine.sumPowers (votingPowers r) = List.length participants).
Proof.
  unfold DelegationEngine.resolveBulkDelegations, Async.try_catch. intros _ H.
  destruct (Async.bind _ _ world) as [[res|msg] w1] eqn:Hb.
  2:{ unfold Async.bind, DelegationEngine.saveErrorAudit, Async.db_wr, Async.ret in H.
      simplify_eq. }
  simplify_eq.
  apply bind_ok in Hb as (delegationMap & w2 & Hd & Hb).
  apply bind_ok in Hb as (votesMap & w3 & Hv & Hb).
  apply bind_ok in Hb as (participants & w4 & Hp & Hb).
  apply bind_ok in Hb as (u & w5 & Hs & Hb).
  unfold Async.ret in Hb. simplify_eq.
  assert (w2 = world) as ->.
  { unfold RedisVotingOps.getAllDelegations, Async.bind in Hd. rewrite rd_eq in Hd.
    destruct (hgetall _ _); unfold Async.ret in Hd; by simplify_eq. }
  assert (w3 = world) as ->.
  { unfold RedisVotingOps.getAllVotes, Async.bind in Hv. rewrite rd_eq in Hv.
    destruct (hgetall _ _); unfold Async.ret in Hv; by simplify_eq. }
  assert (w4 = world) as ->.
  { unfold RedisVotingOps.getAllParticipants in Hp. rewrite rd_eq in Hp. by simplify_eq. }
  assert (Hnorm : normalized delegationMap).
  { unfold RedisVotingOps.getAllDelegations, Async.bind in Hd. rewrite rd_eq in Hd.
    destruct (hgetall _ _); unfold Async.ret in Hd; simplify_eq.
    apply normalizeDelegations_normalized. }
  assert (Hsum : FinalVoteEngine.sumPowers
                   (DelegationEngine.calculateVotingPowers
                      (rc_delegationResolution
                         (DelegationEngine.resolveAllChains
                            (DelegationEngine.buildDelegationGraph delegationMap))) votesMap)
                 = size delegationMap + size votesMap).
  { rewrite calculateVotingPowers_sum, resolveAllChains_size.
    by rewrite buildDelegationGraph_normalized. }
  exists delegationMap, votesMap, participants. simpl.
  split_and!; try done.
  - apply length_map_to_list.
  - intros Hpart. rewrite Hsum. symmetry. by apply partitioned_length.
Qed.

Lemma voting_power_sum_witness :
  ∃ r world',
    DelegationEngine.resolveBulkDelegations env0 "p" scenario1 = (Ok (BulkSuccess r), world') ∧
    ∃ delegationMap votesMap participants,
      RedisVotingOps.getAllDelegations "p" scenario1 = (Ok delegationMap, scenario1) ∧
      RedisVotingOps.getAllVotes "p" scenario1 = (Ok votesMap, scenario1) ∧
      RedisVotingOps.getAllParticipants "p" scenario1 = (Ok participants, scenario1) ∧
      delegators (metadata r) = size delegationMap ∧
      totalParticipants (metadata r) = List.length participants ∧
      FinalVoteEngine.sumPowers (votingPowers r) = size delegationMap + size votesMap ∧
      (partitioned participants votesMap delegationMap →
       FinalVoteEngine.sumPowers (votingPowers r) = List.length participants).
Proof.
  let t := eval vm_compute in (DelegationEngine.resolveBulkDelegations env0 "p" scenario1) in
  match t with (Ok (BulkSuccess ?r), ?w) => pose (r0 := r); pose (w0 := w) end.
  exists r0, w0.
  assert (H : DelegationEngine.resolveBulkDelegations env0 "p" scenario1
              = (Ok (BulkSuccess r0), w0)) by (vm_compute; reflexivity).
  assert (Hord : ordinary "p" scenario1).
  { apply (bool_decide_unpack _). vm_compute. exact I. }
  exact (conj H (voting_power_sum env0 "p" scenario1 w0 r0 Hord H)).
Defined.

(** Scenario 1: C holds power 3 (A, B and itself), D power 1; four
    participants, four units. *)
Example scenario1_powers :
  match (DelegationEngine.resolveBulkDelegations env0 "p" scenario1).1 with
  | Ok (BulkSuccess r) =>
      votingPowers r = {[ "c" := 3; "d" := 1 ]} ∧
      delegationResolution r = {[ "a" := "c"; "b" := "c" ]} ∧
      FinalVoteEngine.sumPowers (votingPowers r) = 4 ∧ totalParticipants (metadata r) = 4
  | _ => False
  end.
Proof. by vm_compute. Qed.

(** The claim as written fails after a removal: the wallet stays in the
    participant set and contributes no unit. *)
Lemma power_sum_counterexample :
  (RedisVotingOps.castVote "p" "a" 1 emptyWorld).1 = Ok true ∧
  (RedisVotingOps.removeVote "p" "a" (RedisVotingOps.castVote "p" "a" 1 emptyWorld).2).1 = Ok 1 ∧
  ∃ r world',
    DelegationEngine.resolveBulkDelegations env0 "p" after_removal = (Ok (BulkSuccess r), world') ∧
    RedisVotingOps.getAllParticipants "p" after_removal = (Ok ["a"], after_removal) ∧
    FinalVoteEngine.sumPowers (votingPowers r) = 0 ∧
    totalParticipants (metadata r) = 1 ∧
    FinalVoteEngine.sumPowers (votingPowers r) ≠ totalParticipants (metadata r).
Proof.
  split; [by vm_compute|]. split; [by vm_compute|].
  eexists _, _. split; [vm_compute; reflexivity|].
  split; [by vm_compute|]. split_and!; [reflexivity | reflexivity | discriminate].
Qed.

(** ** Walking delegation chains *)

Lemma default_last_cons {A} (x y : A) (l : list A) :
  default x (last l) = default y (last (x :: l)).
Proof.
  destruct l as [|a l]; [done|]. change (last (x :: a :: l)) with (last (a :: l)).
  destruct (last (a :: l)) eqn:E; [done|]. by apply last_None in E.
Qed.


Section hops.
Variable d : gmap string string.

Lemma hop_add a b x : hop d (a + b) x = hop d a x ≫= hop d b.
Proof.
  revert x. induction a as [|a IH]; intros x; simpl; [done|].
  destruct (Js.truthy (d !! x)); [apply IH | done].
Qed.

Lemma hop_S_r n x : hop d (S n) x = hop d n x ≫= λ y, Js.truthy (d !! y).
Proof.
  replace (S n) with (n + 1) by lia. rewrite hop_add.
  destruct (hop d n x) as [y|]; simpl; [|done]. by destruct (Js.truthy (d !! y)).
Qed.

Lemma hop_sink_stop n m x s :
  hop d n x = Some s → sink d s → n < m → hop d m x = None.
Proof.
  intros Hn Hs Hlt. replace m with (n + S (m - S n)) by lia.
  rewrite hop_add, Hn. simpl. by rewrite Hs.
Qed.

Lemma chain_from_hop x l y :
  chain_from d x l → last (x :: l) = Some y → hop d (List.length l) x = Some y.
Proof.
  revert x. induction l as [|z l IH]; intros x; simpl.
  - by intros _ [= ->].
  - intros [-> Hc] Hl. apply IH; [done|]. by destruct l.
Qed.

(** A map whose every edge climbs some rank has no cycle. *)
Lemma acyclic_by_rank (rank : string → nat) :
  (∀ k v, Js.truthy (d !! k) = Some v → rank k < rank v) → acyclic d.
Proof.
  intros Hrank.
  assert (G : ∀ n x y, hop d n x = Some y → rank x + n ≤ rank y).
  { induction n as [|n IH]; intros x y; simpl.
    - intros [= ->]. lia.
    - destruct (Js.truthy (d !! x)) as [z|] eqn:Hx; [|done].
      intros Hy. apply IH in Hy. apply Hrank in Hx. lia. }
  intros x n Hn Hx. apply G in Hx. lia.
Qed.

(** The loop of [resolveChainForUser]: it makes [m] hops, at most [n], and
    on an acyclic map it stops early only at a sink. *)
Lemma follow_spec n visited path current :
  ∃ m l, m ≤ n ∧ List.length l = m ∧
         DelegationEngine.follow d n visited path current
         = (default current (last l), path ++ l) ∧
         chain_from d current l ∧
         (acyclic d → (∀ x, x ∈ visited → ∃ j, hop d j x = Some current) →
          m = n ∨ sink d (default current (last l))).
Proof.
  revert visited path current. induction n as [|n IH]; intros visited path current.
  - exists 0, []. simpl. rewrite app_nil_r. split_and!; try done; auto.
  - simpl. destruct (Js.truthy (d !! current)) as [next|] eqn:Hnext.
    2:{ exists 0, []. simpl. rewrite app_nil_r. split_and!; try done; [lia|auto]. }
    destruct (decide (next ∈ visited)) as [Hin|Hnin].
    { exists 0, []. simpl. rewrite app_nil_r. split_and!; try done; [lia|].
      intros Hac Hvis. exfalso. destruct (Hvis next Hin) as [j Hj].
      apply (Hac next (S j)); [lia|]. by rewrite hop_S_r, Hj. }
    destruct (IH ({[next]} ∪ visited) (path ++ [next]) next)
      as (m & l & Hm & Hlen & Hf & Hc & Hend).
    exists (S m), (next :: l). split_and!; [lia | simpl; by rewrite Hlen | | by split |].
    + rewrite Hf, <- app_assoc. simpl. f_equal. apply default_last_cons.
    + intros Hac Hvis.
      assert (Hd : default next (last l) = default current (last (next :: l)))
        by apply default_last_cons.
      rewrite <- Hd.
      assert (Hvis' : ∀ x, x ∈ {[next]} ∪ visited → ∃ j, hop d j x = Some next).
      { intros x [->%elem_of_singleton|Hx]%elem_of_union; [by exists 0|].
        destruct (Hvis x Hx) as [j Hj]. exists (S j). by rewrite hop_S_r, Hj. }
      destruct (Hend Hac Hvis') as [->|Hs]; [by left | by right].
Qed.
End hops.

(** C5 (as the code has it).  For every delegation map between wallets
    with plain names and every such start wallet,
    [resolveChainForUser] returns; the recorded path starts at the wallet,
    follows the edges, ends at the final delegate and has at most 101
    entries (the start and at most 100 hops).  On an acyclic map the final
    delegate is a sink unless the walk used all its 100 hops; in
    particular, a sink lying within 100 hops of the start is the final
    delegate, with a path of hops + 1 wallets. *)
Theorem chain_resolution (delegations : gmap string string) (startWallet : string) :
  plain_names delegations →
  Js.plain startWallet →
  let r := DelegationEngine.resolveChainForUser startWallet delegations in
  ∃ l, path r = startWallet :: l ∧ chain_from delegations startWallet l ∧
       last (path r) = Some (finalDelegate r) ∧
       chain_length r = List.length (path r) ∧ chain_length r ≤ 101 ∧
       (acyclic delegations →
        (sink delegations (finalDelegate r) ∨ chain_length r = 101) ∧
        ∀ k s, k ≤ 100 → hop delegations k startWallet = Some s → sink delegations s →
               finalDelegate r = s ∧ chain_length r = k + 1).
Proof.
  intros _ _. unfold DelegationEngine.resolveChainForUser.
  destruct (follow_spec delegations DelegationEngine.MAX_CHAIN_LENGTH
              {[startWallet]} [startWallet] startWallet)
    as (m & l & Hm & Hlen & -> & Hc & Hend).
  unfold DelegationEngine.MAX_CHAIN_LENGTH in *. simpl.
  assert (Hlast : last (startWallet :: l) = Some (default startWallet (last l))).
  { rewrite (default_last_cons _ startWallet). by destruct (last (startWallet :: l)) eqn:E;
      [|apply last_None in E]. }
  exists l. split_and!; try done; [simpl; lia|].
  intros Hac.
  assert (Hend' : m = 100 ∨ sink delegations (default startWallet (last l))).
  { apply Hend; [done|]. intros x ->%elem_of_singleton. by exists 0. }
  pose proof (chain_from_hop delegations _ _ _ Hc Hlast) as Hhop. rewrite Hlen in Hhop.
  split.
  - destruct Hend' as [->|Hs]; [right; simpl; lia | by left].
  - intros k s Hk Hks Hsink.
    assert (k = m) as ->.
    { destruct (Nat.lt_trichotomy k m) as [Hlt|[->|Hgt]]; [|done|].
      - by rewrite (hop_sink_stop delegations k m _ s) in Hhop.
      - destruct Hend' as [->|Hs]; [lia|].
        by rewrite (hop_sink_stop delegations m k _ _ Hhop Hs) in Hks. }
    split; [congruence | simpl; lia].
Qed.

Lemma scenario1_acyclic : acyclic scenario1_delegations.
Proof.
  apply (acyclic_by_rank _ rank3). intros k v Hkv.
  assert (Hl : scenario1_delegations !! k = Some v).
  { unfold Js.truthy in Hkv. by destruct (scenario1_delegations !! k) as [[|]|]; simplify_eq. }
  unfold scenario1_delegations in Hl.
  apply lookup_insert_Some in Hl as [[<- <-]|[_ Hl]]; [by vm_compute|].
  apply lookup_singleton_Some in Hl as [<- <-]. by vm_compute.
Qed.

Lemma chain_resolution_witness :
  finalDelegate (DelegationEngine.resolveChainForUser "a" scenario1_delegations) = "c" ∧
  chain_length (DelegationEngine.resolveChainForUser "a" scenario1_delegations) = 2 + 1.
Proof.
  assert (Hnames : plain_names scenario1_delegations).
  { apply (bool_decide_unpack _). vm_compute. exact I. }
  destruct (chain_resolution scenario1_delegations "a" Hnames I)
    as (l & _ & _ & _ & _ & _ & H).
  apply (H scenario1_acyclic); [lia | by vm_compute | by vm_compute].
Defined.

Lemma wallet_length n : String.length (wallet n) = S n.
Proof. induction n as [|n IH]; simpl; [done | by rewrite IH]. Qed.

Lemma longChain_acyclic n : acyclic (longChain n).
Proof.
  apply (acyclic_by_rank _ String.length). intros k v Hkv.
  assert (Hl : longChain n !! k = Some v).
  { unfold Js.truthy in Hkv. by destruct (longChain n !! k) as [[|]|]; simplify_eq. }
  apply elem_of_list_to_map_2, list_elem_of_fmap in Hl as (i & [= -> ->] & _).
  change (String "w" (wallet i)) with (wallet (S i)). rewrite !wallet_length. lia.
Qed.

(** The claim as written fails on an acyclic chain of 101 delegations:
    the walk from its first wallet stops after 100 hops at a wallet that
    still delegates, with a recorded path of 101 wallets. *)
Lemma long_chain_counterexample :
  plain_names (longChain 101) ∧
  acyclic (longChain 101) ∧
  longChain 101 !! wallet 0 = Some (wallet 1) ∧
  let r := DelegationEngine.resolveChainForUser (wallet 0) (longChain 101) in
  finalDelegate r = wallet 100 ∧
  ¬ sink (longChain 101) (finalDelegate r) ∧
  chain_length r = 101 ∧ ¬ chain_length r ≤ 100.
Proof.
  split; [apply (bool_decide_unpack _); vm_compute; exact I|].
  split; [apply longChain_acyclic|]. split; [by vm_compute|].
  assert (H : DelegationEngine.resolveChainForUser (wallet 0) (longChain 101)
              = ChainResult (wallet 100) (wallet <$> seq 0 101) 101) by by vm_compute.
  rewrite H. simpl. split_and!; [done | | done | lia].
  unfold sink. by vm_compute.
Qed.

(** ** Cycle detection *)

Section walk.
Variables (sim : gmap string string) (delegator : string).

End walk.





(** The cycle a -> b -> c -> a is found with its whole path, and an edge
    that closes no cycle is let through. *)
Example cycle_of_three :
  (RedisVotingOps.detectCyclesDFS "p" "C" "A" scenario1).1 = Ok (CYCLE ["a"; "b"; "c"]).
Proof. by vm_compute. Qed.

Example no_cycle :
  (RedisVotingOps.detectCyclesDFS "p" "D" "A" scenario1).1
  = Ok {| hasCycle := false; cyclePath := None; reason := None |}.
Proof. by vm_compute. Qed.

(* ===================================================================== *)
(** * Further properties of the code *)
(* ===================================================================== *)

#[local] Set Warnings "-clear-no-such-hyp".

(** ** Key names, store views and decimal strings *)

Section key_names.
Implicit Types (p q a b : string).

Lemma list_ascii_app a b :
  list_ascii_of_string (a +:+ b) = list_ascii_of_string a ++ list_ascii_of_string b.
Proof. induction a as [|c a IH]; simpl; [done|]. by rewrite IH. Qed.

Lemma string_app_inv_tail a b s : a +:+ s = b +:+ s → a = b.
Proof.
  intros H. apply (f_equal list_ascii_of_string) in H. rewrite !list_ascii_app in H.
  apply app_inv_tail in H. apply (f_equal string_of_list_ascii) in H.
  by rewrite !string_of_list_ascii_of_string in H.
Qed.

(** Two keys that end differently differ, whatever stands before. *)
Lemma suffix_clash a b s1 s2 :
  (∀ x y, reverse (list_ascii_of_string s1) ++ x ≠ reverse (list_ascii_of_string s2) ++ y) →
  a +:+ s1 ≠ b +:+ s2.
Proof.
  intros Hc H. apply (f_equal list_ascii_of_string) in H. rewrite !list_ascii_app in H.
  apply (f_equal reverse) in H. rewrite !reverse_app in H. by apply Hc in H.
Qed.
End key_names.

Ltac key_clash :=
  let H := fresh in
  intros H%String.app_inj; revert H; apply suffix_clash; intros ? ?; vm_compute; discriminate.

Section store_views.
Implicit Types (st : store) (key field : string).

Lemma hashAt_insert key h st : hashAt key (<[key := RHash h]> st) = h.
Proof. unfold hashAt. by rewrite lookup_insert_eq. Qed.

Lemma hashAt_frame key k st st' : st' !! k = st !! k → hashAt k st' = hashAt k st.
Proof. unfold hashAt. by intros ->. Qed.

Lemma setAt_frame key k st st' : st' !! k = st !! k → setAt k st' = setAt k st.
Proof. unfold setAt. by intros ->. Qed.

Lemma hset_spec key field value st :
  hash_or_absent (st !! key) →
  ∃ n, hset key {[ field := value ]} st
       = (Ok n, <[key := RHash (<[field := value]> (hashAt key st))]> st).
Proof.
  unfold hset, hashAt. rewrite decide_False by apply insert_non_empty.
  destruct (st !! key) as [[s|h|s]|]; simpl; try done; intros _; eexists.
  - rewrite (insert_union_singleton_l h). reflexivity.
  - rewrite insert_empty. reflexivity.
Qed.

Lemma sadd_spec key member st :
  set_or_absent (st !! key) →
  ∃ n, sadd key [member] st = (Ok n, <[key := RSet ({[member]} ∪ setAt key st)]> st).
Proof.
  unfold sadd, setAt. destruct (st !! key) as [[s|h|s]|]; simpl; try done; intros _; eexists.
  - by rewrite (right_id_L ∅ (∪)).
  - by rewrite !(right_id_L ∅ (∪)).
Qed.

Lemma hdel_spec key field st :
  hash_or_absent (st !! key) →
  ∃ n st', hdel key field st = (Ok n, st') ∧
           hashAt key st' = delete field (hashAt key st) ∧
           hash_or_absent (st' !! key) ∧
           (∀ k, k ≠ key → st' !! k = st !! k) ∧
           (n = if decide (is_Some (hashAt key st !! field)) then 1 else 0).
Proof.
  intros H. unfold hdel, hashAt.
  destruct (st !! key) as [[s|h|s]|] eqn:Hk; simpl in H; try done.
  - destruct (h !! field) as [v|] eqn:Hf.
    + eexists _, _. split_and!; [done| | | |].
      * case_decide as He.
        -- by rewrite lookup_delete_eq.
        -- by rewrite lookup_insert_eq.
      * case_decide; [by rewrite lookup_delete_eq | by rewrite lookup_insert_eq].
      * intros k Hne. case_decide; [by rewrite lookup_delete_ne | by rewrite lookup_insert_ne].
      * by rewrite decide_True by eauto.
    + eexists _, _. split_and!; [done| | | done |].
      * rewrite Hk. by rewrite delete_id.
      * by rewrite Hk.
      * rewrite decide_False; [done|]. by intros [? ?].
  - eexists _, _. split_and!; [done| | | done |].
    + rewrite Hk. by rewrite delete_empty.
    + by rewrite Hk.
    + rewrite decide_False; [done|]. rewrite lookup_empty. by intros [? ?].
Qed.
End store_views.

Section key_facts.
Implicit Types (p q : string).

Lemma votes_ne_delegations' p q : REDIS_KEYS.votes p ≠ REDIS_KEYS.delegations q.
Proof. unfold REDIS_KEYS.votes, REDIS_KEYS.delegations. key_clash. Qed.
Lemma votes_ne_participants' p q : REDIS_KEYS.votes p ≠ REDIS_KEYS.participants q.
Proof. unfold REDIS_KEYS.votes, REDIS_KEYS.participants. key_clash. Qed.
Lemma delegations_ne_participants' p q : REDIS_KEYS.delegations p ≠ REDIS_KEYS.participants q.
Proof. unfold REDIS_KEYS.delegations, REDIS_KEYS.participants. key_clash. Qed.

Lemma votes_key_inj p q : REDIS_KEYS.votes p = REDIS_KEYS.votes q → p = q.
Proof. unfold REDIS_KEYS.votes. intros H%String.app_inj. by apply string_app_inv_tail in H. Qed.
Lemma delegations_key_inj p q : REDIS_KEYS.delegations p = REDIS_KEYS.delegations q → p = q.
Proof.
  unfold REDIS_KEYS.delegations. intros H%String.app_inj. by apply string_app_inv_tail in H.
Qed.
Lemma participants_key_inj p q : REDIS_KEYS.participants p = REDIS_KEYS.participants q → p = q.
Proof.
  unfold REDIS_KEYS.participants. intros H%String.app_inj. by apply string_app_inv_tail in H.
Qed.

End key_facts.


(** ** Footprints of the writes *)

Section footprint.
Context {A B : Type}.
Implicit Types (K : string → Prop) (w : world).

Lemma within_refl K w : within K w w.
Proof. by split. Qed.

Lemma within_trans K w1 w2 w3 : within K w1 w2 → within K w2 w3 → within K w1 w3.
Proof.
  intros [H1 H1'] [H2 H2']. split; [congruence|]. intros k Hk. by rewrite H2', H1'.
Qed.

Lemma within_weaken K K' w1 w2 : (∀ k, K k → K' k) → within K w1 w2 → within K' w1 w2.
Proof. intros HK [H1 H2]. split; [done|]. intros k Hk. apply H2. naive_solver. Qed.

Lemma bind_within K (m : M A) (k : A → M B) :
  (∀ w, within K w (m w).2) → (∀ a w, within K w (k a w).2) →
  ∀ w, within K w (Async.bind m k w).2.
Proof.
  intros Hm Hk w. unfold Async.bind. specialize (Hm w).
  destruct (m w) as [[a|e] w1]; simpl in *; [|done].
  eapply within_trans; [done|apply Hk].
Qed.

Lemma try_within K (m : M A) (h : string → M A) :
  (∀ w, within K w (m w).2) → (∀ e w, within K w (h e w).2) →
  ∀ w, within K w (Async.try_catch m h w).2.
Proof.
  intros Hm Hh w. unfold Async.try_catch. specialize (Hm w).
  destruct (m w) as [[a|e] w1]; simpl in *; [done|].
  eapply within_trans; [done|apply Hh].
Qed.

Lemma wr_within K (c : store → result A * store) :
  (∀ st k, ¬ K k → (c st).2 !! k = st !! k) → ∀ w, within K w (Async.wr c w).2.
Proof.
  intros Hc w. unfold Async.wr. specialize (Hc (redis w)).
  destruct (c (redis w)) as [r st]. by split.
Qed.

Lemma rd_within K (f : store → result A) w : within K w (Async.rd f w).2.
Proof. apply within_refl. Qed.

Lemma ret_within K (a : A) w : within K w (Async.ret a w).2.
Proof. apply within_refl. Qed.

Lemma throw_within K e w : within K w (Async.throw (A := A) e w).2.
Proof. apply within_refl. Qed.
End footprint.

Section command_frames.
Implicit Types (st : store) (key : string).

Lemma hset_frame key fields st k : k ≠ key → (hset key fields st).2 !! k = st !! k.
Proof.
  intros Hne. unfold hset. case_decide; [done|].
  destruct (st !! key) as [[s|h|s]|]; simpl; try done; by rewrite lookup_insert_ne.
Qed.

Lemma sadd_frame key members st k : k ≠ key → (sadd key members st).2 !! k = st !! k.
Proof.
  intros Hne. unfold sadd. destruct members as [|m ms]; [done|].
  destruct (st !! key) as [[s|h|s]|]; simpl; try done; by rewrite lookup_insert_ne.
Qed.

Lemma hdel_frame' key field st k : k ≠ key → (hdel key field st).2 !! k = st !! k.
Proof.
  intros Hne. destruct (hdel key field st) as [r st'] eqn:E. simpl.
  by eapply hdel_frame.
Qed.

Lemma set_frame key value st k : k ≠ key → (set key value st).2 !! k = st !! k.
Proof. intros Hne. unfold set. simpl. by rewrite lookup_insert_ne. Qed.

Lemma del1_frame key st k : k ≠ key → (del1 key st).2 !! k = st !! k.
Proof.
  intros Hne. unfold del1. destruct (st !! key); simpl; [|done]. by rewrite lookup_delete_ne.
Qed.
End command_frames.

Lemma castVote_within p w o world :
  within (keysOf p) world (RedisVotingOps.castVote p w o world).2.
Proof.
  unfold RedisVotingOps.castVote. apply try_within; [|intros; apply throw_within].
  intros w0. apply bind_within.
  { apply wr_within. intros st k Hk. apply hset_frame. unfold keysOf in Hk. naive_solver. }
  intros _. apply bind_within.
  { apply wr_within. intros st k Hk. apply sadd_frame. unfold keysOf in Hk. naive_solver. }
  intros _. apply bind_within.
  { apply wr_within. intros st k Hk. apply hdel_frame'. unfold keysOf in Hk. naive_solver. }
  intros; apply ret_within.
Qed.

Lemma setDelegation_within p w d world :
  within (keysOf p) world (RedisVotingOps.setDelegation p w d world).2.
Proof.
  unfold RedisVotingOps.setDelegation. apply try_within; [|intros; apply throw_within].
  intros w0. apply bind_within.
  { apply wr_within. intros st k Hk. apply hset_frame. unfold keysOf in Hk. naive_solver. }
  intros _. apply bind_within.
  { apply wr_within. intros st k Hk. apply sadd_frame. unfold keysOf in Hk. naive_solver. }
  intros _. apply bind_within.
  { apply wr_within. intros st k Hk. apply hdel_frame'. unfold keysOf in Hk. naive_solver. }
  intros; apply ret_within.
Qed.

Lemma removeVote_within p w world :
  within (keysOf p) world (RedisVotingOps.removeVote p w world).2.
Proof.
  unfold RedisVotingOps.removeVote. apply wr_within. intros st k Hk.
  apply hdel_frame'. unfold keysOf in Hk. naive_solver.
Qed.

Lemma removeDelegation_within p w world :
  within (keysOf p) world (RedisVotingOps.removeDelegation p w world).2.
Proof.
  unfold RedisVotingOps.removeDelegation. apply wr_within. intros st k Hk.
  apply hdel_frame'. unfold keysOf in Hk. naive_solver.
Qed.

Lemma perform_within p a world : within (keysOf p) world (perform p a world).2.
Proof.
  destruct a; simpl; apply bind_within; try (intros; apply ret_within); intros w0.
  - apply castVote_within.
  - apply setDelegation_within.
  - apply removeVote_within.
  - apply removeDelegation_within.
Qed.

Lemma keysOf_other p q k : p ≠ q → keysOf q k → ¬ keysOf p k.
Proof.
  intros Hne [->|[->| ->]] [H|[H|H]]; revert H.
  - by intros ?%votes_key_inj.
  - apply votes_ne_delegations'.
  - apply votes_ne_participants'.
  - apply not_eq_sym, votes_ne_delegations'.
  - by intros ?%delegations_key_inj.
  - apply delegations_ne_participants'.
  - apply not_eq_sym, votes_ne_participants'.
  - apply not_eq_sym, delegations_ne_participants'.
  - by intros ?%participants_key_inj.
Qed.

Lemma cooldown_not_keysOf p u q : ¬ keysOf p (REDIS_KEYS.cooldown u q).
Proof.
  unfold keysOf, REDIS_KEYS.cooldown, REDIS_KEYS.votes, REDIS_KEYS.delegations,
    REDIS_KEYS.participants. intros [H|[H|H]]; discriminate.
Qed.

(** ** The operations on the views *)

Section operations.
Implicit Types (p w d : string) (o : Z) (world : world).

Lemma castVote_spec p w o world :
  well_typed p (redis world) →
  ∃ world', RedisVotingOps.castVote p w o world = (Ok true, world') ∧
    votesOf p world' = <[Js.toLowerCase w := Js.toString o]> (votesOf p world) ∧
    delegationsOf p world' = delete (Js.toLowerCase w) (delegationsOf p world) ∧
    participantsOf p world' = {[Js.toLowerCase w]} ∪ participantsOf p world ∧
    well_typed p (redis world') ∧
    within (keysOf p) world world'.
Proof.
  intros (Hv & Hd & Hp).
  unfold RedisVotingOps.castVote. rewrite try_rethrow.
  destruct (hset_spec (REDIS_KEYS.votes p) (Js.toLowerCase w) (Js.toString o) _ Hv) as (n1 & E1).
  set (st1 := <[REDIS_KEYS.votes p := _]> (redis world)) in *.
  destruct (sadd_spec (REDIS_KEYS.participants p) (Js.toLowerCase w) st1) as (n2 & E2).
  { unfold st1. by rewrite lookup_insert_ne by apply votes_ne_participants. }
  set (st2 := <[REDIS_KEYS.participants p := _]> st1) in *.
  destruct (hdel_spec (REDIS_KEYS.delegations p) (Js.toLowerCase w) st2)
    as (n3 & st3 & E3 & Hh3 & Hd3 & Hf3 & _).
  { unfold st2, st1. rewrite lookup_insert_ne by apply not_eq_sym, delegations_ne_participants.
    by rewrite lookup_insert_ne by apply votes_ne_delegations. }
  exists (World st3 (supabase world)).
  assert (Hvk : st3 !! REDIS_KEYS.votes p
                = Some (RHash (<[Js.toLowerCase w := Js.toString o]> (votesOf p world)))).
  { rewrite Hf3 by apply votes_ne_delegations. unfold st2, st1.
    rewrite lookup_insert_ne by apply not_eq_sym, votes_ne_participants.
    by rewrite lookup_insert_eq. }
  assert (Hpk : st3 !! REDIS_KEYS.participants p
                = Some (RSet ({[Js.toLowerCase w]} ∪ setAt (REDIS_KEYS.participants p) st1))).
  { rewrite Hf3 by apply not_eq_sym, delegations_ne_participants. unfold st2.
    by rewrite lookup_insert_eq. }
  split_and!.
  - rewrite (bind_eq _ _ _ _ _ (wr_eq _ _ _ _ E1)).
    rewrite (bind_eq _ _ _ _ _ (wr_eq _ (World st1 _) _ _ E2)).
    by rewrite (bind_eq _ _ _ _ _ (wr_eq _ (World st2 _) _ _ E3)).
  - unfold votesOf, hashAt at 1. simpl. by rewrite Hvk.
  - unfold delegationsOf. simpl. rewrite Hh3. f_equal. unfold hashAt, st2, st1.
    rewrite lookup_insert_ne by apply not_eq_sym, delegations_ne_participants.
    by rewrite lookup_insert_ne by apply votes_ne_delegations.
  - unfold participantsOf, setAt at 1. simpl. rewrite Hpk. f_equal. unfold setAt, st1.
    by rewrite lookup_insert_ne by apply votes_ne_participants.
  - simpl. split_and!; [by rewrite Hvk | done | by rewrite Hpk].
  - split; [done|]. simpl. intros k Hk. unfold keysOf in Hk.
    rewrite Hf3 by naive_solver. unfold st2, st1.
    by rewrite !lookup_insert_ne by naive_solver.
Qed.

Lemma setDelegation_spec p w d world :
  well_typed p (redis world) →
  ∃ world', RedisVotingOps.setDelegation p w d world = (Ok true, world') ∧
    delegationsOf p world' = <[Js.toLowerCase w := Js.toLowerCase d]> (delegationsOf p world) ∧
    votesOf p world' = delete (Js.toLowerCase w) (votesOf p world) ∧
    participantsOf p world' = {[Js.toLowerCase w]} ∪ participantsOf p world ∧
    well_typed p (redis world') ∧
    within (keysOf p) world world'.
Proof.
  intros (Hv & Hd & Hp).
  unfold RedisVotingOps.setDelegation. rewrite try_rethrow.
  destruct (hset_spec (REDIS_KEYS.delegations p) (Js.toLowerCase w) (Js.toLowerCase d) _ Hd)
    as (n1 & E1).
  set (st1 := <[REDIS_KEYS.delegations p := _]> (redis world)) in *.
  destruct (sadd_spec (REDIS_KEYS.participants p) (Js.toLowerCase w) st1) as (n2 & E2).
  { unfold st1. by rewrite lookup_insert_ne by apply delegations_ne_participants. }
  set (st2 := <[REDIS_KEYS.participants p := _]> st1) in *.
  destruct (hdel_spec (REDIS_KEYS.votes p) (Js.toLowerCase w) st2)
    as (n3 & st3 & E3 & Hh3 & Hd3 & Hf3 & _).
  { unfold st2, st1. rewrite lookup_insert_ne by apply not_eq_sym, votes_ne_participants.
    by rewrite lookup_insert_ne by apply not_eq_sym, votes_ne_delegations. }
  exists (World st3 (supabase world)).
  assert (Hdk : st3 !! REDIS_KEYS.delegations p
                = Some (RHash (<[Js.toLowerCase w := Js.toLowerCase d]> (delegationsOf p world)))).
  { rewrite Hf3 by apply not_eq_sym, votes_ne_delegations. unfold st2, st1.
    rewrite lookup_insert_ne by apply not_eq_sym, delegations_ne_participants.
    by rewrite lookup_insert_eq. }
  assert (Hpk : st3 !! REDIS_KEYS.participants p
                = Some (RSet ({[Js.toLowerCase w]} ∪ setAt (REDIS_KEYS.participants p) st1))).
  { rewrite Hf3 by apply not_eq_sym, votes_ne_participants. unfold st2.
    by rewrite lookup_insert_eq. }
  split_and!.
  - rewrite (bind_eq _ _ _ _ _ (wr_eq _ _ _ _ E1)).
    rewrite (bind_eq _ _ _ _ _ (wr_eq _ (World st1 _) _ _ E2)).
    by rewrite (bind_eq _ _ _ _ _ (wr_eq _ (World st2 _) _ _ E3)).
  - unfold delegationsOf, hashAt at 1. simpl. by rewrite Hdk.
  - unfold votesOf. simpl. rewrite Hh3. f_equal. unfold hashAt, st2, st1.
    rewrite lookup_insert_ne by apply not_eq_sym, votes_ne_participants.
    by rewrite lookup_insert_ne by apply not_eq_sym, votes_ne_delegations.
  - unfold participantsOf, setAt at 1. simpl. rewrite Hpk. f_equal. unfold setAt, st1.
    by rewrite lookup_insert_ne by apply delegations_ne_participants.
  - simpl. split_and!; [done | by rewrite Hdk | by rewrite Hpk].
  - split; [done|]. simpl. intros k Hk. unfold keysOf in Hk.
    rewrite Hf3 by naive_solver. unfold st2, st1.
    by rewrite !lookup_insert_ne by naive_solver.
Qed.

Lemma removeVote_spec p w world :
  well_typed p (redis world) →
  ∃ n world', RedisVotingOps.removeVote p w world = (Ok n, world') ∧
    votesOf p world' = delete (Js.toLowerCase w) (votesOf p world) ∧
    delegationsOf p world' = delegationsOf p world ∧
    participantsOf p world' = participantsOf p world ∧
    well_typed p (redis world') ∧
    within (keysOf p) world world'.
Proof.
  intros (Hv & Hd & Hp). unfold RedisVotingOps.removeVote.
  destruct (hdel_spec (REDIS_KEYS.votes p) (Js.toLowerCase w) (redis world) Hv)
    as (n & st & E & Hh & Ht & Hf & _).
  exists n, (World st (supabase world)). rewrite (wr_eq _ _ _ _ E).
  split_and!; try done.
  - unfold delegationsOf. apply (hashAt_frame ""). simpl. apply Hf, not_eq_sym, votes_ne_delegations.
  - unfold participantsOf. apply (setAt_frame ""). simpl.
    apply Hf, not_eq_sym, votes_ne_participants.
  - simpl. split_and!; [done| |].
    + by rewrite Hf by apply not_eq_sym, votes_ne_delegations.
    + by rewrite Hf by apply not_eq_sym, votes_ne_participants.
  - split; [done|]. simpl. intros k Hk. apply Hf. unfold keysOf in Hk. naive_solver.
Qed.

Lemma removeDelegation_spec p w world :
  well_typed p (redis world) →
  ∃ n world', RedisVotingOps.removeDelegation p w world = (Ok n, world') ∧
    delegationsOf p world' = delete (Js.toLowerCase w) (delegationsOf p world) ∧
    votesOf p world' = votesOf p world ∧
    participantsOf p world' = participantsOf p world ∧
    well_typed p (redis world') ∧
    within (keysOf p) world world'.
Proof.
  intros (Hv & Hd & Hp). unfold RedisVotingOps.removeDelegation.
  destruct (hdel_spec (REDIS_KEYS.delegations p) (Js.toLowerCase w) (redis world) Hd)
    as (n & st & E & Hh & Ht & Hf & _).
  exists n, (World st (supabase world)). rewrite (wr_eq _ _ _ _ E).
  split_and!; try done.
  - unfold votesOf. apply (hashAt_frame ""). simpl. apply Hf, votes_ne_delegations.
  - unfold participantsOf. apply (setAt_frame ""). simpl.
    apply Hf, not_eq_sym, delegations_ne_participants.
  - simpl. split_and!; [|done|].
    + by rewrite Hf by apply votes_ne_delegations.
    + by rewrite Hf by apply not_eq_sym, delegations_ne_participants.
  - split; [done|]. simpl. intros k Hk. apply Hf. unfold keysOf in Hk. naive_solver.
Qed.
End operations.

Section views_read.
Implicit Types (p w : string) (world : world).

Lemma getUserVote_view p w world :
  hash_or_absent (redis world !! REDIS_KEYS.votes p) →
  RedisVotingOps.getUserVote p w world
  = (Ok (Js.truthy (votesOf p world !! Js.toLowerCase w) ≫= Js.parseInt), world).
Proof.
  intros H. unfold RedisVotingOps.getUserVote, Async.try_catch, Async.bind. rewrite rd_eq.
  unfold hget, votesOf, hashAt.
  destruct (redis world !! _) as [[s|h|s]|]; simpl in *; try done.
  by destruct (h !! _) as [[|]|].
Qed.

Lemma getUserDelegation_view p w world :
  hash_or_absent (redis world !! REDIS_KEYS.delegations p) →
  RedisVotingOps.getUserDelegation p w world
  = (Ok (Js.truthy (delegationsOf p world !! Js.toLowerCase w)), world).
Proof.
  intros H. unfold RedisVotingOps.getUserDelegation, Async.try_catch, Async.bind. rewrite rd_eq.
  unfold hget, delegationsOf, hashAt.
  destruct (redis world !! _) as [[s|h|s]|]; simpl in *; try done.
  by destruct (h !! _) as [[|]|].
Qed.

Lemma getAllVotes_view p world :
  hash_or_absent (redis world !! REDIS_KEYS.votes p) →
  RedisVotingOps.getAllVotes p world
  = (Ok (RedisVotingOps.convertVotes (votesOf p world)), world).
Proof.
  intros H. unfold RedisVotingOps.getAllVotes, Async.bind. rewrite rd_eq.
  unfold hgetall, votesOf, hashAt.
  by destruct (redis world !! _) as [[s|h|s]|]; simpl in *.
Qed.

Lemma getAllDelegations_view p world :
  hash_or_absent (redis world !! REDIS_KEYS.delegations p) →
  RedisVotingOps.getAllDelegations p world
  = (Ok (RedisVotingOps.normalizeDelegations (delegationsOf p world)), world).
Proof.
  intros H. unfold RedisVotingOps.getAllDelegations, Async.bind. rewrite rd_eq.
  unfold hgetall, delegationsOf, hashAt.
  by destruct (redis world !! _) as [[s|h|s]|]; simpl in *.
Qed.

Lemma getAllParticipants_view p world :
  set_or_absent (redis world !! REDIS_KEYS.participants p) →
  RedisVotingOps.getAllParticipants p world
  = (Ok (elements (participantsOf p world)), world).
Proof.
  intros H. unfold RedisVotingOps.getAllParticipants. rewrite rd_eq.
  unfold smembers, participantsOf, setAt.
  by destruct (redis world !! _) as [[s|h|s]|]; simpl in *.
Qed.
End views_read.

(** ** Reads are pure and depend on their key only *)

Section reads_pure.
Implicit Types (p w : string) (world : world).

Lemma getUserVote_pure p w world : (RedisVotingOps.getUserVote p w world).2 = world.
Proof.
  unfold RedisVotingOps.getUserVote, Async.try_catch, Async.bind. rewrite rd_eq.
  by destruct (hget _ _ _) as [[[|]|]|].
Qed.

Lemma getUserDelegation_pure p w world :
  (RedisVotingOps.getUserDelegation p w world).2 = world.
Proof.
  unfold RedisVotingOps.getUserDelegation, Async.try_catch, Async.bind. rewrite rd_eq.
  by destruct (hget _ _ _) as [[[|]|]|].
Qed.

Lemma getUserVote_ok p w world : ∃ v, RedisVotingOps.getUserVote p w world = (Ok v, world).
Proof.
  unfold RedisVotingOps.getUserVote, Async.try_catch, Async.bind. rewrite rd_eq.
  destruct (hget _ _ _) as [[[|]|]|]; by eexists.
Qed.

Lemma getUserDelegation_ok p w world :
  ∃ v, RedisVotingOps.getUserDelegation p w world = (Ok v, world).
Proof.
  unfold RedisVotingOps.getUserDelegation, Async.try_catch, Async.bind. rewrite rd_eq.
  destruct (hget _ _ _) as [[[|]|]|]; by eexists.
Qed.

(** [getUserStatus] never throws and reads only. *)
Lemma getUserStatus_eq p w world vote delegation :
  RedisVotingOps.getUserVote p w world = (Ok vote, world) →
  RedisVotingOps.getUserDelegation p w world = (Ok delegation, world) →
  RedisVotingOps.getUserStatus p w world
  = (Ok {| has_voted := bool_decide (vote ≠ None); voted_option := vote;
           has_delegated := bool_decide (delegation ≠ None);
           delegate_wallet := delegation |}, world).
Proof.
  intros Hv Hd. unfold RedisVotingOps.getUserStatus.
  rewrite (bind_eq _ _ _ _ _ Hv), (bind_eq _ _ _ _ _ Hd). done.
Qed.

Lemma getUserStatus_key p w world1 world2 :
  redis world1 !! REDIS_KEYS.votes p = redis world2 !! REDIS_KEYS.votes p →
  redis world1 !! REDIS_KEYS.delegations p = redis world2 !! REDIS_KEYS.delegations p →
  (RedisVotingOps.getUserStatus p w world1).1 = (RedisVotingOps.getUserStatus p w world2).1.
Proof.
  intros Hv Hd.
  pose proof (getUserVote_key p w _ _ Hv) as Ev.
  pose proof (getUserDelegation_key p w _ _ Hd) as Ed.
  destruct (getUserVote_ok p w world1) as [v1 E1], (getUserVote_ok p w world2) as [v2 E2].
  destruct (getUserDelegation_ok p w world1) as [d1 F1],
           (getUserDelegation_ok p w world2) as [d2 F2].
  rewrite (getUserStatus_eq _ _ _ _ _ E1 F1), (getUserStatus_eq _ _ _ _ _ E2 F2).
  rewrite E1, E2 in Ev. rewrite F1, F2 in Ed. simpl in *. by simplify_eq.
Qed.

Lemma getAllVotes_key p world1 world2 :
  redis world1 !! REDIS_KEYS.votes p = redis world2 !! REDIS_KEYS.votes p →
  (RedisVotingOps.getAllVotes p world1).1 = (RedisVotingOps.getAllVotes p world2).1.
Proof.
  intros H. unfold RedisVotingOps.getAllVotes, Async.bind. rewrite !rd_eq.
  unfold hgetall. rewrite H. by destruct (redis world2 !! _) as [[s|h|s]|].
Qed.

Lemma getAllDelegations_key p world1 world2 :
  redis world1 !! REDIS_KEYS.delegations p = redis world2 !! REDIS_KEYS.delegations p →
  (RedisVotingOps.getAllDelegations p world1).1 = (RedisVotingOps.getAllDelegations p world2).1.
Proof.
  intros H. unfold RedisVotingOps.getAllDelegations, Async.bind. rewrite !rd_eq.
  unfold hgetall. rewrite H. by destruct (redis world2 !! _) as [[s|h|s]|].
Qed.

Lemma checkCooldown_key u p world1 world2 :
  redis world1 !! REDIS_KEYS.cooldown (Js.toLowerCase u) p
  = redis world2 !! REDIS_KEYS.cooldown (Js.toLowerCase u) p →
  (RedisVotingOps.checkCooldown u p world1).1 = (RedisVotingOps.checkCooldown u p world2).1.
Proof.
  intros H. unfold RedisVotingOps.checkCooldown, Async.bind. rewrite !rd_eq.
  unfold get. rewrite H. by destruct (redis world2 !! _) as [[s|h|s]|].
Qed.
End reads_pure.

(** ** Write, then read *)

(** X1.  On a store whose three keys hold the declared kinds,
    [castVote(p, w, o)] for a safe integer [o] completes, and [getUserVote]
    then returns [o] for the wallet under any spelling of its letters'
    case: the decimal string [castVote] stores reads back as the number
    cast.  [getUserStatus] reports the vote and no delegation. *)
Theorem vote_read_back (p w w' : string) (o : Z) (world : world) :
  well_typed p (redis world) →
  Js.toLowerCase w' = Js.toLowerCase w →
  Js.safe o →
  ∃ world',
    RedisVotingOps.castVote p w o world = (Ok true, world') ∧
    RedisVotingOps.getUserVote p w' world' = (Ok (Some o), world') ∧
    RedisVotingOps.getUserStatus p w' world'
    = (Ok {| has_voted := true; voted_option := Some o;
             has_delegated := false; delegate_wallet := None |}, world').
Proof.
  intros Hwt Hw Hsafe.
  destruct (castVote_spec p w o world Hwt) as (world' & E & Hv & Hd & _ & Hwt' & _).
  exists world'. split; [done|].
  assert (Ev : RedisVotingOps.getUserVote p w' world' = (Ok (Some o), world')).
  { rewrite getUserVote_view by apply Hwt'.
    rewrite Hv, Hw, lookup_insert_eq, truthy_toString by done.
    simpl. by rewrite parseInt_toString. }
  assert (Ed : RedisVotingOps.getUserDelegation p w' world' = (Ok None, world')).
  { rewrite getUserDelegation_view by apply Hwt'. by rewrite Hd, Hw, lookup_delete_eq. }
  split; [done|]. by rewrite (getUserStatus_eq _ _ _ _ _ Ev Ed).
Qed.

Lemma vote_read_back_witness :
  ∃ world',
    RedisVotingOps.castVote "p" "0xAB" 2 scenario1 = (Ok true, world') ∧
    RedisVotingOps.getUserVote "p" "0xab" world' = (Ok (Some 2%Z), world') ∧
    RedisVotingOps.getUserStatus "p" "0xab" world'
    = (Ok {| has_voted := true; voted_option := Some 2%Z;
             has_delegated := false; delegate_wallet := None |}, world').
Proof.
  apply (vote_read_back "p" "0xAB" "0xab" 2 scenario1).
  - by vm_compute.
  - reflexivity.
  - exact I.
Defined.

(** X2.  On a store whose three keys hold the declared kinds,
    [setDelegation(p, w, d)] to a delegate [d] with a plain name completes,
    and the wallet's delegation then reads back as [d] in lower case, its
    vote as none; [getUserStatus] reports the delegation and no vote. *)
Theorem delegation_read_back (p w w' d : string) (world : world) :
  well_typed p (redis world) →
  Js.toLowerCase w' = Js.toLowerCase w →
  Js.plain d →
  ∃ world',
    RedisVotingOps.setDelegation p w d world = (Ok true, world') ∧
    RedisVotingOps.getUserDelegation p w' world' = (Ok (Some (Js.toLowerCase d)), world') ∧
    RedisVotingOps.getUserVote p w' world' = (Ok None, world') ∧
    RedisVotingOps.getUserStatus p w' world'
    = (Ok {| has_voted := false; voted_option := None;
             has_delegated := true; delegate_wallet := Some (Js.toLowerCase d) |}, world').
Proof.
  intros Hwt Hw Hplain.
  destruct (setDelegation_spec p w d world Hwt) as (world' & E & Hd & Hv & _ & Hwt' & _).
  exists world'. split; [done|].
  assert (Ed : RedisVotingOps.getUserDelegation p w' world'
               = (Ok (Some (Js.toLowerCase d)), world')).
  { rewrite getUserDelegation_view by apply Hwt'.
    by rewrite Hd, Hw, lookup_insert_eq, plain_truthy by by apply plain_toLowerCase. }
  assert (Ev : RedisVotingOps.getUserVote p w' world' = (Ok None, world')).
  { rewrite getUserVote_view by apply Hwt'. by rewrite Hv, Hw, lookup_delete_eq. }
  split_and!; [done|done|].
  by rewrite (getUserStatus_eq _ _ _ _ _ Ev Ed).
Qed.

Lemma delegation_read_back_witness :
  ∃ world',
    RedisVotingOps.setDelegation "p" "0xAB" "0xCD" scenario1 = (Ok true, world') ∧
    RedisVotingOps.getUserDelegation "p" "0xab" world' = (Ok (Some "0xcd"), world') ∧
    RedisVotingOps.getUserVote "p" "0xab" world' = (Ok None, world') ∧
    RedisVotingOps.getUserStatus "p" "0xab" world'
    = (Ok {| has_voted := false; voted_option := None;
             has_delegated := true; delegate_wallet := Some "0xcd" |}, world').
Proof.
  apply (delegation_read_back "p" "0xAB" "0xab" "0xCD" scenario1).
  - by vm_compute.
  - reflexivity.
  - exact I.
Defined.

(** ** Isolation and consistency *)

(** X3.  Whatever the state, and whether it completes or throws, an
    operation on proposal [p] (casting or removing a vote, setting or
    removing a delegation) leaves the durable store, every key other than
    the votes, delegations and participants keys of [p], and therefore every
    read of another proposal and every cooldown, as they were. *)
Theorem action_footprint (p : string) (a : action) (world : world) :
  let world' := (perform p a world).2 in
  supabase world' = supabase world ∧
  (∀ q u, q ≠ p →
     (RedisVotingOps.getUserStatus q u world').1 = (RedisVotingOps.getUserStatus q u world).1 ∧
     (RedisVotingOps.getAllVotes q world').1 = (RedisVotingOps.getAllVotes q world).1 ∧
     (RedisVotingOps.getAllDelegations q world').1
     = (RedisVotingOps.getAllDelegations q world).1 ∧
     (RedisVotingOps.getAllParticipants q world').1
     = (RedisVotingOps.getAllParticipants q world).1) ∧
  (∀ u q, (RedisVotingOps.checkCooldown u q world').1
          = (RedisVotingOps.checkCooldown u q world).1) ∧
  (∀ k, ¬ keysOf p k → redis world' !! k = redis world !! k).
Proof.
  intros world'. destruct (perform_within p a world) as [Hdb Hframe]. fold world' in Hdb, Hframe.
  split_and!; [done| | |done].
  - intros q u Hne.
    assert (Hv : redis world' !! REDIS_KEYS.votes q = redis world !! REDIS_KEYS.votes q).
    { apply Hframe, (keysOf_other p q); [done | by left]. }
    assert (Hd : redis world' !! REDIS_KEYS.delegations q
                 = redis world !! REDIS_KEYS.delegations q).
    { apply Hframe, (keysOf_other p q); [done | right; by left]. }
    assert (Hp : redis world' !! REDIS_KEYS.participants q
                 = redis world !! REDIS_KEYS.participants q).
    { apply Hframe, (keysOf_other p q); [done | right; by right]. }
    split_and!.
    + by apply getUserStatus_key.
    + by apply getAllVotes_key.
    + by apply getAllDelegations_key.
    + by apply getAllParticipants_key.
  - intros u q. apply checkCooldown_key, Hframe, cooldown_not_keysOf.
Qed.

Section consistency.
Implicit Types (p : string) (world : world).

Lemma consistent_castVote p w o world :
  consistent p world → Js.plain w → Js.safe o →
  ∃ world', RedisVotingOps.castVote p w o world = (Ok true, world') ∧ consistent p world'.
Proof.
  intros (Hwt & Hdisj & Hsub & Hnorm & Hvotes & Hov & Hod & Hop) Hw Ho.
  destruct (castVote_spec p w o world Hwt) as (world' & E & Hv & Hd & Hp & Hwt' & _).
  exists world'. split; [done|]. unfold consistent, ordinary, plain_names in *.
  rewrite Hv, Hd, Hp.
  split_and!; [done| | | | | | |].
  - rewrite dom_insert_L, dom_delete_L. set_solver.
  - rewrite dom_insert_L, dom_delete_L. set_solver.
  - intros k v [Hk Hkv]%lookup_delete_Some. by apply Hnorm.
  - intros k v [[<- <-]|[_ Hk]]%lookup_insert_Some.
    + apply toLowerCase_idemp.
    + by eapply Hvotes.
  - apply map_Forall_insert_2; [|done].
    split; [by apply plain_toLowerCase | by apply vote_text_toString].
  - by apply map_Forall_delete.
  - apply set_Forall_union; [|done]. apply set_Forall_singleton. by apply plain_toLowerCase.
Qed.

Lemma consistent_setDelegation p w d world :
  consistent p world → Js.plain w → Js.plain d →
  ∃ world', RedisVotingOps.setDelegation p w d world = (Ok true, world') ∧ consistent p world'.
Proof.
  intros (Hwt & Hdisj & Hsub & Hnorm & Hvotes & Hov & Hod & Hop) Hw Hpd.
  destruct (setDelegation_spec p w d world Hwt) as (world' & E & Hd & Hv & Hp & Hwt' & _).
  exists world'. split; [done|]. unfold consistent, ordinary, plain_names in *.
  rewrite Hv, Hd, Hp.
  split_and!; [done| | | | | | |].
  - rewrite dom_insert_L, dom_delete_L. set_solver.
  - rewrite dom_insert_L, dom_delete_L. set_solver.
  - intros k v [[<- <-]|[_ Hk]]%lookup_insert_Some.
    + split; apply toLowerCase_idemp.
    + by apply Hnorm.
  - intros k v [Hk Hkv]%lookup_delete_Some. by eapply Hvotes.
  - by apply map_Forall_delete.
  - apply map_Forall_insert_2; [|done]. split; by apply plain_toLowerCase.
  - apply set_Forall_union; [|done]. apply set_Forall_singleton. by apply plain_toLowerCase.
Qed.

Lemma consistent_removeVote p w world :
  consistent p world →
  ∃ n world', RedisVotingOps.removeVote p w world = (Ok n, world') ∧ consistent p world'.
Proof.
  intros (Hwt & Hdisj & Hsub & Hnorm & Hvotes & Hov & Hod & Hop).
  destruct (removeVote_spec p w world Hwt) as (n & world' & E & Hv & Hd & Hp & Hwt' & _).
  exists n, world'. split; [done|]. unfold consistent, ordinary, plain_names in *.
  rewrite Hv, Hd, Hp.
  split_and!; [done| | |done| | |done|done].
  - rewrite dom_delete_L. set_solver.
  - rewrite dom_delete_L. set_solver.
  - intros k v [Hk Hkv]%lookup_delete_Some. by eapply Hvotes.
  - by apply map_Forall_delete.
Qed.

Lemma consistent_removeDelegation p w world :
  consistent p world →
  ∃ n world', RedisVotingOps.removeDelegation p w world = (Ok n, world') ∧ consistent p world'.
Proof.
  intros (Hwt & Hdisj & Hsub & Hnorm & Hvotes & Hov & Hod & Hop).
  destruct (removeDelegation_spec p w world Hwt) as (n & world' & E & Hd & Hv & Hp & Hwt' & _).
  exists n, world'. split; [done|]. unfold consistent, ordinary, plain_names in *.
  rewrite Hv, Hd, Hp.
  split_and!; [done| | | |done|done| |done].
  - rewrite dom_delete_L. set_solver.
  - rewrite dom_delete_L. set_solver.
  - intros k v [Hk Hkv]%lookup_delete_Some. by apply Hnorm.
  - by apply map_Forall_delete.
Qed.

Lemma consistent_perform p a world :
  consistent p world → proper a →
  ∃ world', perform p a world = (Ok tt, world') ∧ consistent p world'.
Proof.
  intros H Ha. destruct a as [w o|w d|w|w]; simpl in *.
  - destruct (consistent_castVote p w o world H) as (world' & E & H'); [apply Ha..|].
    exists world'. by rewrite (bind_eq _ _ _ _ _ E).
  - destruct (consistent_setDelegation p w d world H) as (world' & E & H'); [apply Ha..|].
    exists world'. by rewrite (bind_eq _ _ _ _ _ E).
  - destruct (consistent_removeVote p w world H) as (n & world' & E & H').
    exists world'. by rewrite (bind_eq _ _ _ _ _ E).
  - destruct (consistent_removeDelegation p w world H) as (n & world' & E & H').
    exists world'. by rewrite (bind_eq _ _ _ _ _ E).
Qed.

Lemma consistent_empty p world : redis world = ∅ → consistent p world.
Proof.
  intros H. unfold consistent, ordinary, plain_names, well_typed,
    votesOf, delegationsOf, participantsOf, hashAt, setAt.
  rewrite H, !lookup_empty. simpl.
  split_and!; try done; apply map_Forall_empty.
Qed.
End consistency.

Lemma consistent_status p wallet world :
  consistent p world →
  ∃ s members,
    RedisVotingOps.getUserStatus p wallet world = (Ok s, world) ∧
    RedisVotingOps.getAllParticipants p world = (Ok members, world) ∧
    ¬ (has_voted s = true ∧ has_delegated s = true) ∧
    (has_voted s = true ∨ has_delegated s = true → Js.toLowerCase wallet ∈ members).
Proof.
  intros (Hwt & Hdisj & Hsub & Hnorm & Hvotes & _).
  pose proof (getUserVote_view p wallet world (proj1 Hwt)) as Ev.
  pose proof (getUserDelegation_view p wallet world (proj1 (proj2 Hwt))) as Ed.
  eexists _, _. split; [by apply getUserStatus_eq|].
  split; [by apply getAllParticipants_view, Hwt|]. simpl.
  set (lw := Js.toLowerCase wallet) in *.
  assert (Hv : bool_decide (Js.truthy (votesOf p world !! lw) ≫= Js.parseInt ≠ None) = true →
               lw ∈ dom (votesOf p world)).
  { intros H%bool_decide_eq_true. apply elem_of_dom.
    destruct (votesOf p world !! lw); [by eexists | done]. }
  assert (Hd : bool_decide (Js.truthy (delegationsOf p world !! lw) ≠ None) = true →
               lw ∈ dom (delegationsOf p world)).
  { intros H%bool_decide_eq_true. apply elem_of_dom.
    destruct (delegationsOf p world !! lw); [by eexists | done]. }
  split.
  - intros [H1%Hv H2%Hd]. set_solver.
  - intros [H1%Hv|H2%Hd]; apply elem_of_elements; set_solver.
Qed.

(** X4.  From a consistent state of proposal [p] (the empty store is one),
    any sequence of votes for safe option numbers, of delegations and of
    removals by wallets with plain names completes and leaves the state
    consistent.  In particular no wallet ever shows both a vote and a
    delegation, and a wallet that shows either is a participant. *)
Theorem consistency_preserved (p : string) (l : list action) (world : world) :
  consistent p world →
  Forall proper l →
  ∃ world',
    performAll p l world = (Ok tt, world') ∧ consistent p world' ∧
    ∀ wallet, ∃ s members,
      RedisVotingOps.getUserStatus p wallet world' = (Ok s, world') ∧
      RedisVotingOps.getAllParticipants p world' = (Ok members, world') ∧
      ¬ (has_voted s = true ∧ has_delegated s = true) ∧
      (has_voted s = true ∨ has_delegated s = true → Js.toLowerCase wallet ∈ members).
Proof.
  intros H Hl.
  assert (G : ∃ world', performAll p l world = (Ok tt, world') ∧ consistent p world').
  { revert world H. induction Hl as [|a l Ha Hl IH]; intros world H; simpl.
    - by exists world.
    - destruct (consistent_perform p a world H Ha) as (w1 & E1 & H1).
      destruct (IH w1 H1) as (w2 & E2 & H2).
      exists w2. by rewrite (bind_eq _ _ _ _ _ E1). }
  destruct G as (world' & E & H'). exists world'. split_and!; [done|done|].
  intros wallet. by apply consistent_status.
Qed.

Lemma consistency_preserved_witness :
  ∃ world',
    performAll "p" [CastVote "A" 1; SetDelegation "A" "B"; SetDelegation "B" "C";
                    RemoveDelegation "A"; CastVote "B" 2] emptyWorld = (Ok tt, world') ∧
    consistent "p" world' ∧
    ∀ wallet, ∃ s members,
      RedisVotingOps.getUserStatus "p" wallet world' = (Ok s, world') ∧
      RedisVotingOps.getAllParticipants "p" world' = (Ok members, world') ∧
      ¬ (has_voted s = true ∧ has_delegated s = true) ∧
      (has_voted s = true ∨ has_delegated s = true → Js.toLowerCase wallet ∈ members).
Proof.
  apply (consistency_preserved "p" _ emptyWorld); [by apply consistent_empty|].
  repeat constructor.
Defined.

(** ** Soundness of cycle detection *)

Lemma normalizeDelegations_id h : normalized h → RedisVotingOps.normalizeDelegations h = h.
Proof.
  intros H. rewrite normalizeDelegations_fold, lowerEntry_fixed.
  - by rewrite list_to_map_to_list, (right_id_L ∅ (∪)).
  - apply NoDup_fst_map_to_list.
  - intros k v Hin. apply elem_of_map_to_list in Hin. by apply H.
Qed.

Lemma normalized_insert h k v :
  normalized h → normalized (<[Js.toLowerCase k := Js.toLowerCase v]> h).
Proof.
  intros H k' v' [[<- <-]|[_ Hk]]%lookup_insert_Some.
  - split; apply toLowerCase_idemp.
  - by apply H.
Qed.

Lemma truthy_Some s t : Js.truthy (Some s) = Some t → t = s.
Proof. destruct s; simpl; congruence. Qed.

Section walk_sound.
Variables (sim : gmap string string) (delegator : string).

(** From a set closed under the edges the chain never leaves it. *)
Lemma hop_closed (S : gset string) :
  (∀ v y, v ∈ S → Js.truthy (sim !! v) = Some y → y ∈ S) →
  ∀ k x y, x ∈ S → hop sim k x = Some y → y ∈ S.
Proof.
  intros Hcl. induction k as [|k IH]; intros x y Hx; simpl.
  - by intros [= <-].
  - destruct (Js.truthy (sim !! x)) as [z|] eqn:Hz; [|done]. apply IH. by eapply Hcl.
Qed.

(** When the loop of [detectCyclesDFS] is left by a [break] with hops to
    spare, the delegator is nowhere down the chain. *)
Lemma walk_sound n : ∀ visited path current m,
  RedisVotingOps.walk sim delegator n visited path current = RedisVotingOps.LoopLeft m →
  (0 < m)%Z →
  delegator ∉ visited → current ≠ delegator →
  (∀ v y, v ∈ visited → Js.truthy (sim !! v) = Some y → y ∈ visited ∨ y = current) →
  ∀ k, hop sim k current ≠ Some delegator.
Proof.
  induction n as [|n IH]; intros visited path current m Hw Hm Hdv Hcd Hcl; simpl in Hw.
  { injection Hw as <-. lia. }
  destruct (decide (current ∈ visited)) as [Hin|Hnin].
  - intros k Hk. apply Hdv. apply (hop_closed visited) with (k := k) (x := current); [|done..].
    intros v y Hv Hy. destruct (Hcl v y Hv Hy) as [?| ->]; done.
  - destruct (Js.truthy (sim !! current)) as [next|] eqn:Hnext.
    + destruct (decide (next = delegator)) as [->|Hne]; [done|].
      intros [|k]; simpl; [congruence|]. rewrite Hnext.
      apply (IH _ _ _ _ Hw Hm).
      * set_solver.
      * done.
      * intros v y [->%elem_of_singleton|Hv]%elem_of_union Hy.
        -- right. congruence.
        -- left. destruct (Hcl v y Hv Hy) as [?| ->]; set_solver.
    + intros [|k]; simpl; [congruence|]. by rewrite Hnext.
Qed.
End walk_sound.

Section new_edge.
Variables (d : gmap string string) (delegator target : string).

(** Until the chain meets the delegator the new edge plays no part. *)
Lemma hop_new_edge k : ∀ x,
  hop (<[delegator := target]> d) k x = hop d k x ∨ ∃ j, j < k ∧ hop (<[delegator := target]> d) j x = Some delegator.
Proof.
  induction k as [|k IH]; intros x; simpl; [by left|].
  destruct (decide (x = delegator)) as [->|Hne].
  { right. exists 0. split; [lia|done]. }
  rewrite lookup_insert_ne by done.
  destruct (Js.truthy (d !! x)) as [y|] eqn:Hy; [|by left].
  destruct (IH y) as [?|(j & Hj & Hh)]; [by left|].
  right. exists (S j). split; [lia|]. simpl. rewrite lookup_insert_ne by done. by rewrite Hy.
Qed.

(** A cycle can be entered at any of its wallets. *)
Lemma hop_rotate (m : gmap string string) n j x y :
  hop m n x = Some x → j ≤ n → hop m j x = Some y → hop m n y = Some y.
Proof.
  intros Hn Hj Hy.
  assert (H1 : hop m (j + (n - j)) x = Some x) by (by replace (j + (n - j)) with n by lia).
  rewrite hop_add, Hy in H1. simpl in H1.
  replace n with ((n - j) + j) by lia. rewrite hop_add, H1. done.
Qed.

(** An edge whose target does not lead back to the delegator closes no
    cycle. *)
Lemma acyclic_new_edge :
  acyclic d → (∀ k, hop (<[delegator := target]> d) k target ≠ Some delegator) → acyclic (<[delegator := target]> d).
Proof.
  intros Hac Hno x n Hn Hx.
  destruct (hop_new_edge n x) as [Heq|(j & Hj & Hd)].
  - rewrite Heq in Hx. by apply (Hac x n).
  - assert (Hrot : hop (<[delegator := target]> d) n delegator = Some delegator).
    { apply (hop_rotate _ n j x); [done|lia|done]. }
    destruct n as [|n]; [lia|]. simpl in Hrot. rewrite lookup_insert_eq in Hrot.
    destruct (Js.truthy (Some target)) as [t|] eqn:Ht; [|done].
    apply truthy_Some in Ht as ->. by apply (Hno n).
Qed.
End new_edge.

(** X5.  Soundness of the cycle check.  When the delegations of [p] are
    between wallets with plain names, in lower case and free of cycles, and
    [detectCyclesDFS] reports no cycle for the edge from [delegatorWallet]
    to [targetWallet], two plain names, then [setDelegation] of that edge
    leaves the delegations, which are the old ones with the new edge, as
    they were in these three respects. *)
Theorem accepted_delegation_keeps_acyclic (p delegatorWallet targetWallet : string)
        (world : world) (check : cycle_check) :
  well_typed p (redis world) →
  plain_names (delegationsOf p world) →
  Js.plain delegatorWallet →
  Js.plain targetWallet →
  normalized (delegationsOf p world) →
  acyclic (delegationsOf p world) →
  RedisVotingOps.detectCyclesDFS p delegatorWallet targetWallet world = (Ok check, world) →
  hasCycle check = false →
  ∃ world',
    RedisVotingOps.setDelegation p delegatorWallet targetWallet world = (Ok true, world') ∧
    RedisVotingOps.getAllDelegations p world'
    = (Ok (<[Js.toLowerCase delegatorWallet := Js.toLowerCase targetWallet]>
             (delegationsOf p world)), world') ∧
    plain_names (delegationsOf p world') ∧
    normalized (delegationsOf p world') ∧
    acyclic (delegationsOf p world').
Proof.
  intros Hwt Hnames Hpd Hpt Hnorm Hac Hcheck Hno.
  set (delegator := Js.toLowerCase delegatorWallet) in *.
  set (target := Js.toLowerCase targetWallet) in *.
  destruct (setDelegation_spec p delegatorWallet targetWallet world Hwt)
    as (world' & E & Hd & _ & _ & Hwt' & _).
  fold delegator target in Hd.
  assert (Hnorm' : normalized (delegationsOf p world')).
  { rewrite Hd. by apply normalized_insert. }
  exists world'. split_and!; [done| | |done|].
  - rewrite getAllDelegations_view by apply Hwt'.
    by rewrite normalizeDelegations_id, Hd.
  - rewrite Hd. apply map_Forall_insert_2; [|done]. split; by apply plain_toLowerCase.
  - rewrite Hd. apply acyclic_new_edge; [done|].
    unfold RedisVotingOps.detectCyclesDFS, Async.try_catch in Hcheck.
    fold delegator target in Hcheck.
    destruct (decide (delegator = target)) as [Heq|Hne].
    { unfold Async.ret in Hcheck. by simplify_eq. }
    rewrite (bind_eq _ _ _ _ _ (getAllDelegations_view p world (proj1 (proj2 Hwt)))) in Hcheck.
    rewrite normalizeDelegations_id in Hcheck by done.
    destruct (RedisVotingOps.walk _ _ _ _ _ _) as [cyclePath|maxHops] eqn:Hwalk.
    { unfold Async.ret in Hcheck. by simplify_eq. }
    destruct (decide (maxHops <= 0)%Z) as [Hle|Hgt].
    { unfold Async.ret in Hcheck. by simplify_eq. }
    apply (walk_sound _ _ _ _ _ _ _ Hwalk); [lia | apply not_elem_of_empty | congruence |].
    intros v y Hv. by apply not_elem_of_empty in Hv.
Qed.

Lemma scenario1_delegationsOf : delegationsOf "p" scenario1 = scenario1_delegations.
Proof. by vm_compute. Qed.

Lemma scenario1_normalized : normalized scenario1_delegations.
Proof.
  intros k v H. unfold scenario1_delegations in H.
  apply lookup_insert_Some in H as [[<- <-]|[_ H]]; [done|].
  by apply lookup_singleton_Some in H as [<- <-].
Qed.

Lemma accepted_delegation_keeps_acyclic_witness :
  ∃ world',
    RedisVotingOps.setDelegation "p" "D" "A" scenario1 = (Ok true, world') ∧
    RedisVotingOps.getAllDelegations "p" world'
    = (Ok (<[Js.toLowerCase "D" := Js.toLowerCase "A"]> (delegationsOf "p" scenario1)),
       world') ∧
    plain_names (delegationsOf "p" world') ∧
    normalized (delegationsOf "p" world') ∧
    acyclic (delegationsOf "p" world').
Proof.
  apply (accepted_delegation_keeps_acyclic "p" "D" "A" scenario1
           {| hasCycle := false; cyclePath := None; reason := None |}).
  - by vm_compute.
  - apply (bool_decide_unpack _). vm_compute. exact I.
  - exact I.
  - exact I.
  - rewrite scenario1_delegationsOf. apply scenario1_normalized.
  - rewrite scenario1_delegationsOf. apply scenario1_acyclic.
  - by vm_compute.
  - done.
Defined.

(** ** Deleting a proposal's data *)

Section deletion.
Implicit Types (st : store) (keys : list string).

Lemma del_spec keys st :
  ∃ n, del keys st = (Ok n, (del keys st).2) ∧ n ≤ List.length keys ∧
       (∀ k, k ∈ keys → (del keys st).2 !! k = None) ∧
       (∀ k, k ∉ keys → (del keys st).2 !! k = st !! k).
Proof.
  revert st. induction keys as [|key keys IH]; intros st.
  - exists 0. simpl. split_and!; [done|done| |done]. intros k Hk. by apply elem_of_nil in Hk.
  - cbn [del]. destruct (del1 key st) as [n1 st1] eqn:E1.
    destruct (IH st1) as (n & E & Hn & Hin & Hout).
    assert (Hn1 : n1 ≤ 1 ∧ st1 !! key = None ∧ ∀ k, k ≠ key → st1 !! k = st !! k).
    { unfold del1 in E1. destruct (st !! key) eqn:Hk; simplify_eq.
      - split_and!; [done | apply lookup_delete_eq |]. intros k Hne. by apply lookup_delete_ne.
      - by split_and!; [lia| |]. }
    destruct Hn1 as (Hn1 & Hkey & Hframe).
    rewrite E. simpl. exists (n1 + n). split_and!; [done | lia | |].
    + intros k [->|Hk]%elem_of_cons; [|by apply Hin].
      destruct (decide (key ∈ keys)); [by apply Hin|]. by rewrite Hout.
    + intros k [Hne Hk]%not_elem_of_cons. rewrite Hout by done. by apply Hframe.
Qed.
End deletion.



Lemma chains_not_allForProposal p :
  REDIS_KEYS.delegation_chains p ∉ REDIS_KEYS.allForProposal p.
Proof.
  unfold REDIS_KEYS.allForProposal, REDIS_KEYS.delegation_chains. intros Hin.
  repeat (apply elem_of_cons in Hin as [Hin|Hin]; [revert Hin; key_clash|]).
  by apply elem_of_nil in Hin.
Qed.


(** X7.  [deleteProposalData(p)] never removes the key that
    [REDIS_KEYS.delegation_chains(p)] names: [REDIS_KEYS.allForProposal]
    lists [proposal:p:delegation_chains], the key function builds
    [proposal:p:chains]. *)
Theorem deleteProposalData_keeps_chains (p : string) (world : world) :
  let world' := (RedisVotingOps.deleteProposalData p world).2 in
  redis world' !! REDIS_KEYS.delegation_chains p = redis world !! REDIS_KEYS.delegation_chains p ∧
  REDIS_KEYS.delegation_chains p ∉ REDIS_KEYS.allForProposal p.
Proof.
  intros world'. split; [|apply chains_not_allForProposal]. unfold world'.
  destruct (del_spec (REDIS_KEYS.allForProposal p) (redis world)) as (n & E & _ & _ & Hout).
  unfold RedisVotingOps.deleteProposalData. rewrite (wr_eq _ _ _ _ E). simpl.
  apply Hout, chains_not_allForProposal.
Qed.

Example chains_survive_deletion :
  let world := World {[ REDIS_KEYS.delegation_chains "p" := RHash {[ "a" := "c" ]};
                        REDIS_KEYS.votes "p" := RHash {[ "c" := "1" ]} ]} emptyDb in
  RedisVotingOps.deleteProposalData "p" world
  = (Ok 1, World {[ REDIS_KEYS.delegation_chains "p" := RHash {[ "a" := "c" ]} ]} emptyDb).
Proof. by vm_compute. Qed.

(** ** Voting power, wallet by wallet *)

Section credits.
Context {A : Type} (f : A → string).
Implicit Types (l : list A) (vp : gmap string nat).

Lemma credit_lookup vp x w :
  DelegationEngine.credit vp x !! w
  = if decide (x = w) then Some (default 0 (vp !! w) + 1) else vp !! w.
Proof.
  unfold DelegationEngine.credit. case_decide as H.
  - subst. by rewrite lookup_insert_eq.
  - by rewrite lookup_insert_ne.
Qed.

Lemma credits_lookup l vp w :
  foldl (λ acc x, DelegationEngine.credit acc (f x)) vp l !! w
  = bump (vp !! w) (List.length (filter (λ x, f x = w) l)).
Proof.
  revert vp. induction l as [|x l IH]; intros vp; cbn [foldl].
  - simpl. unfold bump. destruct (vp !! w); simpl; [f_equal; lia | done].
  - rewrite IH, credit_lookup. destruct (decide (f x = w)) as [Hx|Hx].
    + rewrite filter_cons_True by done. simpl. unfold bump.
      destruct (vp !! w), (List.length _); simpl; f_equal; lia.
    + by rewrite filter_cons_False by done.
Qed.
End credits.

Lemma count_NoDup (l : list string) (w : string) :
  NoDup l → List.length (filter (λ x, x = w) l) = if decide (w ∈ l) then 1 else 0.
Proof.
  induction 1 as [|x l Hx Hnd IH].
  - rewrite decide_False; [done|]. apply not_elem_of_nil.
  - destruct (decide (x = w)) as [->|Hne].
    + rewrite filter_cons_True by done. simpl. rewrite IH.
      rewrite decide_False by done. rewrite decide_True; [done|by left].
    + rewrite filter_cons_False by done. rewrite IH.
      destruct (decide (w ∈ l)) as [Hin|Hnin].
      * rewrite decide_True; [done|by right].
      * rewrite decide_False; [done|]. apply not_elem_of_cons. split; [congruence|done].
Qed.

Lemma keep_nonzero (n : nat) :
  n ≠ 0 → (Some n ≫= λ x : nat, guard (x ≠ 0) ≫= λ _, Some x) = Some n.
Proof.
  intros H. change (guard (n ≠ 0) ≫= (λ _, Some n) = Some n).
  by rewrite option_guard_True.
Qed.

Lemma calculateVotingPowers_lookup {V} (delegationResolution : gmap string string)
      (votesMap : gmap string V) (w : string) :
  DelegationEngine.calculateVotingPowers delegationResolution votesMap !! w
  = bump None (delegatedTo delegationResolution w
               + if decide (w ∈ dom votesMap) then 1 else 0).
Proof.
  unfold DelegationEngine.calculateVotingPowers, delegatedTo.
  rewrite map_lookup_filter.
  rewrite (credits_lookup id).
  assert (E : ∀ l vp, foldl (λ votingPowers '(_, finalDelegate),
                         DelegationEngine.credit votingPowers finalDelegate) vp l
              = foldl (λ acc (x : string * string), DelegationEngine.credit acc (snd x)) vp l).
  { induction l as [|[a b] l IH]; intros vp; simpl; [done|]. by rewrite IH. }
  rewrite E, (credits_lookup snd), lookup_empty.
  rewrite (count_NoDup _ w) by apply NoDup_fst_map_to_list.
  set (a := List.length _).
  assert (Hdom : w ∈ (map_to_list votesMap).*1 ↔ w ∈ dom votesMap).
  { rewrite elem_of_dom. split.
    - intros ([k v] & -> & Hin)%list_elem_of_fmap. apply elem_of_map_to_list in Hin. by eexists.
    - intros [v Hv]. apply list_elem_of_fmap. exists (w, v). split; [done|].
      by apply elem_of_map_to_list. }
  destruct (decide (w ∈ (map_to_list votesMap).*1)) as [Hin|Hnin].
  - rewrite decide_True by by apply Hdom.
    replace (bump (bump None a) 1) with (Some (a + 1)).
    + rewrite keep_nonzero by lia. unfold bump. destruct (a + 1) eqn:?; [lia|done].
    + unfold bump. destruct a; simpl; f_equal; lia.
  - rewrite decide_False by (by rewrite <- Hdom).
    destruct a as [|a'].
    + done.
    + replace (bump (bump None (S a')) 0) with (Some (S a')).
      * rewrite keep_nonzero by lia. unfold bump. simpl. f_equal. lia.
      * unfold bump. simpl. f_equal. lia.
Qed.

(** X8.  For a resolution and a votes map over wallets with plain names,
    the voting power [calculateVotingPowers] gives a wallet is the number
    of delegators resolved to it, plus one when the wallet is a key of the
    votes map; a wallet for which this is zero gets no entry.  Hence every
    entry is at least 1 (the clean-up step removes nothing) and every voter
    has an entry. *)
Theorem voting_power_pointwise {V} (delegationResolution : gmap string string)
        (votesMap : gmap string V) (w : string) :
  plain_names delegationResolution →
  plain_keys votesMap →
  let received := delegatedTo delegationResolution w in
  let own := if decide (w ∈ dom votesMap) then 1 else 0 in
  let votingPowers := DelegationEngine.calculateVotingPowers delegationResolution votesMap in
  (votingPowers !! w = if decide (received + own = 0) then None else Some (received + own)) ∧
  (∀ power, votingPowers !! w = Some power → 1 ≤ power) ∧
  (w ∈ dom votesMap → ∃ power, votingPowers !! w = Some power ∧ 1 ≤ power).
Proof.
  intros _ _ received own votingPowers.
  assert (H : votingPowers !! w
              = if decide (received + own = 0) then None else Some (received + own)).
  { unfold votingPowers. rewrite calculateVotingPowers_lookup. fold received own.
    unfold bump. case_decide as Hz; [by rewrite Hz|].
    destruct (received + own); [done|]. simpl. f_equal. }
  split_and!; [done| |].
  - intros power. rewrite H. case_decide; [done|]. intros [= <-]. lia.
  - intros Hin. rewrite H.
    assert (own = 1) as Hown by (unfold own; by destruct (decide (w ∈ dom votesMap))).
    rewrite decide_False by lia. eexists. split; [done|lia].
Qed.

Lemma voting_power_pointwise_witness :
  let delegationResolution : gmap string string := {[ "a" := "c"; "b" := "c" ]} in
  let received := delegatedTo delegationResolution "c" in
  let own := if decide ("c" ∈ dom tieVotes) then 1 else 0 in
  let votingPowers := DelegationEngine.calculateVotingPowers delegationResolution tieVotes in
  (votingPowers !! "c" = if decide (received + own = 0) then None else Some (received + own)) ∧
  (∀ power, votingPowers !! "c" = Some power → 1 ≤ power) ∧
  ("c" ∈ dom tieVotes → ∃ power, votingPowers !! "c" = Some power ∧ 1 ≤ power).
Proof.
  apply (voting_power_pointwise {[ "a" := "c"; "b" := "c" ]} tieVotes "c").
  - apply (bool_decide_unpack _). vm_compute. exact I.
  - apply (bool_decide_unpack _). vm_compute. exact I.
Defined.

(** Scenario 1: the two delegators and its own vote give C the power 3. *)
Example voting_power_scenario1 :
  DelegationEngine.calculateVotingPowers {[ "a" := "c"; "b" := "c" ]} tieVotes
  = {[ "c" := 3; "d" := 1 ]}.
Proof. by vm_compute. Qed.

(** ** The resolution audit *)

Section bulk_reads.
Implicit Types (p : string) (world : world).

Lemma getAllDelegations_cases p world :
  (hash_or_absent (redis world !! REDIS_KEYS.delegations p) ∧
   ∃ m, RedisVotingOps.getAllDelegations p world = (Ok m, world)) ∨
  (¬ hash_or_absent (redis world !! REDIS_KEYS.delegations p) ∧
   ∃ msg, RedisVotingOps.getAllDelegations p world = (Throw msg, world)).
Proof.
  unfold RedisVotingOps.getAllDelegations, Async.bind. rewrite rd_eq. unfold hgetall.
  destruct (redis world !! _) as [[s|h|s]|]; simpl; eauto.
Qed.

Lemma getAllVotes_cases p world :
  (hash_or_absent (redis world !! REDIS_KEYS.votes p) ∧
   ∃ m, RedisVotingOps.getAllVotes p world = (Ok m, world)) ∨
  (¬ hash_or_absent (redis world !! REDIS_KEYS.votes p) ∧
   ∃ msg, RedisVotingOps.getAllVotes p world = (Throw msg, world)).
Proof.
  unfold RedisVotingOps.getAllVotes, Async.bind. rewrite rd_eq. unfold hgetall.
  destruct (redis world !! _) as [[s|h|s]|]; simpl; eauto.
Qed.

Lemma getAllParticipants_cases p world :
  (set_or_absent (redis world !! REDIS_KEYS.participants p) ∧
   ∃ m, RedisVotingOps.getAllParticipants p world = (Ok m, world)) ∨
  (¬ set_or_absent (redis world !! REDIS_KEYS.participants p) ∧
   ∃ msg, RedisVotingOps.getAllParticipants p world = (Throw msg, world)).
Proof.
  unfold RedisVotingOps.getAllParticipants. rewrite rd_eq. unfold smembers.
  destruct (redis world !! _) as [[s|h|s]|]; simpl; eauto.
Qed.
End bulk_reads.

Lemma loadVotingPowers_saved p world r row :
  delegation_resolution_audit (supabase world) !! p = Some row →
  ra_status row = completed → ra_resolution_data row = ResolutionData r →
  FinalVoteEngine.loadVotingPowers p world = (Ok (Some (votingPowers r)), world).
Proof.
  intros Hrow Hst Hdata. unfold FinalVoteEngine.loadVotingPowers. rewrite try_rethrow.
  unfold Async.bind, Async.db_rd. rewrite Hrow, decide_True by done. by rewrite Hdata.
Qed.

Lemma getSavedResolution_saved p world row :
  delegation_resolution_audit (supabase world) !! p = Some row →
  DelegationEngine.getSavedResolution p world
  = (Ok (if decide (ra_status row = completed) then Some (ra_resolution_data row) else None),
     world).
Proof.
  intros Hrow. unfold DelegationEngine.getSavedResolution, Async.try_catch, Async.bind,
    Async.db_rd. rewrite Hrow. by case_decide.
Qed.

(** X9.  On ordinary contents of the proposal's keys,
    [resolveBulkDelegations] never throws and never writes to the ephemeral
    store.  It upserts exactly the resolution audit row of the proposal:
    on success (which is when the three keys hold the declared kinds) the
    'completed' row, from which [getSavedResolution] returns the resolution
    and [loadVotingPowers] its voting powers; on failure the 'error' row
    with the message, from which both return [null]. *)
Theorem resolution_is_audited (e : env) (p : string) (world : world) :
  ordinary p world →
  ∃ outcome row world',
    DelegationEngine.resolveBulkDelegations e p world = (Ok outcome, world') ∧
    redis world' = redis world ∧
    supabase world' = upsert_resolution_audit p row (supabase world) ∧
    match outcome with
    | BulkSuccess r =>
        well_typed p (redis world) ∧
        ra_status row = completed ∧ ra_resolution_data row = ResolutionData r ∧
        DelegationEngine.getSavedResolution p world' = (Ok (Some (ResolutionData r)), world') ∧
        FinalVoteEngine.loadVotingPowers p world' = (Ok (Some (votingPowers r)), world')
    | BulkFailure err _ =>
        ¬ well_typed p (redis world) ∧
        ra_status row = error ∧ ra_error_message row = Some err ∧
        DelegationEngine.getSavedResolution p world' = (Ok None, world') ∧
        FinalVoteEngine.loadVotingPowers p world' = (Ok None, world')
    end.
Proof.
  intros _. unfold DelegationEngine.resolveBulkDelegations, Async.try_catch.
  assert (Hfail : ∀ msg,
    ¬ well_typed p (redis world) →
    ∃ outcome row world',
      Async.bind (DelegationEngine.saveErrorAudit p msg (elapsedMs e))
                 (λ _, Async.ret (BulkFailure msg (elapsedMs e))) world = (Ok outcome, world') ∧
      redis world' = redis world ∧
      supabase world' = upsert_resolution_audit p row (supabase world) ∧
      match outcome with
      | BulkSuccess r =>
          well_typed p (redis world) ∧
          ra_status row = completed ∧ ra_resolution_data row = ResolutionData r ∧
          DelegationEngine.getSavedResolution p world' = (Ok (Some (ResolutionData r)), world') ∧
          FinalVoteEngine.loadVotingPowers p world' = (Ok (Some (votingPowers r)), world')
      | BulkFailure err _ =>
          ¬ well_typed p (redis world) ∧
          ra_status row = error ∧ ra_error_message row = Some err ∧
          DelegationEngine.getSavedResolution p world' = (Ok None, world') ∧
          FinalVoteEngine.loadVotingPowers p world' = (Ok None, world')
      end).
  { intros msg Hnwt. eexists _, _, _. split; [reflexivity|]. simpl.
    split_and!; try done.
    - erewrite getSavedResolution_saved by (simpl; apply lookup_insert_eq). done.
    - apply loadVotingPowers_none. intros row. simpl. rewrite lookup_insert_eq.
      by intros [= <-]. }
  destruct (getAllDelegations_cases p world) as [[Hd [dm Ed]]|[Hd [msg Ed]]];
    rewrite ?(bind_eq _ _ _ _ _ Ed).
  2:{ unfold Async.bind at 1. rewrite Ed. apply Hfail. intros (? & ? & ?). done. }
  destruct (getAllVotes_cases p world) as [[Hv [vm Ev]]|[Hv [msg Ev]]];
    rewrite ?(bind_eq _ _ _ _ _ Ev).
  2:{ unfold Async.bind at 1. rewrite Ev. apply Hfail. intros (? & ? & ?). done. }
  destruct (getAllParticipants_cases p world) as [[Hp [pm Ep]]|[Hp [msg Ep]]];
    rewrite ?(bind_eq _ _ _ _ _ Ep).
  2:{ unfold Async.bind at 1. rewrite Ep. apply Hfail. intros (? & ? & ?). done. }
  eexists _, _, _. split; [reflexivity|]. simpl. split_and!; try done.
  - erewrite getSavedResolution_saved by (simpl; apply lookup_insert_eq). done.
  - eapply (loadVotingPowers_saved _ _ (Resolution _ _ _ _ _ _));
      [simpl; apply lookup_insert_eq | done | done].
Qed.

Lemma resolution_is_audited_witness :
  ∃ outcome row world',
    DelegationEngine.resolveBulkDelegations env0 "p" scenario1 = (Ok outcome, world') ∧
    redis world' = redis scenario1 ∧
    supabase world' = upsert_resolution_audit "p" row (supabase scenario1) ∧
    match outcome with
    | BulkSuccess r =>
        well_typed "p" (redis scenario1) ∧
        ra_status row = completed ∧ ra_resolution_data row = ResolutionData r ∧
        DelegationEngine.getSavedResolution "p" world' = (Ok (Some (ResolutionData r)), world') ∧
        FinalVoteEngine.loadVotingPowers "p" world' = (Ok (Some (votingPowers r)), world')
    | BulkFailure err _ =>
        ¬ well_typed "p" (redis scenario1) ∧
        ra_status row = error ∧ ra_error_message row = Some err ∧
        DelegationEngine.getSavedResolution "p" world' = (Ok None, world') ∧
        FinalVoteEngine.loadVotingPowers "p" world' = (Ok None, world')
    end.
Proof.
  apply (resolution_is_audited env0 "p" scenario1).
  apply (bool_decide_unpack _). vm_compute. exact I.
Defined.

(** ** The weighted count *)

Section tallied_sum.
Implicit Types (m : gmap jsnum nat) (k : jsnum).

Lemma tallied_insert m k n : m !! k = None → tallied (<[k := n]> m) = n + tallied m.
Proof. intros H. unfold tallied. by rewrite map_to_list_insert. Qed.

Lemma tallied_add m k n : tallied (<[k := default 0 (m !! k) + n]> m) = tallied m + n.
Proof.
  destruct (m !! k) as [t|] eqn:Hk; simpl.
  - rewrite <- insert_delete_eq, tallied_insert by apply lookup_delete_eq.
    rewrite <- (insert_delete_id m k t Hk) at 2.
    rewrite tallied_insert by apply lookup_delete_eq. lia.
  - rewrite tallied_insert by done. lia.
Qed.

Lemma tallied_zero m : (∀ k, m !! k = None ∨ m !! k = Some 0) → tallied m = 0.
Proof.
  induction m as [|k n m Hk _ IH] using map_first_key_ind; intros H.
  - unfold tallied. by rewrite map_to_list_empty.
  - rewrite tallied_insert by done.
    assert (n = 0) as ->.
    { destruct (H k) as [Hn|Hn]; rewrite lookup_insert_eq in Hn; congruence. }
    rewrite IH; [done|]. intros k'. destruct (decide (k' = k)) as [->|Hne]; [by left|].
    specialize (H k'). by rewrite lookup_insert_ne in H.
Qed.
End tallied_sum.

Lemma countVote_tallied vp l s :
  tallied (FinalVoteEngine.ts_optionTallies (foldl (FinalVoteEngine.countVote vp) s l))
  = tallied (FinalVoteEngine.ts_optionTallies s) + sum_list_with (power vp) l.
Proof.
  revert s. induction l as [|[w o] l IH]; intros s; cbn [foldl sum_list_with]; [lia|].
  rewrite IH. cbn [FinalVoteEngine.countVote FinalVoteEngine.ts_optionTallies].
  rewrite tallied_add. rewrite power_powerOf. simpl. lia.
Qed.

Lemma countVote_voters vp l s :
  FinalVoteEngine.ts_totalUniqueVoters (foldl (FinalVoteEngine.countVote vp) s l)
  = FinalVoteEngine.ts_totalUniqueVoters s + List.length l.
Proof.
  revert s. induction l as [|[w o] l IH]; intros s; cbn [foldl]; [simpl; lia|].
  rewrite IH. simpl. lia.
Qed.

Lemma power_sum_ge vp (l : list (string * jsnum)) :
  List.length l ≤ sum_list_with (power vp) l.
Proof.
  induction l as [|e l IH]; simpl; [done|].
  pose proof (power_pos vp e). lia.
Qed.

(** X10.  For the votes of wallets with plain names,
    [calculateWeightedResults] accounts for every unit it counts:
    [totalVotesCast] is the sum of the voters' powers (a voter's entry in
    the power map, 1 without one), the tallies of the options add up to it,
    and [totalUniqueVoters] is the number of votes.  As a voter weighs at
    least 1, no more voters are reported than votes cast, and no option
    holds more than [totalVotesCast]. *)
Theorem tallies_add_up (votingPowers : gmap string nat) (votes : gmap string jsnum)
        (proposalOptions : option (list proposal_option)) :
  plain_keys votes →
  let r := FinalVoteEngine.calculateWeightedResults votingPowers votes proposalOptions in
  totalVotesCast r = sum_list_with (power votingPowers) (map_to_list votes) ∧
  tallied (optionTallies r) = totalVotesCast r ∧
  totalUniqueVoters r = size votes ∧
  totalUniqueVoters r ≤ totalVotesCast r ∧
  (∀ o t, optionTallies r !! o = Some t → t ≤ totalVotesCast r).
Proof.
  intros _ r. split; [apply cast_closed_form|].
  assert (Hsum : tallied (optionTallies r) = totalVotesCast r).
  { unfold r. rewrite cast_closed_form. unfold FinalVoteEngine.calculateWeightedResults.
    cbn [optionTallies]. rewrite countVote_tallied. cbn [FinalVoteEngine.ts_optionTallies].
    rewrite tallied_zero; [done|]. apply initTallies_lookup. }
  assert (Hn : totalUniqueVoters r = size votes).
  { unfold r, FinalVoteEngine.calculateWeightedResults. cbn [totalUniqueVoters].
    rewrite countVote_voters. simpl. apply length_map_to_list. }
  split_and!; [done|done| |].
  - rewrite Hn. unfold r. rewrite cast_closed_form, <- length_map_to_list.
    apply power_sum_ge.
  - intros o t Ho. rewrite <- Hsum.
    rewrite <- (insert_delete_id _ _ _ Ho), tallied_insert by apply lookup_delete_eq. lia.
Qed.

Lemma tallies_add_up_witness :
  let votingPowers : gmap string nat := {[ "c" := 3; "d" := 1 ]} in
  let r := FinalVoteEngine.calculateWeightedResults votingPowers tieVotes twoOptions in
  totalVotesCast r = sum_list_with (power votingPowers) (map_to_list tieVotes) ∧
  tallied (optionTallies r) = totalVotesCast r ∧
  totalUniqueVoters r = size tieVotes ∧
  totalUniqueVoters r ≤ totalVotesCast r ∧
  (∀ o t, optionTallies r !! o = Some t → t ≤ totalVotesCast r).
Proof.
  apply (tallies_add_up {[ "c" := 3; "d" := 1 ]} tieVotes twoOptions).
  apply (bool_decide_unpack _). vm_compute. exact I.
Defined.

(** Scenario 1: 3 units for option 1 and 1 for option 2, from two voters. *)
Example tallies_scenario1 :
  let r := FinalVoteEngine.calculateWeightedResults
             {[ "c" := 3; "d" := 1 ]} tieVotes twoOptions in
  optionTallies r = {[ Num 1 := 3; Num 2 := 1 ]} ∧
  totalVotesCast r = 4 ∧ totalUniqueVoters r = 2.
Proof. by vm_compute. Qed.

(** ** The final audit *)

Section final_reads.
Implicit Types (p : string) (world : world).



Lemma getSavedResults_saved p world row :
  final_vote_results_audit (supabase world) !! p = Some row →
  FinalVoteEngine.getSavedResults p world
  = (Ok (if decide (fa_status row = completed) then Some (fa_vote_results row) else None),
     world).
Proof.
  intros Hrow. unfold FinalVoteEngine.getSavedResults, Async.try_catch, Async.bind,
    Async.db_rd. rewrite Hrow. by case_decide.
Qed.
End final_reads.


(** ** The scheduler *)


Lemma convertVotes_dom (raw : gmap string string) (k : string) :
  k ∈ dom (RedisVotingOps.convertVotes raw) → Js.toLowerCase k = k.
Proof.
  unfold RedisVotingOps.convertVotes.
  assert (G : ∀ (l : list (string * string)) (acc : gmap string jsnum),
             (k ∈ dom acc → Js.toLowerCase k = k) →
             k ∈ dom (foldl (λ convertedVotes '(wallet, option),
                               <[ Js.toLowerCase wallet := jsnum_of (Js.parseInt option) ]>
                                 convertedVotes) acc l) →
             Js.toLowerCase k = k).
  { induction l as [|[w o] l IH]; intros acc Hacc; simpl; [done|].
    apply IH. rewrite dom_insert_L. intros [->%elem_of_singleton|Hk]%elem_of_union.
    - apply toLowerCase_idemp.
    - by apply Hacc. }
  apply G. rewrite dom_empty_L. intros Hk. by apply elem_of_empty in Hk.
Qed.

Lemma sum_list_with_eq {A} (f g : A → nat) (l : list A) :
  (∀ x, x ∈ l → f x = g x) → sum_list_with f l = sum_list_with g l.
Proof.
  induction l as [|x l IH]; intros H; simpl; [done|].
  rewrite H by (by left). rewrite IH; [done|]. intros y Hy. apply H. by right.
Qed.

(** Voters that all hold an entry cast no more than the powers add up to. *)
Lemma cast_le_power (votes : gmap string jsnum) : ∀ vp : gmap string nat,
  (∀ k, k ∈ dom votes → Js.toLowerCase k = k ∧ ∃ n, vp !! k = Some n ∧ 1 ≤ n) →
  sum_list_with (power vp) (map_to_list votes) ≤ FinalVoteEngine.sumPowers vp.
Proof.
  induction votes as [|k o m Hk _ IH] using map_first_key_ind; intros vp H.
  - rewrite map_to_list_empty. simpl. lia.
  - rewrite map_to_list_insert by done. cbn [sum_list_with].
    destruct (H k) as (Hlow & n & Hn & Hpos); [rewrite dom_insert_L; set_solver|].
    assert (Hpk : power vp (k, o) = n).
    { unfold power, FinalVoteEngine.powerOf. simpl. rewrite Hlow, Hn. by destruct n; [lia|]. }
    assert (Hvp : FinalVoteEngine.sumPowers vp = n + FinalVoteEngine.sumPowers (delete k vp)).
    { rewrite <- (insert_delete_id vp k n Hn) at 1.
      by rewrite sumPowers_insert by apply lookup_delete_eq. }
    rewrite Hpk, Hvp.
    assert (Hrest : sum_list_with (power vp) (map_to_list m)
                    = sum_list_with (power (delete k vp)) (map_to_list m)).
    { apply sum_list_with_eq. intros [k' o'] Hin. apply elem_of_map_to_list in Hin.
      assert (k' ≠ k) by congruence.
      destruct (H k') as (Hlow' & _).
      { rewrite dom_insert_L. apply elem_of_union_r, elem_of_dom. by eexists. }
      unfold power, FinalVoteEngine.powerOf. simpl. rewrite Hlow'.
      by rewrite lookup_delete_ne. }
    rewrite Hrest. apply Nat.add_le_mono_l. apply IH.
    intros k' Hk'.
    assert (k' ≠ k). { intros ->. apply elem_of_dom in Hk' as [? ?]. congruence. }
    destruct (H k') as (Hlow' & n' & Hn' & Hpos').
    { rewrite dom_insert_L. by apply elem_of_union_r. }
    split; [done|]. exists n'. by rewrite lookup_delete_ne.
Qed.

Section pipeline.
Implicit Types (e : env) (p : string) (world : world).

Lemma resolveBulkDelegations_ok e p world :
  well_typed p (redis world) →
  ∃ r row,
    DelegationEngine.resolveBulkDelegations e p world
    = (Ok (BulkSuccess r), World (redis world) (upsert_resolution_audit p row (supabase world))) ∧
    ra_status row = completed ∧ ra_resolution_data row = ResolutionData r ∧
    ∃ delegationResolution,
      votingPowers r
      = DelegationEngine.calculateVotingPowers
          delegationResolution (RedisVotingOps.convertVotes (votesOf p world)).
Proof.
  intros (Hv & Hd & Hp). unfold DelegationEngine.resolveBulkDelegations, Async.try_catch.
  rewrite (bind_eq _ _ _ _ _ (getAllDelegations_view p world Hd)).
  rewrite (bind_eq _ _ _ _ _ (getAllVotes_view p world Hv)).
  rewrite (bind_eq _ _ _ _ _ (getAllParticipants_view p world Hp)).
  eexists _, _. split; [reflexivity|]. split_and!; [done|reflexivity|].
  eexists. reflexivity.
Qed.

Lemma calculateFinalResults_ok e p world vp votes proposal :
  FinalVoteEngine.loadVotingPowers p world = (Ok (Some vp), world) →
  RedisVotingOps.getAllVotes p world = (Ok votes, world) →
  proposals (supabase world) !! p = Some proposal →
  ∃ results row,
    FinalVoteEngine.calculateFinalResults e p world
    = (Ok (FinalSuccess results),
       World (redis world) (upsert_final_audit p row (supabase world))) ∧
    fa_status row = completed ∧ fa_vote_results row = VoteResults results ∧
    let r := FinalVoteEngine.calculateWeightedResults vp votes (Some (options proposal)) in
    optionResults results = optionTallies r ∧
    fm_totalVotingPower (fr_metadata results) = totalVotingPower r ∧
    fm_totalVotesCast (fr_metadata results) = totalVotesCast r ∧
    fm_totalUniqueVoters (fr_metadata results) = totalUniqueVoters r ∧
    fm_winningOption (fr_metadata results) = winningOption r.
Proof.
  intros Evp Ev Hp. unfold FinalVoteEngine.calculateFinalResults, Async.try_catch.
  rewrite (bind_eq _ _ _ _ _ Evp), (bind_eq _ _ _ _ _ Ev).
  assert (Ep : proposalDb.getById p world = (Ok proposal, world)).
  { unfold proposalDb.getById, Async.bind, Async.db_rd. by rewrite Hp. }
  rewrite (bind_eq _ _ _ _ _ Ep).
  eexists _, _. split; [reflexivity|]. by split_and!.
Qed.
End pipeline.

Lemma completedIds_elem {R} (status : R → audit_status) (table : gmap string R) (p : string) :
  p ∈ ProposalScheduler.completedIds status table
  ↔ ∃ row, table !! p = Some row ∧ status row = completed.
Proof.
  unfold ProposalScheduler.completedIds. rewrite list_elem_of_fmap. split.
  - intros ([k row] & -> & [Hst Hin%elem_of_map_to_list]%list_elem_of_filter). by exists row.
  - intros (row & Hrow & Hst). exists (p, row). split; [done|].
    apply list_elem_of_filter. split; [done|]. by apply elem_of_map_to_list.
Qed.

Lemma fullyCompletedIds_elem (db : database) (p : string) :
  p ∈ ProposalScheduler.fullyCompletedIds db
  ↔ (∃ row, delegation_resolution_audit db !! p = Some row ∧ ra_status row = completed) ∧
    (∃ row, final_vote_results_audit db !! p = Some row ∧ fa_status row = completed).
Proof.
  unfold ProposalScheduler.fullyCompletedIds. rewrite list_elem_of_filter.
  rewrite !completedIds_elem. tauto.
Qed.


Lemma processProposal_run (e1 e2 : env) (p : string) (world : world) :
  well_typed p (redis world) →
  is_Some (proposals (supabase world) !! p) →
  ∃ r results row1 row2,
    ProposalScheduler.processProposal e1 e2 p world
    = (Ok tt, World (redis world)
                    (upsert_final_audit p row2
                       (upsert_resolution_audit p row1 (supabase world)))) ∧
    (ra_status row1 = completed ∧ ra_resolution_data row1 = ResolutionData r) ∧
    (fa_status row2 = completed ∧ fa_vote_results row2 = VoteResults results) ∧
    fm_totalVotingPower (fr_metadata results) = FinalVoteEngine.sumPowers (votingPowers r) ∧
    fm_totalVotesCast (fr_metadata results) ≤ fm_totalVotingPower (fr_metadata results).
Proof.
  intros Hwt [proposal Hp].
  destruct (resolveBulkDelegations_ok e1 p world Hwt)
    as (r & row1 & E1 & Hst1 & Hdata1 & res & Hvp).
  set (world1 := World (redis world) (upsert_resolution_audit p row1 (supabase world))) in *.
  assert (Evp : FinalVoteEngine.loadVotingPowers p world1 = (Ok (Some (votingPowers r)), world1)).
  { apply (loadVotingPowers_saved p world1 r row1); [apply lookup_insert_eq|done|done]. }
  assert (Ev : RedisVotingOps.getAllVotes p world1
               = (Ok (RedisVotingOps.convertVotes (votesOf p world)), world1)).
  { rewrite getAllVotes_view by apply Hwt. done. }
  destruct (calculateFinalResults_ok e2 p world1 _ _ proposal Evp Ev Hp)
    as (results & row2 & E2 & Hst2 & Hdata2 & _ & Hpow & Hcast & _).
  exists r, results, row1, row2. split_and!; [|done|done|done|done|by rewrite Hpow|].
  - unfold ProposalScheduler.processProposal, Async.try_catch.
    rewrite (bind_eq _ _ _ _ _ E1), (bind_eq _ _ _ _ _ E2). done.
  - rewrite Hcast, Hpow, cast_closed_form. apply cast_le_power.
    intros k Hk. split; [by eapply convertVotes_dom|].
    rewrite Hvp, calculateVotingPowers_lookup. rewrite decide_True by done.
    exists (delegatedTo res k + 1). split; [|lia].
    unfold bump. by destruct (_ + 1) eqn:E; [lia|].
Qed.

(** X12.  When the three keys of an existing proposal hold the declared
    kinds with ordinary contents, [processProposal] completes both stages
    without touching the ephemeral store: afterwards [getSavedResolution]
    and [getSavedResults] return the resolution and the results, the
    proposal counts as fully completed, the total voting power of the
    results is the sum of the resolved voting powers, and the votes cast do
    not exceed it. *)
Theorem processProposal_completes (e1 e2 : env) (p : string) (world : world) :
  well_typed p (redis world) →
  ordinary p world →
  is_Some (proposals (supabase world) !! p) →
  ∃ world' r results,
    ProposalScheduler.processProposal e1 e2 p world = (Ok tt, world') ∧
    redis world' = redis world ∧
    DelegationEngine.getSavedResolution p world' = (Ok (Some (ResolutionData r)), world') ∧
    FinalVoteEngine.getSavedResults p world' = (Ok (Some (VoteResults results)), world') ∧
    p ∈ ProposalScheduler.fullyCompletedIds (supabase world') ∧
    fm_totalVotingPower (fr_metadata results) = FinalVoteEngine.sumPowers (votingPowers r) ∧
    fm_totalVotesCast (fr_metadata results) ≤ fm_totalVotingPower (fr_metadata results).
Proof.
  intros Hwt _ Hp.
  destruct (processProposal_run e1 e2 p world Hwt Hp)
    as (r & results & row1 & row2 & E & [Hst1 Hdata1] & [Hst2 Hdata2] & Hpow & Hle).
  eexists _, r, results. split; [exact E|]. split_and!; try done.
  - erewrite getSavedResolution_saved by (cbn; apply lookup_insert_eq).
    rewrite decide_True by done. by rewrite Hdata1.
  - erewrite getSavedResults_saved by (cbn; apply lookup_insert_eq).
    rewrite decide_True by done. by rewrite Hdata2.
  - apply fullyCompletedIds_elem. split.
    + exists row1. split; [apply lookup_insert_eq|done].
    + exists row2. split; [apply lookup_insert_eq|done].
Qed.

Section sweep.
Variables (before : string → string → bool) (now : string) (e1 e2 : string → env).

Lemma expiredProposals_elem (db : database) (p : string) :
  p ∈ ProposalScheduler.expiredProposals before now db
  ↔ (∃ proposal, proposals db !! p = Some proposal ∧
                 before (voting_deadline proposal) now = true) ∧
    p ∉ ProposalScheduler.fullyCompletedIds db.
Proof.
  unfold ProposalScheduler.expiredProposals. rewrite list_elem_of_fmap.
  destruct (ProposalScheduler.fullyCompletedIds db) as [|c cs] eqn:Ec.
  - split.
    + intros ([k proposal] & -> & [Hb Hin%elem_of_map_to_list]%list_elem_of_filter).
      split; [by exists proposal|]. apply not_elem_of_nil.
    + intros [(proposal & Hin & Hb) _]. exists (p, proposal). split; [done|].
      apply list_elem_of_filter. split; [done|]. by apply elem_of_map_to_list.
  - split.
    + intros ([k proposal] & -> &
              [Hn [Hb Hin%elem_of_map_to_list]%list_elem_of_filter]%list_elem_of_filter).
      split; [by exists proposal|done].
    + intros [(proposal & Hin & Hb) Hn]. exists (p, proposal). split; [done|].
      apply list_elem_of_filter. split; [done|].
      apply list_elem_of_filter. split; [done|]. by apply elem_of_map_to_list.
Qed.

Lemma expiredProposals_NoDup (db : database) :
  NoDup (ProposalScheduler.expiredProposals before now db).
Proof.
  unfold ProposalScheduler.expiredProposals.
  assert (G : ∀ l : list (string * proposal),
             l `sublist_of` map_to_list (proposals db) → NoDup l.*1).
  { intros l Hl. apply (sublist_NoDup _ (map_to_list (proposals db)).*1).
    - apply NoDup_fst_map_to_list.
    - by apply fmap_sublist. }
  destruct (ProposalScheduler.fullyCompletedIds db); apply G.
  - apply sublist_filter.
  - etrans; apply sublist_filter.
Qed.

Lemma processAll_run (l : list string) : ∀ world,
  NoDup l →
  (∀ p, p ∈ l → well_typed p (redis world) ∧ is_Some (proposals (supabase world) !! p)) →
  ∃ world',
    ProposalScheduler.processAll e1 e2 l world = (Ok tt, world') ∧
    redis world' = redis world ∧
    proposals (supabase world') = proposals (supabase world) ∧
    (∀ p, p ∈ l → p ∈ ProposalScheduler.fullyCompletedIds (supabase world')) ∧
    (∀ q, q ∉ l →
          delegation_resolution_audit (supabase world') !! q
          = delegation_resolution_audit (supabase world) !! q ∧
          final_vote_results_audit (supabase world') !! q
          = final_vote_results_audit (supabase world) !! q).
Proof.
  induction l as [|p l IH]; intros world Hnd H.
  - exists world. split_and!; try done. intros p Hp. by apply elem_of_nil in Hp.
  - apply NoDup_cons in Hnd as [Hpl Hnd].
    destruct (H p) as [Hwt Hp]; [by left|].
    destruct (processProposal_run (e1 p) (e2 p) p world Hwt Hp)
      as (r & results & row1 & row2 & E & [Hst1 _] & [Hst2 _] & _).
    set (world1 := World _ _) in E.
    destruct (IH world1 Hnd) as (world' & E' & Hr & Hps & Hdone & Hrest).
    { intros q Hq. apply H. by right. }
    exists world'. split_and!.
    + cbn [ProposalScheduler.processAll]. by rewrite (bind_eq _ _ _ _ _ E).
    + by rewrite Hr.
    + by rewrite Hps.
    + intros q [->|Hq]%elem_of_cons; [|by apply Hdone].
      destruct (Hrest p Hpl) as [Hd Hf]. apply fullyCompletedIds_elem. split.
      * exists row1. split; [|done]. rewrite Hd. apply lookup_insert_eq.
      * exists row2. split; [|done]. rewrite Hf. apply lookup_insert_eq.
    + intros q Hq. apply not_elem_of_cons in Hq as [Hqp Hq].
      destruct (Hrest q Hq) as [Hd Hf]. rewrite Hd, Hf. cbn.
      by rewrite !lookup_insert_ne.
Qed.

(** X13.  A run of [checkExpiredProposals] in which the keys of the expired
    proposals hold the declared kinds with ordinary contents leaves the
    ephemeral store and the proposals table as they were and completes
    every expired proposal.  The audit rows of the proposals that were
    already fully completed are not rewritten, and the query of a second
    run at the same instant is empty. *)
Theorem sweep_completes_expired (world : world) :
  (∀ p proposal, proposals (supabase world) !! p = Some proposal →
                 before (voting_deadline proposal) now = true →
                 well_typed p (redis world) ∧ ordinary p world) →
  ∃ world',
    ProposalScheduler.checkExpiredProposals before now e1 e2 world = (Ok tt, world') ∧
    redis world' = redis world ∧
    proposals (supabase world') = proposals (supabase world) ∧
    (∀ p proposal, proposals (supabase world) !! p = Some proposal →
                   before (voting_deadline proposal) now = true →
                   p ∈ ProposalScheduler.fullyCompletedIds (supabase world')) ∧
    (∀ p, p ∈ ProposalScheduler.fullyCompletedIds (supabase world) →
          delegation_resolution_audit (supabase world') !! p
          = delegation_resolution_audit (supabase world) !! p ∧
          final_vote_results_audit (supabase world') !! p
          = final_vote_results_audit (supabase world) !! p) ∧
    ProposalScheduler.expiredProposals before now (supabase world') = [].
Proof.
  intros Hwt.
  destruct (processAll_run (ProposalScheduler.expiredProposals before now (supabase world))
                           world (expiredProposals_NoDup _))
    as (world' & E & Hr & Hps & Hdone & Hrest).
  { intros p [(proposal & Hp & Hb) _]%expiredProposals_elem.
    split; [by eapply Hwt|by eexists]. }
  assert (Hold : ∀ p, p ∈ ProposalScheduler.fullyCompletedIds (supabase world) →
                      p ∉ ProposalScheduler.expiredProposals before now (supabase world)).
  { intros p Hp [_ Hn]%expiredProposals_elem. done. }
  assert (Hall : ∀ p proposal, proposals (supabase world) !! p = Some proposal →
                   before (voting_deadline proposal) now = true →
                   p ∈ ProposalScheduler.fullyCompletedIds (supabase world')).
  { intros p proposal Hp Hb.
    destruct (decide (p ∈ ProposalScheduler.fullyCompletedIds (supabase world))) as [Hc|Hc].
    - destruct (Hrest p (Hold p Hc)) as [Hd Hf].
      apply fullyCompletedIds_elem. rewrite Hd, Hf. by apply fullyCompletedIds_elem.
    - apply Hdone. apply expiredProposals_elem. split; [by exists proposal|done]. }
  exists world'. split_and!; try done.
  - unfold ProposalScheduler.checkExpiredProposals, Async.try_catch, Async.bind at 1,
      Async.db_rd.
    destruct (ProposalScheduler.expiredProposals before now (supabase world)) eqn:El.
    + cbn in E. injection E as <-. done.
    + by rewrite E.
  - intros p Hp. by apply Hrest, Hold.
  - apply elem_of_nil_inv. intros p [(proposal & Hp & Hb) Hn]%expiredProposals_elem.
    apply Hn. rewrite Hps in Hp. by eapply Hall.
Qed.
End sweep.

Lemma processProposal_completes_witness :
  ∃ world' r results,
    ProposalScheduler.processProposal env0 env0 "p" scenario1_expired = (Ok tt, world') ∧
    redis world' = redis scenario1_expired ∧
    DelegationEngine.getSavedResolution "p" world' = (Ok (Some (ResolutionData r)), world') ∧
    FinalVoteEngine.getSavedResults "p" world' = (Ok (Some (VoteResults results)), world') ∧
    "p" ∈ ProposalScheduler.fullyCompletedIds (supabase world') ∧
    fm_totalVotingPower (fr_metadata results) = FinalVoteEngine.sumPowers (votingPowers r) ∧
    fm_totalVotesCast (fr_metadata results) ≤ fm_totalVotingPower (fr_metadata results).
Proof.
  apply (processProposal_completes env0 env0 "p" scenario1_expired).
  - vm_compute. tauto.
  - apply (bool_decide_unpack _). vm_compute. exact I.
  - vm_compute. eauto.
Defined.

Lemma sweep_completes_expired_witness :
  let now := "2025-06-01T00:00:00.000Z" in
  ∃ world',
    ProposalScheduler.checkExpiredProposals isoBefore now (λ _, env0) (λ _, env0)
                                            scenario1_expired = (Ok tt, world') ∧
    redis world' = redis scenario1_expired ∧
    proposals (supabase world') = proposals (supabase scenario1_expired) ∧
    (∀ p proposal, proposals (supabase scenario1_expired) !! p = Some proposal →
                   isoBefore (voting_deadline proposal) now = true →
                   p ∈ ProposalScheduler.fullyCompletedIds (supabase world')) ∧
    (∀ p, p ∈ ProposalScheduler.fullyCompletedIds (supabase scenario1_expired) →
          delegation_resolution_audit (supabase world') !! p
          = delegation_resolution_audit (supabase scenario1_expired) !! p ∧
          final_vote_results_audit (supabase world') !! p
          = final_vote_results_audit (supabase scenario1_expired) !! p) ∧
    ProposalScheduler.expiredProposals isoBefore now (supabase world') = [].
Proof.
  apply (sweep_completes_expired isoBefore "2025-06-01T00:00:00.000Z"
                                 (λ _, env0) (λ _, env0) scenario1_expired).
  intros p proposal Hp _. simpl in Hp. apply lookup_singleton_Some in Hp as [<- _].
  split; [vm_compute; tauto|]. apply (bool_decide_unpack _). vm_compute. exact I.
Defined.

(** ** Snapshots in batches *)

Section batch.
Import RedisBackupManager.
Implicit Types (p ty : string) (world : world) (st : store).

(** A bind whose first step answered without touching the world. *)
Lemma bind_read {A B} (m : M A) (k : A → M B) world (r : result A) :
  m world = (r, world) →
  Async.bind m k world
  = match r with Ok a => k a world | Throw e => (Throw e, world) end.
Proof. intros E. unfold Async.bind. rewrite E. by destruct r. Qed.

Lemma hgetall_cases key st :
  (hash_or_absent (st !! key) ∧ ∃ r, hgetall key st = Ok r) ∨
  (¬ hash_or_absent (st !! key) ∧ ∃ msg, hgetall key st = Throw msg).
Proof. unfold hgetall. destruct (st !! key) as [[s|h|s]|]; simpl; eauto. Qed.

Lemma smembers_cases key st :
  (set_or_absent (st !! key) ∧ ∃ r, smembers key st = Ok r) ∨
  (¬ set_or_absent (st !! key) ∧ ∃ msg, smembers key st = Throw msg).
Proof. unfold smembers. destruct (st !! key) as [[s|h|s]|]; simpl; eauto. Qed.

Lemma get_cases key st :
  (string_or_absent (st !! key) ∧ ∃ r, get key st = Ok r) ∨
  (¬ string_or_absent (st !! key) ∧ ∃ msg, get key st = Throw msg).
Proof. unfold get. destruct (st !! key) as [[s|h|s]|]; simpl; eauto. Qed.

Lemma createSnapshot_cases e p ty world :
  (snapshot_ready p (redis world) ∧
   ∃ data,
     createSnapshot e p ty world
     = (Ok (SnapshotCreated (new_snapshot_id e) data),
        World (redis world)
              (insert_snapshot {| snapshot_id := new_snapshot_id e; sn_proposal_id := p;
                                  redis_data := data; snapshot_type := ty;
                                  snapshot_at := new_snapshot_at e |} (supabase world)))) ∨
  (¬ snapshot_ready p (redis world) ∧
   ∃ msg, createSnapshot e p ty world = (Ok (SnapshotFailed msg), world)).
Proof.
  unfold createSnapshot, Async.try_catch, Async.bind, Async.rd, Async.db_wr, Async.ret,
    snapshot_ready, well_typed.
  destruct (hgetall_cases (REDIS_KEYS.votes p) (redis world)) as [[H1 [r1 ->]]|[H1 [m ->]]];
    [|right; split; [tauto|by eexists]].
  destruct (hgetall_cases (REDIS_KEYS.delegations p) (redis world)) as [[H2 [r2 ->]]|[H2 [m ->]]];
    [|right; split; [tauto|by eexists]].
  destruct (smembers_cases (REDIS_KEYS.participants p) (redis world)) as [[H3 [r3 ->]]|[H3 [m ->]]];
    [|right; split; [tauto|by eexists]].
  destruct (get_cases (REDIS_KEYS.status p) (redis world)) as [[H4 [r4 ->]]|[H4 [m ->]]];
    [|right; split; [tauto|by eexists]].
  destruct (get_cases (REDIS_KEYS.deadline p) (redis world)) as [[H5 [r5 ->]]|[H5 [m ->]]];
    [|right; split; [tauto|by eexists]].
  left. split; [tauto|]. eexists. reflexivity.
Qed.

Lemma insert_snapshots_rows (rows : list snapshot_row) (db : database) :
  redis_snapshots (insert_snapshots rows db) = redis_snapshots db ++ rows.
Proof.
  revert db. induction rows as [|row rows IH]; intros db; cbn.
  - by rewrite app_nil_r.
  - unfold insert_snapshots in IH. rewrite IH. cbn. by rewrite <- app_assoc.
Qed.

Lemma createBatchSnapshots_run (ids : list string) (ty : string) :
  ∀ (e : nat → env) (world : world),
  ∃ results rows,
    createBatchSnapshots e ids ty world
    = (Ok results, World (redis world) (insert_snapshots rows (supabase world))) ∧
    be_proposalId <$> results = ids ∧
    (∀ entry, entry ∈ results →
              succeeded entry = true ↔ snapshot_ready (be_proposalId entry) (redis world)) ∧
    sn_proposal_id <$> rows = be_proposalId <$> filter (λ entry, succeeded entry = true) results ∧
    Forall (λ row, snapshot_type row = ty) rows.
Proof.
  induction ids as [|p ids IH]; intros e world.
  - exists [], []. split_and!; [by destruct world|done| |done|done].
    intros entry Hin. by apply elem_of_nil in Hin.
  - cbn [createBatchSnapshots].
    destruct (createSnapshot_cases (e 0) p ty world) as [[Hr [data E]]|[Hr [msg E]]].
    + unfold Async.try_catch at 1. unfold Async.bind at 1. rewrite E.
      set (row := SnapshotRow _ _ _ _ _).
      destruct (IH (λ i, e (S i)) (World (redis world) (insert_snapshot row (supabase world))))
        as (results & rows & E' & Hids & Hok & Hrows & Hty).
      rewrite (bind_eq _ _ _ _ _ E').
      eexists _, (row :: rows). split; [reflexivity|]. split_and!.
      * cbn. by rewrite Hids.
      * intros entry [->|Hin]%elem_of_cons; [done|by apply Hok].
      * rewrite filter_cons_True by done. cbn. by rewrite Hrows.
      * by constructor.
    + unfold Async.try_catch at 1. unfold Async.bind at 1. rewrite E.
      destruct (IH (λ i, e (S i)) world) as (results & rows & E' & Hids & Hok & Hrows & Hty).
      rewrite (bind_eq _ _ _ _ _ E').
      eexists _, rows. split; [reflexivity|]. split_and!.
      * cbn. by rewrite Hids.
      * intros entry [->|Hin]%elem_of_cons; [done|by apply Hok].
      * by rewrite filter_cons_False by done.
      * done.
Qed.

(** X14.  [createBatchSnapshots] answers one entry for every proposal id
    it was given, in their order, and never touches the ephemeral store:
    a proposal that cannot be captured does not stop the ones after it.  An
    entry is a success exactly when the five keys [createSnapshot] reads
    hold the declared kinds, and the snapshot table receives one row of
    the requested type for each success, in the same order. *)
Theorem batch_snapshots (e : nat → env) (ids : list string) (ty : string) (world : world) :
  ∃ results world',
    createBatchSnapshots e ids ty world = (Ok results, world') ∧
    redis world' = redis world ∧
    be_proposalId <$> results = ids ∧
    (∀ entry, entry ∈ results →
              succeeded entry = true ↔ snapshot_ready (be_proposalId entry) (redis world)) ∧
    ∃ rows,
      redis_snapshots (supabase world') = redis_snapshots (supabase world) ++ rows ∧
      sn_proposal_id <$> rows
      = be_proposalId <$> filter (λ entry, succeeded entry = true) results ∧
      Forall (λ row, snapshot_type row = ty) rows.
Proof.
  destruct (createBatchSnapshots_run ids ty e world)
    as (results & rows & E & Hids & Hok & Hrows & Hty).
  eexists results, _. split; [exact E|]. split_and!; [done..|].
  exists rows. split_and!; [|done..]. apply insert_snapshots_rows.
Qed.

Lemma proposalsWithData_cases (activeProposals : list string) world :
  (Forall (λ p, set_or_absent (redis world !! REDIS_KEYS.participants p)) activeProposals ∧
   proposalsWithData activeProposals world
   = (Ok (filter (λ p, participantsOf p world ≠ ∅) activeProposals), world)) ∨
  (¬ Forall (λ p, set_or_absent (redis world !! REDIS_KEYS.participants p)) activeProposals ∧
   ∃ msg, proposalsWithData activeProposals world = (Throw msg, world)).
Proof.
  induction activeProposals as [|p rest IH]; [by left|].
  cbn [proposalsWithData]. rewrite (bind_read _ _ _ _ (rd_eq _ _)).
  assert (Hview : ∀ s, redis world !! REDIS_KEYS.participants p = Some (RSet s) →
                       participantsOf p world = s).
  { intros s Hs. unfold participantsOf, setAt. by rewrite Hs. }
  assert (Hnone : redis world !! REDIS_KEYS.participants p = None →
                  participantsOf p world = ∅).
  { intros Hs. unfold participantsOf, setAt. by rewrite Hs. }
  unfold scard.
  destruct (redis world !! REDIS_KEYS.participants p) as [[s|h|s]|] eqn:Hp;
    try (right; split; [|by eexists]; intros Hall; apply Forall_cons in Hall as [Hall _];
         by rewrite Hp in Hall).
  - destruct IH as [[Hall E]|[Hall [msg E]]]; rewrite (bind_read _ _ _ _ E).
    + left. split; [constructor; [by rewrite Hp|done]|]. unfold Async.ret.
      destruct (decide (s = ∅)) as [->|Hs].
      * rewrite filter_cons_False by (rewrite (Hview ∅ eq_refl); intros H; by apply H). by rewrite size_empty.
      * assert (size s ≠ 0) by (by intros ?%size_empty_inv%leibniz_equiv).
        rewrite filter_cons_True by (by rewrite (Hview s eq_refl)).
        by destruct (size s) eqn:Es.
    + right. split; [by intros [_ ?]%Forall_cons|]. by eexists.
  - destruct IH as [[Hall E]|[Hall [msg E]]]; rewrite (bind_read _ _ _ _ E).
    + left. split; [constructor; [by rewrite Hp|done]|]. unfold Async.ret.
      by rewrite filter_cons_False by (rewrite (Hnone eq_refl); intros H; by apply H).
    + right. split; [by intros [_ ?]%Forall_cons|]. by eexists.
Qed.

Lemma succeeded_split (results : list batch_entry) :
  List.length (filter (λ r, succeeded r = true) results)
  + List.length (filter (λ r, succeeded r = false) results) = List.length results.
Proof.
  induction results as [|r results IH]; [done|].
  destruct (succeeded r) eqn:E.
  - rewrite filter_cons_True, filter_cons_False by (by rewrite E). cbn. lia.
  - rewrite filter_cons_False, filter_cons_True by (by rewrite E). cbn. lia.
Qed.

(** X15.  [createHourlySnapshots] never throws and never touches the
    ephemeral store.  It answers 'processed: 0', with nothing written, when
    no active proposal has a participant.  Otherwise it captures exactly the
    active proposals with a participant: the successes and failures add up
    to the number processed, and each success is one 'hourly' row of a
    proposal whose keys hold the declared kinds.  It fails, with nothing
    written, exactly when the participants key of some active proposal
    holds a value of another kind. *)
Theorem hourly_snapshots (after : string → string → bool) (now : string) (e : nat → env)
        (world : world) :
  let active :=
    (filter (λ row : string * proposal, after (voting_deadline row.2) now = true)
            (map_to_list (proposals (supabase world)))).*1 in
  ∃ r world',
    createHourlySnapshots after now e world = (Ok r, world') ∧
    redis world' = redis world ∧
    match r with
    | HourlyNothing =>
        world' = world ∧
        ∀ p, p ∈ active → set_or_absent (redis world !! REDIS_KEYS.participants p) ∧
                          participantsOf p world = ∅
    | HourlyDone processed successes failures results =>
        (∀ p, p ∈ active → set_or_absent (redis world !! REDIS_KEYS.participants p)) ∧
        be_proposalId <$> results = filter (λ p, participantsOf p world ≠ ∅) active ∧
        processed = List.length results ∧
        successes + failures = processed ∧
        ∃ rows,
          redis_snapshots (supabase world') = redis_snapshots (supabase world) ++ rows ∧
          List.length rows = successes ∧
          Forall (λ row, snapshot_type row = "hourly" ∧
                         snapshot_ready (sn_proposal_id row) (redis world)) rows
    | HourlyFailed err =>
        world' = world ∧
        ∃ p, p ∈ active ∧ ¬ set_or_absent (redis world !! REDIS_KEYS.participants p)
    end.
Proof.
  intros active. unfold createHourlySnapshots, Async.try_catch.
  rewrite (bind_read _ _ world (Ok active)) by done. clearbody active.
  destruct (proposalsWithData_cases active world) as [[Hall E]|[Hall [msg E]]].
  - destruct active as [|a active'].
    { eexists _, _. split; [reflexivity|]. split; [done|]. split; [done|].
      intros p Hp. by apply elem_of_nil in Hp. }
    rewrite (bind_eq _ _ _ _ _ E).
    destruct (filter _ (a :: active')) as [|b withData] eqn:Hf.
    { eexists _, _. split; [reflexivity|]. split; [done|]. split; [done|].
      intros p Hp. rewrite Forall_forall in Hall. split; [by apply Hall|].
      destruct (decide (participantsOf p world = ∅)) as [|Hne]; [done|].
      assert (Hin : p ∈ filter (λ p, participantsOf p world ≠ ∅) (a :: active'))
        by (by apply list_elem_of_filter).
      rewrite Hf in Hin. by apply elem_of_nil in Hin. }
    destruct (createBatchSnapshots_run (b :: withData) "hourly" e world)
      as (results & rows & E' & Hids & Hok & Hrows & Hty).
    rewrite (bind_eq _ _ _ _ _ E').
    eexists _, _. split; [reflexivity|]. split; [done|].
    split_and!; [by apply Forall_forall|done|done|apply succeeded_split|].
    exists rows. split_and!; [apply insert_snapshots_rows| |].
    + rewrite <- (length_fmap sn_proposal_id), Hrows. by rewrite length_fmap.
    + apply Forall_forall. intros row Hrow. split.
      * rewrite Forall_forall in Hty. by apply Hty.
      * assert (Hin : sn_proposal_id row ∈ sn_proposal_id <$> rows)
          by (apply list_elem_of_fmap; eauto).
        rewrite Hrows in Hin.
        apply list_elem_of_fmap in Hin as (entry & -> & [Hs Hin]%list_elem_of_filter).
        by apply Hok.
  - assert (Hne : ∃ p, p ∈ active ∧ ¬ set_or_absent (redis world !! REDIS_KEYS.participants p)).
    { apply not_Forall_Exists in Hall; [|intros p; unfold set_or_absent;
                                         destruct (redis world !! _) as [[]|]; apply _].
      apply Exists_exists in Hall as (p & Hin & Hp). eauto. }
    destruct active as [|a active'].
    { destruct Hne as (p & Hin & _). by apply elem_of_nil in Hin. }
    unfold Async.bind. rewrite E. eexists _, _. split; [reflexivity|]. done.
Qed.
End batch.

(** ** Data integrity verification *)

Section verification.
Import RedisBackupManager.

Lemma fmap_nil_iff {A B} (f : A → B) (l : list A) : f <$> l = [] ↔ l = [].
Proof. split; [apply fmap_nil_inv|by intros ->]. Qed.

Lemma bothIssues_nil (votes delegations : gmap string string) :
  bothIssues votes delegations = [] ↔
  ∀ wallet, is_Some (votes !! wallet) → Js.truthy (delegations !! wallet) = None.
Proof.
  unfold bothIssues. rewrite fmap_nil_iff. split.
  - intros Hnil wallet [o Hw].
    destruct (decide (Js.truthy (delegations !! wallet) = None)) as [|Hne]; [done|].
    assert (Hin : wallet ∈ filter (λ wallet, Js.truthy (delegations !! wallet) ≠ None)
                                  (map_to_list votes).*1).
    { apply list_elem_of_filter. split; [done|]. apply list_elem_of_fmap.
      exists (wallet, o). split; [done|]. by apply elem_of_map_to_list. }
    rewrite Hnil in Hin. by apply elem_of_nil in Hin.
  - intros H. apply elem_of_nil_inv. intros wallet [Hne Hin]%list_elem_of_filter.
    apply list_elem_of_fmap in Hin as ([w o] & -> & Hin%elem_of_map_to_list).
    apply Hne, H. by eexists.
Qed.

Lemma selfIssues_nil (delegations : gmap string string) :
  selfIssues delegations = [] ↔ ∀ wallet, delegations !! wallet ≠ Some wallet.
Proof.
  unfold selfIssues. rewrite fmap_nil_iff. split.
  - intros Hnil wallet Hw.
    assert (Hin : (wallet, wallet) ∈ filter (λ entry : string * string, entry.1 = entry.2)
                                            (map_to_list delegations)).
    { apply list_elem_of_filter. split; [done|]. by apply elem_of_map_to_list. }
    rewrite Hnil in Hin. by apply elem_of_nil in Hin.
  - intros H. apply elem_of_nil_inv. intros [w d] [Heq Hin%elem_of_map_to_list]%list_elem_of_filter.
    simpl in Heq. subst d. by apply (H w).
Qed.

(** X16.  On ordinary contents of the proposal's keys,
    [verifyProposalData] never throws and writes nothing.  It answers
    'valid' exactly when both the votes hash and the delegations hash
    exist, no voter has a delegation and no wallet delegates to itself; no
    issue is then listed.  When either hash is missing, as for a proposal
    nobody voted on or nobody delegated in, the answer is invalid, with the
    single issue 'Verification failed: ...' and no statistics. *)
Theorem verification_verdict (p : string) (world : world) :
  ordinary p world →
  ∃ v,
    verifyProposalData p world = (Ok v, world) ∧
    (valid v = true ↔
       ∃ votes delegations,
         redis world !! REDIS_KEYS.votes p = Some (RHash votes) ∧
         redis world !! REDIS_KEYS.delegations p = Some (RHash delegations) ∧
         (∀ wallet, is_Some (votes !! wallet) → Js.truthy (delegations !! wallet) = None) ∧
         (∀ wallet, delegations !! wallet ≠ Some wallet)) ∧
    (valid v = true → issues v = []) ∧
    (redis world !! REDIS_KEYS.votes p = None ∨
     redis world !! REDIS_KEYS.delegations p = None →
     valid v = false ∧ stats v = None ∧ ∃ message, issues v = ["Verification failed: " +:+ message]).
Proof.
  intros _. unfold verifyProposalData, Async.try_catch, Async.bind. rewrite !rd_eq. unfold hgetall.
  assert (Hfailed : ∀ message,
    (∀ votes delegations,
       redis world !! REDIS_KEYS.votes p = Some (RHash votes) →
       redis world !! REDIS_KEYS.delegations p = Some (RHash delegations) → False) →
    ∃ v,
      (Ok {| valid := false; issues := ["Verification failed: " +:+ message]; stats := None |},
       world) = (Ok v, world) ∧
      (valid v = true ↔
         ∃ votes delegations,
           redis world !! REDIS_KEYS.votes p = Some (RHash votes) ∧
           redis world !! REDIS_KEYS.delegations p = Some (RHash delegations) ∧
           (∀ wallet, is_Some (votes !! wallet) → Js.truthy (delegations !! wallet) = None) ∧
           (∀ wallet, delegations !! wallet ≠ Some wallet)) ∧
      (valid v = true → issues v = []) ∧
      (redis world !! REDIS_KEYS.votes p = None ∨
       redis world !! REDIS_KEYS.delegations p = None →
       valid v = false ∧ stats v = None ∧
       ∃ message, issues v = ["Verification failed: " +:+ message])).
  { intros message Hno. eexists. split; [reflexivity|]. cbn. split_and!.
    - split; [done|]. intros (votes & delegations & H1 & H2 & _). by destruct (Hno _ _ H1 H2).
    - done.
    - intros _. split_and!; eauto. }
  destruct (redis world !! REDIS_KEYS.votes p) as [[s|votes|s]|],
           (redis world !! REDIS_KEYS.delegations p) as [[s'|delegations|s']|];
    cbn; try (by apply Hfailed).
  - eexists. split; [reflexivity|]. cbn. split_and!.
    + rewrite bool_decide_eq_true, app_nil, bothIssues_nil, selfIssues_nil. split.
      * intros [H1 H2]. by exists votes, delegations.
      * intros (? & ? & [= <-] & [= <-] & H1 & H2). done.
    + by intros ?%bool_decide_eq_true.
    + by intros [[=]|[=]].
  - destruct ((map_to_list votes).*1); cbn; by apply Hfailed.
Qed.

Lemma verification_verdict_witness :
  ∃ v,
    verifyProposalData "p" scenario1 = (Ok v, scenario1) ∧
    (valid v = true ↔
       ∃ votes delegations,
         redis scenario1 !! REDIS_KEYS.votes "p" = Some (RHash votes) ∧
         redis scenario1 !! REDIS_KEYS.delegations "p" = Some (RHash delegations) ∧
         (∀ wallet, is_Some (votes !! wallet) → Js.truthy (delegations !! wallet) = None) ∧
         (∀ wallet, delegations !! wallet ≠ Some wallet)) ∧
    (valid v = true → issues v = []) ∧
    (redis scenario1 !! REDIS_KEYS.votes "p" = None ∨
     redis scenario1 !! REDIS_KEYS.delegations "p" = None →
     valid v = false ∧ stats v = None ∧ ∃ message, issues v = ["Verification failed: " +:+ message]).
Proof.
  apply (verification_verdict "p" scenario1).
  apply (bool_decide_unpack _). vm_compute. exact I.
Defined.

(** Scenario 1 is valid, and no longer so once C, who voted, is also
    recorded as delegating. *)
Example verification_scenario1 :
  match (verifyProposalData "p" scenario1).1,
        (verifyProposalData "p"
           (World (<[REDIS_KEYS.delegations "p" := RHash {[ "a" := "b"; "c" := "d" ]}]>
                     (redis scenario1)) emptyDb)).1 with
  | Ok v1, Ok v2 => valid v1 = true ∧ issues v1 = [] ∧ valid v2 = false
  | _, _ => False
  end.
Proof. by vm_compute. Qed.
End verification.

(** ** The voting handlers *)

Section access.
Import VotingRoutes.
Implicit Types (p : string) (m : membership) (world : world).

Lemma validateProposalAccess_pure p m world :
  ∃ v, VotingRoutes.validateProposalAccess p m world = (Ok v, world).
Proof.
  unfold VotingRoutes.validateProposalAccess, Async.try_catch, proposalDb.getById,
    Async.bind, Async.db_rd.
  destruct (proposals (supabase world) !! p); [|by eexists].
  destruct (user_organization m) as [organization_id|]; [|by eexists].
  destruct (Js.truthy organization_id); [|by eexists].
  destruct (negb _); [by eexists|]. destruct (ended m); by eexists.
Qed.

Lemma validateProposalAccess_valid p m world proposal organization_id :
  proposals (supabase world) !! p = Some proposal →
  user_organization m = Some (Some organization_id) →
  organization_id ≠ "" →
  proposal_organization m = organization_id →
  ended m = false →
  VotingRoutes.validateProposalAccess p m world = (Ok (Valid proposal organization_id), world).
Proof.
  intros Hp Hu Hne Ho He.
  unfold VotingRoutes.validateProposalAccess, Async.try_catch, proposalDb.getById,
    Async.bind, Async.db_rd.
  rewrite Hp, Hu. destruct organization_id; [done|]. simpl.
  rewrite Ho, bool_decide_true by done. simpl. by rewrite He.
Qed.
(** X17.  [validateProposalAccess] never throws and writes nothing.  It
    accepts exactly when the proposal exists, the caller has a row with a
    non-empty organization equal to the proposal's, and voting has not
    ended.  Its refusals carry 403, 410 or 500 and never 404: a proposal
    (or a caller) without a row is answered 500 'Validation failed', and 410
    is only given for an existing proposal whose voting has ended. *)
Theorem access_verdict (p : string) (m : membership) (world : world) :
  ∃ v,
    VotingRoutes.validateProposalAccess p m world = (Ok v, world) ∧
    (∀ proposal organization_id,
       proposals (supabase world) !! p = Some proposal →
       user_organization m = Some (Some organization_id) →
       organization_id ≠ "" →
       organization_id = proposal_organization m →
       ended m = false →
       v = Valid proposal organization_id) ∧
    match v with
    | Valid proposal organization_id =>
        proposals (supabase world) !! p = Some proposal ∧
        user_organization m = Some (Some organization_id) ∧
        organization_id ≠ "" ∧
        organization_id = proposal_organization m ∧
        ended m = false
    | Invalid status err =>
        (status = 403 ∨ status = 410 ∨ status = 500) ∧
        (proposals (supabase world) !! p = None → status = 500 ∧ err = "Validation failed") ∧
        (user_organization m = None → status = 500) ∧
        (status = 410 → ended m = true ∧ is_Some (proposals (supabase world) !! p))
    end.
Proof.
  destruct (validateProposalAccess_pure p m world) as [v Ev]. exists v.
  split; [done|]. split.
  { intros proposal organization_id Hp Hu Hne Ho He.
    rewrite (validateProposalAccess_valid p m world proposal organization_id
               Hp Hu Hne (eq_sym Ho) He) in Ev.
    by injection Ev as <-. }
  revert Ev.
  unfold VotingRoutes.validateProposalAccess, Async.try_catch, proposalDb.getById,
    Async.bind, Async.db_rd.
  destruct (proposals (supabase world) !! p) as [proposal|] eqn:Hp;
    [|intros [= <-]; cbn; split_and!; auto; intros [=]].
  destruct (user_organization m) as [[organization_id|]|] eqn:Hu;
    [|intros [= <-]; cbn; split_and!; auto; intros [=]..].
  destruct organization_id as [|a organization_id];
    [intros [= <-]; cbn; split_and!; auto; intros [=]|].
  cbn. case_bool_decide as Ho; cbn.
  - destruct (ended m) eqn:He; intros [= <-]; cbn.
    + split_and!; auto; done.
    + by split_and!.
  - intros [= <-]. cbn. split_and!; auto; intros [=].
Qed.
End access.

Section vote_route.
Import VotingRoutes.
Implicit Types (world : world).

Lemma getUserStatus_view p w world :
  well_typed p (redis world) →
  RedisVotingOps.getUserStatus p w world
  = (Ok {| has_voted :=
             bool_decide (Js.truthy (votesOf p world !! Js.toLowerCase w) ≫= Js.parseInt ≠ None);
           voted_option := Js.truthy (votesOf p world !! Js.toLowerCase w) ≫= Js.parseInt;
           has_delegated :=
             bool_decide (Js.truthy (delegationsOf p world !! Js.toLowerCase w) ≠ None);
           delegate_wallet := Js.truthy (delegationsOf p world !! Js.toLowerCase w) |},
     world).
Proof.
  intros (Hv & Hd & _). apply getUserStatus_eq.
  - by apply getUserVote_view.
  - by apply getUserDelegation_view.
Qed.

Lemma optionExists_true (n : Z) (options : list proposal_option) :
  n ∈ option_number <$> options →
  existsb (λ opt, option_number opt =? n)%Z options = true.
Proof.
  intros (opt & -> & Hin)%list_elem_of_fmap. apply existsb_exists.
  exists opt. split; [by apply list_elem_of_In|]. by apply Z.eqb_refl.
Qed.

(** X18.  A [POST /:id/vote] request with a well-formed proposal id and an
    option number of the proposal, a safe integer, from a member of the
    proposal's organization who is not in cooldown, while voting is open
    and the proposal's keys hold the declared kinds with ordinary contents,
    is answered with the vote cast and what it replaced.  Afterwards the wallet's vote reads back as that
    option, it has no delegation, it is a participant, the cooldown key
    holds the request's time stamp and the same request repeated is refused
    with 429, changing nothing.  The audit table gains a 'vote' entry,
    followed by a 'remove_delegation' entry when a delegation was replaced;
    no key other than the proposal's three and the cooldown key changes. *)
Theorem vote_is_recorded (req : vote_request) (n : Z) (proposal : proposal)
        (organization_id : string) (world : world) :
  let p := vreq_proposalId req in
  let wallet := vreq_walletAddress req in
  let cooldown := REDIS_KEYS.cooldown (Js.toLowerCase wallet) p in
  matches uuidPattern p = true →
  vreq_option_number req = Some n →
  (1 ≤ n)%Z →
  Js.safe n →
  redis world !! cooldown = None →
  proposals (supabase world) !! p = Some proposal →
  n ∈ option_number <$> options proposal →
  vreq_membership req = Membership (Some (Some organization_id)) organization_id false →
  organization_id ≠ "" →
  well_typed p (redis world) →
  ordinary p world →
  ∃ world',
    let delegated := bool_decide (Js.truthy (delegationsOf p world !! Js.toLowerCase wallet) ≠ None) in
    let voted := bool_decide (Js.truthy (votesOf p world !! Js.toLowerCase wallet)
                                ≫= Js.parseInt ≠ None) in
    let entry action target :=
      {| va_proposal_id := p; va_user_wallet := Js.toLowerCase wallet;
         va_organization_id := organization_id; va_action_type := action;
         va_target := target; va_target_wallet := None |} in
    vote req world
    = (Ok (VoteCast n (if delegated then "delegation_removed"
                       else if voted then "vote_updated" else "none")), world') ∧
    RedisVotingOps.getUserVote p wallet world' = (Ok (Some n), world') ∧
    RedisVotingOps.getUserDelegation p wallet world' = (Ok None, world') ∧
    Js.toLowerCase wallet ∈ participantsOf p world' ∧
    redis world' !! cooldown = Some (RString (vreq_stamp req)) ∧
    vote req world' = (Ok (Refused 429 RATE_LIMITED), world') ∧
    vote_audit (supabase world')
    = vote_audit (supabase world) ++
      entry "vote" (Some (Js.toString n)) ::
      (if delegated then [entry "remove_delegation" None] else []) ∧
    (∀ k, redis world' !! k = redis world !! k ∨ keysOf p k ∨ k = cooldown).
Proof.
  intros p wallet cooldown Huuid Hopt Hn Hsafe Hcool Hp Hex Hm Hne Hwt _.
  destruct (castVote_spec p wallet n world Hwt)
    as (world1 & Ecast & Hv & Hd & Hpart & Hwt1 & [Hdb1 Hframe1]).
  pose proof (getUserStatus_view p wallet world Hwt) as Est.
  set (status := UserStatus _ _ _ _) in Est.
  set (world2 := World (<[cooldown := RString (vreq_stamp req)]> (redis world1))
                       (supabase world1)).
  assert (Ecd : RedisVotingOps.setCooldown wallet p (vreq_stamp req) world1 = (Ok "OK", world2)).
  { reflexivity. }
  assert (Hlim : ∀ world, redis world !! cooldown = None →
                          checkRateLimit wallet p world = (Ok false, world)).
  { intros w Hw. unfold checkRateLimit, RedisVotingOps.checkCooldown.
    unfold Async.bind. rewrite rd_eq. unfold get. fold p wallet cooldown. by rewrite Hw. }
  assert (Hlim' : ∀ world stamp, redis world !! cooldown = Some (RString stamp) →
                                 checkRateLimit wallet p world = (Ok true, world)).
  { intros w stamp Hw. unfold checkRateLimit, RedisVotingOps.checkCooldown.
    unfold Async.bind. rewrite rd_eq. unfold get. fold p wallet cooldown. by rewrite Hw. }
  assert (Hk2 : ∀ k, keysOf p k → redis world2 !! k = redis world1 !! k).
  { intros k Hk. cbn. apply lookup_insert_ne. intros <-.
    by apply (cooldown_not_keysOf p (Js.toLowerCase wallet) p). }
  assert (Hwt2 : well_typed p (redis world2)).
  { destruct Hwt1 as (H1 & H2 & H3). unfold well_typed.
    rewrite !Hk2 by (unfold keysOf; auto). done. }
  assert (Hv2 : votesOf p world2 = votesOf p world1).
  { unfold votesOf. apply (hashAt_frame ""). apply Hk2. unfold keysOf. auto. }
  assert (Hd2 : delegationsOf p world2 = delegationsOf p world1).
  { unfold delegationsOf. apply (hashAt_frame ""). apply Hk2. unfold keysOf. auto. }
  assert (Hp2 : participantsOf p world2 = participantsOf p world1).
  { unfold participantsOf, setAt. rewrite Hk2; [done|]. unfold keysOf. auto. }
  set (entry action target :=
         {| va_proposal_id := p; va_user_wallet := Js.toLowerCase wallet;
            va_organization_id := organization_id; va_action_type := action;
            va_target := target; va_target_wallet := None |}).
  set (world' := World (redis world2)
                (let db := insert_vote_audit (entry "vote" (Some (Js.toString n)))
                                             (supabase world) in
                 if has_delegated status
                 then insert_vote_audit (entry "remove_delegation" None) db else db)).
  assert (Hcool' : redis world' !! cooldown = Some (RString (vreq_stamp req))).
  { cbn. apply lookup_insert_eq. }
  exists world'.
  cbn zeta. split_and!.
  - unfold vote, Async.try_catch. fold p wallet. rewrite Huuid, Hopt. cbn [negb].
    assert ((n <? 1)%Z = false) as -> by lia.
    rewrite (bind_eq _ _ _ _ _ (Hlim world Hcool)).
    rewrite (bind_eq _ _ _ _ _
               (validateProposalAccess_valid p (vreq_membership req) world proposal organization_id
                  Hp ltac:(by rewrite Hm) Hne ltac:(by rewrite Hm) ltac:(by rewrite Hm))).
    rewrite (optionExists_true n _ Hex). cbn [negb].
    rewrite (bind_eq _ _ _ _ _ Est).
    rewrite (bind_eq _ _ _ _ _ Ecast).
    rewrite (bind_eq _ _ _ _ _ Ecd).
    unfold createAuditEntry. unfold Async.bind at 1. unfold Async.db_wr at 1.
    cbn [has_delegated has_voted status].
    destruct (bool_decide (Js.truthy (delegationsOf p world !! Js.toLowerCase wallet) ≠ None));
      cbn; rewrite Hdb1; reflexivity.
  - rewrite getUserVote_view by apply Hwt2.
    change (votesOf p world') with (votesOf p world2).
    rewrite Hv2, Hv, lookup_insert_eq, truthy_toString by done.
    cbn. by rewrite parseInt_toString.
  - rewrite getUserDelegation_view by apply Hwt2.
    change (delegationsOf p world') with (delegationsOf p world2).
    by rewrite Hd2, Hd, lookup_delete_eq.
  - change (participantsOf p world') with (participantsOf p world2).
    rewrite Hp2, Hpart. set_solver.
  - exact Hcool'.
  - unfold vote, Async.try_catch. fold p wallet. rewrite Huuid, Hopt. cbn [negb].
    assert ((n <? 1)%Z = false) as -> by lia.
    rewrite (bind_eq _ _ _ _ _ (Hlim' world' _ Hcool')).
    reflexivity.
  - destruct (bool_decide (Js.truthy (delegationsOf p world !! Js.toLowerCase wallet) ≠ None));
      cbn; rewrite <- ?app_assoc; reflexivity.
  - intros k. destruct (decide (k = cooldown)) as [->|Hk]; [auto|].
    destruct (decide (keysOf p k)) as [Hkp|Hkp]; [auto|]. left.
    cbn. rewrite lookup_insert_ne by done. by apply Hframe1.
Qed.
End vote_route.

Lemma vote_is_recorded_witness :
  let p := UUID in
  let wallet := "0xABCDEF" in
  let cooldown := REDIS_KEYS.cooldown (Js.toLowerCase wallet) p in
  ∃ world',
    let delegated :=
      bool_decide (Js.truthy (delegationsOf p openProposal !! Js.toLowerCase wallet) ≠ None) in
    let voted := bool_decide (Js.truthy (votesOf p openProposal !! Js.toLowerCase wallet)
                                ≫= Js.parseInt ≠ None) in
    let entry action target :=
      {| va_proposal_id := p; va_user_wallet := Js.toLowerCase wallet;
         va_organization_id := "org-1"; va_action_type := action;
         va_target := target; va_target_wallet := None |} in
    VotingRoutes.vote ballot openProposal
    = (Ok (VotingRoutes.VoteCast 1 (if delegated then "delegation_removed"
                                    else if voted then "vote_updated" else "none")), world') ∧
    RedisVotingOps.getUserVote p wallet world' = (Ok (Some 1%Z), world') ∧
    RedisVotingOps.getUserDelegation p wallet world' = (Ok None, world') ∧
    Js.toLowerCase wallet ∈ participantsOf p world' ∧
    redis world' !! cooldown = Some (RString "1735689600000") ∧
    VotingRoutes.vote ballot world'
    = (Ok (VotingRoutes.Refused 429 VotingRoutes.RATE_LIMITED), world') ∧
    vote_audit (supabase world')
    = vote_audit (supabase openProposal) ++
      entry "vote" (Some (Js.toString 1)) ::
      (if delegated then [entry "remove_delegation" None] else []) ∧
    (∀ k, redis world' !! k = redis openProposal !! k ∨ keysOf p k ∨ k = cooldown).
Proof.
  apply (vote_is_recorded ballot 1 openRow "org-1" openProposal).
  - reflexivity.
  - reflexivity.
  - lia.
  - exact I.
  - reflexivity.
  - reflexivity.
  - simpl. left.
  - reflexivity.
  - discriminate.
  - vm_compute. tauto.
  - apply (bool_decide_unpack _). vm_compute. exact I.
Defined.

Section refusals.
Import VotingRoutes.
Implicit Types (world : world).

Lemma checkRateLimit_cases u p world :
  ∃ r, checkRateLimit u p world = (r, world).
Proof.
  unfold checkRateLimit, RedisVotingOps.checkCooldown, Async.bind. rewrite rd_eq.
  destruct (get _ _); by eexists.
Qed.

Lemma detectCyclesDFS_answers p a b world :
  ∃ check, RedisVotingOps.detectCyclesDFS p a b world = (Ok check, world).
Proof.
  unfold RedisVotingOps.detectCyclesDFS, Async.try_catch.
  case_decide; [by eexists|].
  destruct (getAllDelegations_cases p world) as [[_ [m E]]|[_ [msg E]]].
  - rewrite (bind_eq _ _ _ _ _ E).
    destruct (RedisVotingOps.walk _ _ _ _ _ _); [by eexists|]. case_decide; by eexists.
  - unfold Async.bind. rewrite E. by eexists.
Qed.

(** What follows the first write answers with a success or throws. *)
Lemma vote_writes req proposalId userWallet optionNumber organization_id world a world' :
  (await currentStatus <- RedisVotingOps.getUserStatus proposalId userWallet in
   await_ RedisVotingOps.castVote proposalId userWallet optionNumber in
   await_ RedisVotingOps.setCooldown userWallet proposalId (vreq_stamp req) in
   await_ createAuditEntry proposalId userWallet organization_id "vote"
            (Some (Js.toString optionNumber)) None in
   await_ (if has_delegated currentStatus
           then createAuditEntry proposalId userWallet organization_id
                                 "remove_delegation" None None
           else ret tt) in
   ret (VoteCast optionNumber
          (if has_delegated currentStatus then "delegation_removed"
           else if has_voted currentStatus then "vote_updated"
           else "none"))) world = (Ok a, world') →
  ∃ previous, a = VoteCast optionNumber previous.
Proof.
  intros E. repeat (apply bind_ok in E as (? & ? & _ & E)).
  injection E as <- _. by eexists.
Qed.

Lemma vote_refusal req world :
  ∃ answer world',
    vote req world = (Ok answer, world') ∧
    ∀ status err, answer = Refused status err → status ≠ 500 → world' = world.
Proof.
  unfold vote, Async.try_catch.
  destruct (negb _); [by eexists _, _|].
  destruct (vreq_option_number req) as [optionNumber|]; [|by eexists _, _].
  destruct (optionNumber <? 1)%Z; [by eexists _, _|].
  destruct (checkRateLimit_cases (vreq_walletAddress req) (vreq_proposalId req) world)
    as [r Er].
  rewrite (bind_read _ _ _ _ Er).
  destruct r as [[|]|msg]; [by eexists _, _| |by eexists _, _; split; [done|intros ?? [=]; lia]].
  destruct (validateProposalAccess_pure (vreq_proposalId req) (vreq_membership req) world)
    as [v Ev].
  rewrite (bind_read _ _ _ _ Ev).
  destruct v as [proposal organization_id|status err]; [|by eexists _, _].
  destruct (negb _); [by eexists _, _|].
  match goal with |- context [match ?m world with _ => _ end] =>
    destruct (m world) as [[a|msg] w'] eqn:E end.
  - apply vote_writes in E as [previous ->]. eexists _, _. split; [done|]. intros ?? [=].
  - eexists _, _. split; [done|]. intros ?? [=]. lia.
Qed.

Lemma deleteVote_refusal req world :
  ∃ answer world',
    deleteVote req world = (Ok answer, world') ∧
    ∀ status err, answer = Refused status err → status ≠ 500 → world' = world.
Proof.
  unfold deleteVote, Async.try_catch.
  destruct (negb _); [by eexists _, _|].
  destruct (checkRateLimit_cases (rreq_walletAddress req) (rreq_proposalId req) world)
    as [r Er].
  rewrite (bind_read _ _ _ _ Er).
  destruct r as [[|]|msg]; [by eexists _, _| |by eexists _, _; split; [done|intros ?? [=]; lia]].
  destruct (validateProposalAccess_pure (rreq_proposalId req) (rreq_membership req) world)
    as [v Ev].
  rewrite (bind_read _ _ _ _ Ev).
  destruct v as [proposal organization_id|status err]; [|by eexists _, _].
  destruct (getUserVote_ok (rreq_proposalId req) (rreq_walletAddress req) world)
    as [currentVote Ec].
  rewrite (bind_read _ _ _ _ Ec).
  destruct currentVote as [currentVote|]; [|by eexists _, _].
  match goal with |- context [match ?m world with _ => _ end] =>
    destruct (m world) as [[a|msg] w'] eqn:E end.
  - repeat (apply bind_ok in E as (? & ? & _ & E)). injection E as <- _.
    eexists _, _. split; [done|]. intros ?? [=].
  - eexists _, _. split; [done|]. intros ?? [=]. lia.
Qed.

Lemma deleteDelegate_refusal req world :
  ∃ answer world',
    deleteDelegate req world = (Ok answer, world') ∧
    ∀ status err, answer = Refused status err → status ≠ 500 → world' = world.
Proof.
  unfold deleteDelegate, Async.try_catch.
  destruct (negb _); [by eexists _, _|].
  destruct (checkRateLimit_cases (rreq_walletAddress req) (rreq_proposalId req) world)
    as [r Er].
  rewrite (bind_read _ _ _ _ Er).
  destruct r as [[|]|msg]; [by eexists _, _| |by eexists _, _; split; [done|intros ?? [=]; lia]].
  destruct (validateProposalAccess_pure (rreq_proposalId req) (rreq_membership req) world)
    as [v Ev].
  rewrite (bind_read _ _ _ _ Ev).
  destruct v as [proposal organization_id|status err]; [|by eexists _, _].
  destruct (getUserDelegation_ok (rreq_proposalId req) (rreq_walletAddress req) world)
    as [currentDelegation Ec].
  rewrite (bind_read _ _ _ _ Ec).
  destruct currentDelegation as [currentDelegation|]; [|by eexists _, _].
  match goal with |- context [match ?m world with _ => _ end] =>
    destruct (m world) as [[a|msg] w'] eqn:E end.
  - repeat (apply bind_ok in E as (? & ? & _ & E)). injection E as <- _.
    eexists _, _. split; [done|]. intros ?? [=].
  - eexists _, _. split; [done|]. intros ?? [=]. lia.
Qed.

Lemma delegate_refusal req world :
  ∃ answer world',
    delegate req world = (Ok answer, world') ∧
    ∀ status err, answer = Rejected status err → status ≠ 500 → world' = world.
Proof.
  unfold delegate, Async.try_catch.
  destruct (negb _); [by eexists _, _|].
  destruct (blank _); [by eexists _, _|].
  destruct (checkRateLimit_cases (req_walletAddress req) (req_proposalId req) world)
    as [r Er].
  rewrite (bind_read _ _ _ _ Er).
  destruct r as [[|]|msg]; [by eexists _, _| |by eexists _, _; split; [done|intros ?? [=]; lia]].
  destruct (req_access req) as [organization_id|status err]; [|by eexists _, _].
  destruct (req_targetWallet req) as [targetWallet|]; [|by eexists _, _].
  destruct (detectCyclesDFS_answers (req_proposalId req) (req_walletAddress req)
                                    targetWallet world) as [cycleCheck Ec].
  rewrite (bind_read _ _ _ _ Ec).
  destruct (hasCycle cycleCheck); [by eexists _, _|].
  match goal with |- context [match ?m world with _ => _ end] =>
    destruct (m world) as [[a|msg] w'] eqn:E end.
  - repeat (apply bind_ok in E as (? & ? & _ & E)). injection E as <- _.
    eexists _, _. split; [done|]. intros ?? [=].
  - eexists _, _. split; [done|]. intros ?? [=]. lia.
Qed.

(** X19.  The four handlers [POST /:id/vote], [DELETE /:id/vote],
    [POST /:id/delegate] and [DELETE /:id/delegate] always answer, and a
    refusal with a status other than 500 leaves both stores exactly as they
    were: every check that can refuse comes before the first write. *)
Theorem refusals_change_nothing (world : world) :
  (∀ req, ∃ answer world',
     vote req world = (Ok answer, world') ∧
     ∀ status err, answer = Refused status err → status ≠ 500 → world' = world) ∧
  (∀ req, ∃ answer world',
     deleteVote req world = (Ok answer, world') ∧
     ∀ status err, answer = Refused status err → status ≠ 500 → world' = world) ∧
  (∀ req, ∃ answer world',
     delegate req world = (Ok answer, world') ∧
     ∀ status err, answer = Rejected status err → status ≠ 500 → world' = world) ∧
  (∀ req, ∃ answer world',
     deleteDelegate req world = (Ok answer, world') ∧
     ∀ status err, answer = Refused status err → status ≠ 500 → world' = world).
Proof.
  split_and!; intros req.
  - apply vote_refusal.
  - apply deleteVote_refusal.
  - apply delegate_refusal.
  - apply deleteDelegate_refusal.
Qed.
End refusals.

Section removal_route.
Import VotingRoutes.
Implicit Types (world : world).

(** X20.  A [DELETE /:id/vote] request with a well-formed proposal id, from
    a member of the proposal's organization who is not in cooldown and
    whose vote reads [n], while voting is open and the proposal's keys hold
    the declared kinds, is answered with [n] as the removed vote.
    Afterwards the wallet has no vote, the delegations and the participant
    set are as before (the wallet stays a participant), the cooldown key
    holds the request's time stamp and the same request repeated is refused
    with 429.  The audit table gains one 'remove_vote' entry. *)
Theorem vote_removal_is_recorded (req : removal_request) (n : Z) (proposal : proposal)
        (organization_id : string) (world : world) :
  let p := rreq_proposalId req in
  let wallet := rreq_walletAddress req in
  let cooldown := REDIS_KEYS.cooldown (Js.toLowerCase wallet) p in
  matches uuidPattern p = true →
  redis world !! cooldown = None →
  proposals (supabase world) !! p = Some proposal →
  rreq_membership req = Membership (Some (Some organization_id)) organization_id false →
  organization_id ≠ "" →
  well_typed p (redis world) →
  RedisVotingOps.getUserVote p wallet world = (Ok (Some n), world) →
  ∃ world',
    deleteVote req world = (Ok (VoteRemoved n), world') ∧
    RedisVotingOps.getUserVote p wallet world' = (Ok None, world') ∧
    delegationsOf p world' = delegationsOf p world ∧
    participantsOf p world' = participantsOf p world ∧
    redis world' !! cooldown = Some (RString (rreq_stamp req)) ∧
    deleteVote req world' = (Ok (Refused 429 RATE_LIMITED), world') ∧
    vote_audit (supabase world')
    = vote_audit (supabase world) ++
      [{| va_proposal_id := p; va_user_wallet := Js.toLowerCase wallet;
          va_organization_id := organization_id; va_action_type := "remove_vote";
          va_target := None; va_target_wallet := None |}] ∧
    (∀ k, redis world' !! k = redis world !! k ∨ keysOf p k ∨ k = cooldown).
Proof.
  intros p wallet cooldown Huuid Hcool Hp Hm Hne Hwt Hvote.
  destruct (removeVote_spec p wallet world Hwt)
    as (removed & world1 & Erm & Hv & Hd & Hpart & Hwt1 & [Hdb1 Hframe1]).
  set (world2 := World (<[cooldown := RString (rreq_stamp req)]> (redis world1))
                       (supabase world1)).
  assert (Ecd : RedisVotingOps.setCooldown wallet p (rreq_stamp req) world1 = (Ok "OK", world2)).
  { reflexivity. }
  assert (Hlim : ∀ world r, redis world !! cooldown = r →
                   (∀ h, r ≠ Some (RHash h)) → (∀ s, r ≠ Some (RSet s)) →
                   checkRateLimit wallet p world = (Ok (bool_decide (r ≠ None)), world)).
  { intros w r Hw Hh Hs. unfold checkRateLimit, RedisVotingOps.checkCooldown.
    unfold Async.bind. rewrite rd_eq. unfold get. fold p wallet cooldown. rewrite Hw.
    destruct r as [[s|h|s]|]; [done|by destruct (Hh h)|by destruct (Hs s)|done]. }
  assert (Hk2 : ∀ k, keysOf p k → redis world2 !! k = redis world1 !! k).
  { intros k Hk. cbn. apply lookup_insert_ne. intros <-.
    by apply (cooldown_not_keysOf p (Js.toLowerCase wallet) p). }
  assert (Hwt2 : well_typed p (redis world2)).
  { destruct Hwt1 as (H1 & H2 & H3). unfold well_typed.
    rewrite !Hk2 by (unfold keysOf; auto). done. }
  set (world' := World (redis world2)
                       (insert_vote_audit
                          {| va_proposal_id := p; va_user_wallet := Js.toLowerCase wallet;
                             va_organization_id := organization_id;
                             va_action_type := "remove_vote";
                             va_target := None; va_target_wallet := None |}
                          (supabase world))).
  assert (Hcool' : redis world' !! cooldown = Some (RString (rreq_stamp req))).
  { cbn. apply lookup_insert_eq. }
  exists world'. split_and!.
  - unfold deleteVote, Async.try_catch. fold p wallet. rewrite Huuid. cbn [negb].
    rewrite (bind_eq _ _ _ _ _ (Hlim world None Hcool ltac:(done) ltac:(done))).
    rewrite bool_decide_false by (by intros H; apply H).
    rewrite (bind_eq _ _ _ _ _
               (validateProposalAccess_valid p (rreq_membership req) world proposal
                  organization_id Hp ltac:(by rewrite Hm) Hne ltac:(by rewrite Hm)
                  ltac:(by rewrite Hm))).
    rewrite (bind_eq _ _ _ _ _ Hvote).
    rewrite (bind_eq _ _ _ _ _ Erm).
    rewrite (bind_eq _ _ _ _ _ Ecd).
    unfold createAuditEntry, Async.bind, Async.db_wr, Async.ret. cbn. by rewrite Hdb1.
  - rewrite getUserVote_view by apply Hwt2.
    change (votesOf p world') with (hashAt (REDIS_KEYS.votes p) (redis world2)).
    rewrite (hashAt_frame "" _ _ _ (Hk2 (REDIS_KEYS.votes p) ltac:(unfold keysOf; auto))).
    fold (votesOf p world1). by rewrite Hv, lookup_delete_eq.
  - change (delegationsOf p world') with (hashAt (REDIS_KEYS.delegations p) (redis world2)).
    rewrite (hashAt_frame "" _ _ _
               (Hk2 (REDIS_KEYS.delegations p) ltac:(unfold keysOf; auto))).
    exact Hd.
  - unfold participantsOf, setAt. change (redis world') with (redis world2).
    rewrite Hk2 by (unfold keysOf; auto). exact Hpart.
  - exact Hcool'.
  - unfold deleteVote, Async.try_catch. fold p wallet. rewrite Huuid. cbn [negb].
    rewrite (bind_eq _ _ _ _ _ (Hlim world' _ Hcool' ltac:(done) ltac:(done))).
    by rewrite bool_decide_true.
  - reflexivity.
  - intros k. destruct (decide (k = cooldown)) as [->|Hk]; [auto|].
    destruct (decide (keysOf p k)) as [Hkp|Hkp]; [auto|]. left.
    cbn. rewrite lookup_insert_ne by done. by apply Hframe1.
Qed.
End removal_route.

Lemma vote_removal_is_recorded_witness :
  let p := UUID in
  let wallet := "0xABCDEF" in
  let cooldown := REDIS_KEYS.cooldown (Js.toLowerCase wallet) p in
  ∃ world',
    VotingRoutes.deleteVote withdrawal afterBallot
    = (Ok (VotingRoutes.VoteRemoved 1), world') ∧
    RedisVotingOps.getUserVote p wallet world' = (Ok None, world') ∧
    delegationsOf p world' = delegationsOf p afterBallot ∧
    participantsOf p world' = participantsOf p afterBallot ∧
    redis world' !! cooldown = Some (RString "1735689700000") ∧
    VotingRoutes.deleteVote withdrawal world'
    = (Ok (VotingRoutes.Refused 429 VotingRoutes.RATE_LIMITED), world') ∧
    vote_audit (supabase world')
    = vote_audit (supabase afterBallot) ++
      [{| va_proposal_id := p; va_user_wallet := Js.toLowerCase wallet;
          va_organization_id := "org-1"; va_action_type := "remove_vote";
          va_target := None; va_target_wallet := None |}] ∧
    (∀ k, redis world' !! k = redis afterBallot !! k ∨ keysOf p k ∨ k = cooldown).
Proof.
  apply (vote_removal_is_recorded withdrawal 1 openRow "org-1" afterBallot).
  - reflexivity.
  - by vm_compute.
  - reflexivity.
  - reflexivity.
  - discriminate.
  - vm_compute. tauto.
  - vm_compute. reflexivity.
Defined.

(** ** Validation of a new proposal *)

Section trimming.
Implicit Types (s t : string).

Lemma list_ascii_rev_app s t :
  list_ascii_of_string (String.rev_app s t)
  = rev (list_ascii_of_string s) ++ list_ascii_of_string t.
Proof.
  revert t. induction s as [|a s IH]; intros t; simpl; [done|].
  rewrite IH. simpl. by rewrite <- app_assoc.
Qed.

Lemma list_ascii_rev s :
  list_ascii_of_string (String.rev s) = rev (list_ascii_of_string s).
Proof. unfold String.rev. rewrite list_ascii_rev_app. simpl. by rewrite app_nil_r. Qed.

Lemma list_ascii_inj s t : list_ascii_of_string s = list_ascii_of_string t → s = t.
Proof.
  intros H. rewrite <- (string_of_list_ascii_of_string s), H.
  apply string_of_list_ascii_of_string.
Qed.

Lemma string_rev_involutive s : String.rev (String.rev s) = s.
Proof. apply list_ascii_inj. by rewrite !list_ascii_rev, rev_involutive. Qed.

Lemma string_rev_app s t : String.rev (s +:+ t) = String.rev t +:+ String.rev s.
Proof.
  apply list_ascii_inj. by rewrite list_ascii_rev, !list_ascii_app, !list_ascii_rev, rev_app_distr.
Qed.

Lemma skip_ws_trimmed_start s : trimmed_start (Js.skip_ws s).
Proof. induction s as [|c s IH]; simpl; [done|]. by destruct (Js.is_ws c) eqn:E. Qed.

Lemma trimmed_start_skip_ws s : trimmed_start s → Js.skip_ws s = s.
Proof. destruct s as [|c s]; simpl; [done|]. by intros ->. Qed.

Lemma skip_ws_suffix s : ∃ ws, s = ws +:+ Js.skip_ws s.
Proof.
  induction s as [|c s [ws IH]]; simpl; [by exists ""|].
  destruct (Js.is_ws c).
  - exists (String c ws). change (String c s = String c (ws +:+ Js.skip_ws s)). by f_equal.
  - by exists "".
Qed.

Lemma trimmed_start_prefix s t : trimmed_start (s +:+ t) → trimmed_start s.
Proof. by destruct s. Qed.

Lemma trim_trimmed_start s : trimmed_start (Js.trim s) ∧ trimmed_start (String.rev (Js.trim s)).
Proof.
  unfold Js.trim. rewrite string_rev_involutive. split; [|apply skip_ws_trimmed_start].
  destruct (skip_ws_suffix (String.rev (Js.skip_ws s))) as [ws Hws].
  apply (f_equal String.rev) in Hws. rewrite string_rev_involutive, string_rev_app in Hws.
  apply (trimmed_start_prefix _ (String.rev ws)). rewrite <- Hws. apply skip_ws_trimmed_start.
Qed.

Lemma trim_idemp s : Js.trim (Js.trim s) = Js.trim s.
Proof.
  destruct (trim_trimmed_start s) as [H1 H2]. unfold Js.trim at 1.
  by rewrite (trimmed_start_skip_ws _ H1), (trimmed_start_skip_ws _ H2), string_rev_involutive.
Qed.
End trimming.

Section proposal_data.
Import ProposalRoutes.

Lemma size_list_to_set_le (l : list string) :
  size (list_to_set l : gset string) ≤ List.length l.
Proof.
  induction l as [|x l IH]; [done|]. cbn [list_to_set List.length].
  destruct (decide (x ∈ (list_to_set l : gset string))) as [Hx|Hx].
  - assert ({[x]} ∪ list_to_set l = (list_to_set l : gset string)) as -> by set_solver. lia.
  - rewrite size_union by set_solver. rewrite size_singleton. lia.
Qed.

Lemma size_list_to_set_NoDup (l : list string) :
  size (list_to_set l : gset string) = List.length l → NoDup l.
Proof.
  induction l as [|x l IH]; cbn [list_to_set List.length]; intros H; [constructor|].
  pose proof (size_list_to_set_le l) as Hle.
  destruct (decide (x ∈ (list_to_set l : gset string))) as [Hx|Hx].
  - assert ({[x]} ∪ list_to_set l = (list_to_set l : gset string)) as Heq by set_solver.
    rewrite Heq in H. lia.
  - rewrite size_union, size_singleton in H by set_solver.
    constructor; [by rewrite elem_of_list_to_set in Hx|]. apply IH. lia.
Qed.

Lemma validOption_Some (entry : option string) (s : string) :
  validOption entry = Some s ↔ entry = Some s ∧ 3 ≤ String.length (Js.trim s).
Proof.
  unfold validOption. destruct entry as [[|c r]|]; cbn [Js.truthy].
  - split; [done|]. intros [[= <-] Hlen]. vm_compute in Hlen. lia.
  - destruct (3 <=? _) eqn:E.
    + apply Nat.leb_le in E. split; [by intros [= <-]|by intros [[= <-] _]].
    + apply Nat.leb_gt in E. split; [done|]. intros [[= <-] ?]. lia.
  - split; [done|]. by intros [[=] _].
Qed.

Lemma bounded_text (text : option string) (least most : nat) (e0 e1 e2 : string) :
  match Js.truthy text with
  | None => [e0]
  | Some t => if String.length (Js.trim t) <? least then [e1]
              else if most <? String.length (Js.trim t) then [e2] else []
  end = [] →
  ∃ t, text = Some t ∧ least ≤ String.length (Js.trim t) ≤ most.
Proof.
  destruct text as [[|c t]|]; cbn [Js.truthy]; [done| |done].
  destruct (_ <? least) eqn:E1; [done|]. destruct (most <? _) eqn:E2; [done|]. intros _.
  apply Nat.ltb_ge in E1, E2. eauto.
Qed.

(** X21.  What [validateProposalData] accepts (no error listed) has a
    title of 10 to 100 and a description of 50 to 1000 characters once
    trimmed, and a deadline more than an hour after [now].  The options the
    create handler keeps for it are 2 to 10 in number, each trimmed and of
    3 to 200 characters, pairwise different without regard to case, and
    [proposalDb.create] stores them unchanged under the numbers 1, 2, ... in
    their order. *)
Theorem accepted_proposal (now : Z) (data : proposal_data) :
  validateProposalData now data = [] →
  ∃ title description deadline options,
    pd_title data = Some title ∧
    pd_description data = Some description ∧
    pd_voting_deadline data = Some (Some deadline) ∧
    pd_options data = Some options ∧
    10 ≤ String.length (Js.trim title) ≤ 100 ∧
    50 ≤ String.length (Js.trim description) ≤ 1000 ∧
    (now + 3600000 < deadline)%Z ∧
    let cleanOptions := cleanOptions options in
    2 ≤ List.length cleanOptions ≤ 10 ∧
    Forall (λ option, 3 ≤ String.length option ≤ 200 ∧ Js.trim option = option) cleanOptions ∧
    NoDup (Js.toLowerCase <$> cleanOptions) ∧
    option_text <$> optionsData cleanOptions = cleanOptions ∧
    option_number <$> optionsData cleanOptions
    = (λ index, Z.of_nat index + 1)%Z <$> seq 0 (List.length cleanOptions).
Proof.
  unfold validateProposalData. intros H.
  apply app_nil in H as [Ht H]. apply app_nil in H as [Hd H]. apply app_nil in H as [Hv Ho].
  apply bounded_text in Ht as (title & Ht & Htl).
  apply bounded_text in Hd as (description & Hd & Hdl).
  destruct (pd_voting_deadline data) as [[deadline|]|]; [|done..].
  destruct (deadline <=? now + 60 * 60 * 1000)%Z eqn:Hlate; [done|]. apply Z.leb_gt in Hlate.
  destruct (pd_options data) as [options|]; [|done].
  apply app_nil in Ho as [Hc [Hl Hu]%app_nil].
  assert (Hclean : Forall (λ option, 3 ≤ String.length option ≤ 200 ∧ Js.trim option = option)
                          (cleanOptions options)).
  { apply Forall_forall. intros o (s & -> & Hs)%list_elem_of_fmap.
    apply list_elem_of_omap in Hs as (entry & Hin & [-> Hlen]%validOption_Some).
    split; [|apply trim_idemp]. split; [done|].
    apply list_elem_of_lookup in Hin as [index Hin].
    pose proof (join_nil_1 _ Hl) as Hall. rewrite Forall_forall in Hall.
    specialize (Hall _ (elem_of_lookup_imap_2 optionLengthErrors _ _ _ Hin)).
    unfold optionLengthErrors in Hall.
    assert (Js.truthy (Some s) = Some s) as Hs.
    { destruct s; [|done]. vm_compute in Hlen. lia. }
    rewrite Hs in Hall. cbn zeta in Hall.
    destruct (_ && _); [done|]. destruct (200 <? _) eqn:E; [done|].
    by apply Nat.ltb_ge in E. }
  assert (Hcount : 2 ≤ List.length (omap validOption options) ≤ 10).
  { destruct (_ <? 2) eqn:E1; [done|]. destruct (10 <? _) eqn:E2; [done|].
    apply Nat.ltb_ge in E1, E2. done. }
  exists title, description, deadline, options.
  split_and!; [done|done|done|done|apply Htl|apply Htl|apply Hdl|apply Hdl|lia|..].
  - unfold cleanOptions. rewrite length_fmap. apply Hcount.
  - unfold cleanOptions. rewrite length_fmap. apply Hcount.
  - done.
  - unfold cleanOptions. rewrite <- list_fmap_compose.
    apply size_list_to_set_NoDup. rewrite length_fmap.
    destruct (negb _) eqn:E; [done|]. by apply negb_false_iff, Nat.eqb_eq in E.
  - unfold optionsData. rewrite fmap_imap.
    apply list_eq. intros i. rewrite list_lookup_imap.
    destruct (cleanOptions options !! i) as [x|] eqn:Hx; [|done]. simpl.
    rewrite Forall_forall in Hclean. f_equal. apply Hclean. by eapply list_elem_of_lookup_2.
  - unfold optionsData. rewrite fmap_imap.
    apply (imap_seq_0 (cleanOptions options) (λ index, Z.of_nat index + 1)%Z).
Qed.
End proposal_data.

Lemma accepted_proposal_witness :
  ∃ title description deadline options,
    ProposalRoutes.pd_title draft = Some title ∧
    ProposalRoutes.pd_description draft = Some description ∧
    ProposalRoutes.pd_voting_deadline draft = Some (Some deadline) ∧
    ProposalRoutes.pd_options draft = Some options ∧
    10 ≤ String.length (Js.trim title) ≤ 100 ∧
    50 ≤ String.length (Js.trim description) ≤ 1000 ∧
    (1735689600000 + 3600000 < deadline)%Z ∧
    let cleanOptions := ProposalRoutes.cleanOptions options in
    2 ≤ List.length cleanOptions ≤ 10 ∧
    Forall (λ option, 3 ≤ String.length option ≤ 200 ∧ Js.trim option = option) cleanOptions ∧
    NoDup (Js.toLowerCase <$> cleanOptions) ∧
    option_text <$> ProposalRoutes.optionsData cleanOptions = cleanOptions ∧
    option_number <$> ProposalRoutes.optionsData cleanOptions
    = (λ index, Z.of_nat index + 1)%Z <$> seq 0 (List.length cleanOptions).
Proof.
  apply (accepted_proposal 1735689600000 draft). by vm_compute.
Defined.

(** ** Restoring a snapshot *)

Section restore.
Import RedisBackupManager.
Implicit Types (p key : string) (st : store) (world : world).

Lemma exec_steps (pipeline : list command) world st' :
  steps pipeline (redis world) = Some st' →
  exec pipeline world = (Ok tt, World st' (supabase world)).
Proof.
  unfold exec.
  assert (G : ∀ st, steps pipeline st = Some st' →
                    foldl (λ '(failure, st) (c : command),
                             let '(f, st') := c st in
                             (match failure with Some m => Some m | None => f end, st'))
                          (None, st) pipeline = (None, st')).
  { induction pipeline as [|c cs IH]; intros st; cbn; [by intros [= ->]|].
    destruct (c st) as [[msg|] st1]; [done|]. apply IH. }
  intros H. by rewrite (G _ H).
Qed.

Lemma steps_app (cs1 cs2 : list command) st :
  steps (cs1 ++ cs2) st = steps cs1 st ≫= steps cs2.
Proof.
  revert st. induction cs1 as [|c cs1 IH]; intros st; cbn; [done|].
  destruct (c st) as [[msg|] st1]; [done|]. apply IH.
Qed.

Lemma steps_dels (keys : list string) st :
  ∃ st', steps ((λ key, cmd (del [key])) <$> keys) st = Some st' ∧
         (∀ k, k ∈ keys → st' !! k = None) ∧
         (∀ k, k ∉ keys → st' !! k = st !! k).
Proof.
  revert st. induction keys as [|key keys IH]; intros st.
  - exists st. split_and!; [done| |done]. intros k Hk. by apply elem_of_nil in Hk.
  - destruct (del_spec [key] st) as (n & E & _ & Hin & Hout).
    destruct (IH (del [key] st).2) as (st' & E' & Hin' & Hout').
    exists st'. split_and!.
    + cbn [fmap list_fmap steps]. unfold cmd at 1. rewrite E. exact E'.
    + intros k [->|Hk]%elem_of_cons; [|by apply Hin'].
      destruct (decide (key ∈ keys)); [by apply Hin'|].
      rewrite Hout' by done. apply Hin. by left.
    + intros k [Hne Hk]%not_elem_of_cons. rewrite Hout' by done. apply Hout.
      by intros ->%list_elem_of_singleton.
Qed.

Lemma redis_fields_hash (h : gmap string string) :
  redis_fields ((λ '(k, v), (k, JStr v)) <$> map_to_list h) = Some h.
Proof.
  assert (G : ∀ l : list (string * string),
             redis_fields ((λ '(k, v), (k, JStr v)) <$> l) = Some (list_to_map l)).
  { induction l as [|[k v] l IH]; cbn; [done|]. by rewrite IH. }
  by rewrite G, list_to_map_to_list.
Qed.

Lemma redis_members_strings (l : list string) : redis_members (JStr <$> l) = Some l.
Proof. induction l as [|x l IH]; cbn; [done|]. by rewrite IH. Qed.

Lemma restoreHash_run key (h : gmap string string) st :
  st !! key = None →
  ∃ cs st', restoreHash key (Some (json_of_hash h)) = Ok cs ∧
            steps cs st = Some st' ∧
            hashAt key st' = h ∧ hash_or_absent (st' !! key) ∧
            ∀ k, k ≠ key → st' !! k = st !! k.
Proof.
  intros Hkey. unfold restoreHash, json_of_hash.
  pose proof (redis_fields_hash h) as Hf.
  destruct (map_to_list h) as [|entry l] eqn:El.
  - apply map_to_list_empty_iff in El as ->. exists [], st.
    split_and!; [done|done| |by rewrite Hkey|done]. unfold hashAt. by rewrite Hkey.
  - cbn [fmap list_fmap] in *. rewrite Hf.
    assert (h ≠ ∅) by (intros ->; by rewrite map_to_list_empty in El).
    exists [cmd (hset key h)], (<[key := RHash h]> st). split_and!; [done| | | |].
    + cbn. unfold cmd, hset. rewrite decide_False by done. by rewrite Hkey.
    + apply hashAt_insert.
    + by rewrite lookup_insert_eq.
    + intros k Hk. by apply lookup_insert_ne.
Qed.

Lemma restoreSet_run key (members : list string) st :
  st !! key = None →
  ∃ cs st', restoreSet key (Some (json_of_members members)) = Ok cs ∧
            steps cs st = Some st' ∧
            setAt key st' = list_to_set members ∧ set_or_absent (st' !! key) ∧
            ∀ k, k ≠ key → st' !! k = st !! k.
Proof.
  intros Hkey. unfold restoreSet, json_of_members.
  pose proof (redis_members_strings members) as Hm.
  destruct members as [|m members].
  - exists [], st. split_and!; [done|done| |by rewrite Hkey|done]. unfold setAt. by rewrite Hkey.
  - cbn [fmap list_fmap] in *. rewrite Hm.
    exists [cmd (sadd key (m :: members))], (<[key := RSet (list_to_set (m :: members))]> st).
    split_and!; [done| | | |].
    + cbn [steps]. unfold cmd, sadd. by rewrite Hkey.
    + unfold setAt. by rewrite lookup_insert_eq.
    + by rewrite lookup_insert_eq.
    + intros k Hk. by apply lookup_insert_ne.
Qed.

Lemma restoreString_run key (value : option string) st :
  st !! key = None →
  ∃ cs st', restoreString key (Some (json_of_nullable value)) = Ok cs ∧
            steps cs st = Some st' ∧
            st' !! key = RString <$> Js.truthy value ∧
            ∀ k, k ≠ key → st' !! k = st !! k.
Proof.
  intros Hkey. unfold restoreString, json_of_nullable.
  destruct value as [[|c s]|].
  - by exists [], st.
  - exists [cmd (set key (String c s))], (<[key := RString (String c s)]> st).
    split_and!; [done|done|by rewrite lookup_insert_eq|].
    intros k Hk. by apply lookup_insert_ne.
  - by exists [], st.
Qed.

Lemma proposal_keys_ne p :
  (REDIS_KEYS.votes p ≠ REDIS_KEYS.delegations p ∧
   REDIS_KEYS.votes p ≠ REDIS_KEYS.participants p ∧
   REDIS_KEYS.votes p ≠ REDIS_KEYS.status p ∧
   REDIS_KEYS.votes p ≠ REDIS_KEYS.deadline p) ∧
  (REDIS_KEYS.delegations p ≠ REDIS_KEYS.participants p ∧
   REDIS_KEYS.delegations p ≠ REDIS_KEYS.status p ∧
   REDIS_KEYS.delegations p ≠ REDIS_KEYS.deadline p) ∧
  (REDIS_KEYS.participants p ≠ REDIS_KEYS.status p ∧
   REDIS_KEYS.participants p ≠ REDIS_KEYS.deadline p) ∧
  REDIS_KEYS.status p ≠ REDIS_KEYS.deadline p.
Proof.
  unfold REDIS_KEYS.votes, REDIS_KEYS.delegations, REDIS_KEYS.participants,
    REDIS_KEYS.status, REDIS_KEYS.deadline.
  split_and!; key_clash.
Qed.

Lemma proposal_keys_listed p k :
  k ∈ [REDIS_KEYS.votes p; REDIS_KEYS.delegations p; REDIS_KEYS.participants p;
       REDIS_KEYS.status p; REDIS_KEYS.deadline p] →
  k ∈ REDIS_KEYS.allForProposal p.
Proof.
  intros Hk. unfold REDIS_KEYS.allForProposal.
  repeat (apply elem_of_cons in Hk as [->|Hk]); [..|by apply elem_of_nil in Hk];
    unfold REDIS_KEYS.votes, REDIS_KEYS.delegations, REDIS_KEYS.participants,
      REDIS_KEYS.status, REDIS_KEYS.deadline;
    repeat first [apply list_elem_of_here | apply list_elem_of_further].
Qed.

(** X22.  What [restoreFromSnapshot] does with a payload in the layout it
    reads: when the selected row holds, under [redis_data.data], the fields
    [createSnapshot] captures, the restore succeeds and the proposal's
    votes, delegations and participants are exactly the captured ones,
    whatever the store held before.  Status and deadline are the captured
    ones when these are non-empty and absent otherwise, the proposal's other
    listed keys are deleted, and the keys [allForProposal] does not list and
    the durable store are untouched. *)
Theorem restore_installs (p : string) (sid : option string) (world : world)
        (row : snapshot_row) (timestamp : string) (votes delegations : gmap string string)
        (participants : list string) (status deadline : option string) :
  selectSnapshot p sid (supabase world) = Some row →
  jget "data" (redis_data row)
  = Some (snapshotDataOf timestamp votes delegations participants status deadline) →
  ∃ world',
    restoreFromSnapshot p sid world
    = (Ok (Restored (snapshot_id row) (snapshot_type row) None), world') ∧
    supabase world' = supabase world ∧
    well_typed p (redis world') ∧
    votesOf p world' = votes ∧
    delegationsOf p world' = delegations ∧
    participantsOf p world' = list_to_set participants ∧
    redis world' !! REDIS_KEYS.status p = RString <$> Js.truthy status ∧
    redis world' !! REDIS_KEYS.deadline p = RString <$> Js.truthy deadline ∧
    (∀ k, k ∈ REDIS_KEYS.allForProposal p →
          k ∉ [REDIS_KEYS.votes p; REDIS_KEYS.delegations p; REDIS_KEYS.participants p;
               REDIS_KEYS.status p; REDIS_KEYS.deadline p] →
          redis world' !! k = None) ∧
    (∀ k, k ∉ REDIS_KEYS.allForProposal p → redis world' !! k = redis world !! k).
Proof.
  intros Hsel Hdata.
  destruct (proposal_keys_ne p)
    as ((Hvd & Hvp & Hvs & Hvl) & (Hdp & Hds & Hdl) & (Hps & Hpl) & Hsl).
  pose proof (proposal_keys_listed p) as Hkeys.
  assert (Hfive : ∀ k, k ∉ [REDIS_KEYS.votes p; REDIS_KEYS.delegations p;
                            REDIS_KEYS.participants p; REDIS_KEYS.status p;
                            REDIS_KEYS.deadline p] →
                       k ≠ REDIS_KEYS.votes p ∧ k ≠ REDIS_KEYS.delegations p ∧
                       k ≠ REDIS_KEYS.participants p ∧ k ≠ REDIS_KEYS.status p ∧
                       k ≠ REDIS_KEYS.deadline p).
  { intros k Hk. rewrite !not_elem_of_cons in Hk. tauto. }
  destruct (steps_dels (REDIS_KEYS.allForProposal p) (redis world)) as (st0 & E0 & Hin0 & Hout0).
  assert (Hgone : ∀ k, k ∈ [REDIS_KEYS.votes p; REDIS_KEYS.delegations p;
                            REDIS_KEYS.participants p; REDIS_KEYS.status p;
                            REDIS_KEYS.deadline p] → st0 !! k = None).
  { intros k Hk. by apply Hin0, Hkeys. }
  destruct (restoreHash_run (REDIS_KEYS.votes p) votes st0) as (cs1 & st1 & R1 & E1 & V1 & T1 & F1).
  { apply Hgone. repeat first [apply list_elem_of_here | apply list_elem_of_further]. }
  destruct (restoreHash_run (REDIS_KEYS.delegations p) delegations st1)
    as (cs2 & st2 & R2 & E2 & V2 & T2 & F2).
  { rewrite F1 by congruence. apply Hgone.
    repeat first [apply list_elem_of_here | apply list_elem_of_further]. }
  destruct (restoreSet_run (REDIS_KEYS.participants p) participants st2)
    as (cs3 & st3 & R3 & E3 & V3 & T3 & F3).
  { rewrite F2, F1 by congruence. apply Hgone.
    repeat first [apply list_elem_of_here | apply list_elem_of_further]. }
  destruct (restoreString_run (REDIS_KEYS.status p) status st3) as (cs4 & st4 & R4 & E4 & V4 & F4).
  { rewrite F3, F2, F1 by congruence. apply Hgone.
    repeat first [apply list_elem_of_here | apply list_elem_of_further]. }
  destruct (restoreString_run (REDIS_KEYS.deadline p) deadline st4)
    as (cs5 & st5 & R5 & E5 & V5 & F5).
  { rewrite F4, F3, F2, F1 by congruence. apply Hgone.
    repeat first [apply list_elem_of_here | apply list_elem_of_further]. }
  exists (World st5 (supabase world)). split_and!.
  - unfold restoreFromSnapshot, Async.try_catch.
    unfold Async.bind at 1. unfold Async.db_rd. rewrite Hsel.
    destruct (redis_data row) as [|n|s|items|fields] eqn:Hrow; try discriminate.
    rewrite Hdata. cbn zeta. cbn [jtruthy negb mbind option_bind option_ret].
    set (data := snapshotDataOf timestamp votes delegations participants status deadline).
    change (jget "votes" data) with (Some (json_of_hash votes)).
    change (jget "delegations" data) with (Some (json_of_hash delegations)).
    change (jget "participants" data) with (Some (json_of_members participants)).
    change (jget "status" data) with (Some (json_of_nullable status)).
    change (jget "deadline" data) with (Some (json_of_nullable deadline)).
    change (jget "metadata" data) with (@None json).
    rewrite R1, R2, R3, R4, R5. subst data. unfold snapshotDataOf. cbn [negb].
    set (dels := (λ key, cmd (del [key])) <$> REDIS_KEYS.allForProposal p) in *.
    assert (Hq : queue [Ok dels; Ok cs1; Ok cs2; Ok cs3; Ok cs4; Ok cs5] world
                 = (Ok (dels ++ cs1 ++ cs2 ++ cs3 ++ cs4 ++ cs5 ++ []), world))
      by reflexivity.
    rewrite (bind_eq _ _ _ _ _ Hq).
    assert (Hsteps : steps (dels ++ cs1 ++ cs2 ++ cs3 ++ cs4 ++ cs5 ++ []) (redis world)
                     = Some st5).
    { rewrite steps_app, E0. cbn [mbind option_bind].
      rewrite steps_app, E1. cbn [mbind option_bind].
      rewrite steps_app, E2. cbn [mbind option_bind].
      rewrite steps_app, E3. cbn [mbind option_bind].
      rewrite steps_app, E4. cbn [mbind option_bind].
      by rewrite steps_app, E5. }
    by rewrite (bind_eq _ _ _ _ _ (exec_steps _ world st5 Hsteps)).
  - done.
  - unfold well_typed. cbn [redis]. split_and!.
    + by rewrite F5, F4, F3, F2 by congruence.
    + by rewrite F5, F4, F3 by congruence.
    + by rewrite F5, F4 by congruence.
  - unfold votesOf. cbn [redis]. rewrite <- V1. apply (hashAt_frame "").
    by rewrite F5, F4, F3, F2 by congruence.
  - unfold delegationsOf. cbn [redis]. rewrite <- V2. apply (hashAt_frame "").
    by rewrite F5, F4, F3 by congruence.
  - unfold participantsOf, setAt in *. cbn [redis]. by rewrite F5, F4 by congruence.
  - cbn [redis]. by rewrite F5 by congruence.
  - done.
  - intros k Hk (H1 & H2 & H3 & H4 & H5)%Hfive. cbn [redis].
    rewrite F5, F4, F3, F2, F1 by done. by apply Hin0.
  - intros k Hk. cbn [redis].
    assert (Hne : ∀ key, key ∈ [REDIS_KEYS.votes p; REDIS_KEYS.delegations p;
                                REDIS_KEYS.participants p; REDIS_KEYS.status p;
                                REDIS_KEYS.deadline p] → k ≠ key).
    { intros key Hkey ->. by apply Hk, Hkeys. }
    rewrite F5, F4, F3, F2, F1
      by (apply Hne; repeat first [apply list_elem_of_here | apply list_elem_of_further]).
    by apply Hout0.
Qed.
End restore.

Lemma restore_installs_witness :
  ∃ world',
    RedisBackupManager.restoreFromSnapshot "p" None archived
    = (Ok (Restored "snapshot-7" "manual" None), world') ∧
    supabase world' = supabase archived ∧
    well_typed "p" (redis world') ∧
    votesOf "p" world' = {[ "c" := "1"; "d" := "2" ]} ∧
    delegationsOf "p" world' = {[ "a" := "b"; "b" := "c" ]} ∧
    participantsOf "p" world' = list_to_set ["a"; "b"; "c"; "d"] ∧
    redis world' !! REDIS_KEYS.status "p" = RString <$> Js.truthy (Some "active") ∧
    redis world' !! REDIS_KEYS.deadline "p" = RString <$> Js.truthy None ∧
    (∀ k, k ∈ REDIS_KEYS.allForProposal "p" →
          k ∉ [REDIS_KEYS.votes "p"; REDIS_KEYS.delegations "p"; REDIS_KEYS.participants "p";
               REDIS_KEYS.status "p"; REDIS_KEYS.deadline "p"] →
          redis world' !! k = None) ∧
    (∀ k, k ∉ REDIS_KEYS.allForProposal "p" → redis world' !! k = redis archived !! k).
Proof.
  apply (restore_installs "p" None archived nestedRow "2025-01-01T00:00:00.000Z"
                          {[ "c" := "1"; "d" := "2" ]} {[ "a" := "b"; "b" := "c" ]}
                          ["a"; "b"; "c"; "d"] (Some "active") None).
  - reflexivity.
  - reflexivity.
Defined.
